(** * Lua bytecode codecs of lua5.4_parser: a shallow embedding

    The development follows [luaparse.py] (the Lua 5.4 reader, writer,
    instruction decoder, opcode comparison and XOR transform) and
    [luajitparse.py] (the LuaJIT reader).  Python integers are [Z], a
    [bytes] object is a list of [Byte.byte], an exception is a value of
    [exn] carried by [result]. *)

From Stdlib Require Import ZArith List Lia String Bool.
From Stdlib Require Import Strings.Byte.
Import ListNotations.
Local Open Scope Z_scope.
Set Warnings "-register-all".

(* ================================================================= *)
(** ** Python values shared by both parsers *)

Module Py.

Definition bytes := list byte.

(** [b[i]] and [struct.unpack('B', ...)] read a byte as an integer in 0..255. *)
Definition byte_val (b : byte) : Z := Z.of_N (Byte.to_N b).

(** [bytes([z])] for an integer that is already in 0..255 at every call site. *)
Definition byte_of_Z (z : Z) : byte :=
  match Byte.of_N (Z.to_N (z mod 256)) with
  | Some b => b
  | None => x00
  end.

Definition bytes_of (l : list Z) : bytes := map byte_of_Z l.

(** The exceptions the two modules raise, one constructor per raise site
    (the Python messages are fixed texts and carry at most one number). *)
Inductive exn : Type :=
| StructError                       (* struct.error: unpack of a short read, pack out of range *)
| OverflowError                     (* file.read: a size that is no C ssize_t *)
| AttributeError                    (* an attribute of None *)
| UnicodeEncodeError                (* str.encode('utf-8') on a lone surrogate *)
| RecursionError                    (* nesting deeper than the recursion budget *)
| ValueError_overflow               (* read_size: the accumulated value reached the limit *)
| ValueError_signature              (* check_header: not a Lua bytecode file *)
| ValueError_version (v : Z)        (* check_header: version byte differs *)
| ValueError_constant (t : Z)       (* read_constants: unknown constant tag *)
| ValueError_no_key                 (* encrypt_code_data / decrypt_code_data: key not set *)
| ValueError_count_mismatch         (* compare_opcodes: instruction counts differ *)
| ValueError_not_parsed             (* write_decrypted_luac before parse *)
| OutOfFuel                         (* never produced: loops get more rounds than the data has bytes *)
| Exception_bounds                  (* LuaJIT: a read past the end of the data *)
| Exception_too_small               (* LuaJIT read_header: no room for the signature *)
| Exception_uleb_too_long           (* LuaJIT read_uleb128: more than five groups *)
| Exception_signature               (* LuaJIT read_header: bad signature *)
| Exception_table_item (t : Z)      (* LuaJIT read_table_item: unknown item type *)
| Exception_kgc (t : Z).            (* LuaJIT read_proto: unknown GC constant type *)

Inductive result (A : Type) : Type :=
| Ok (a : A)
| Err (e : exn).
Arguments Ok {A} a.
Arguments Err {A} e.

Definition is_ok {A} (r : result A) : bool :=
  match r with Ok _ => true | Err _ => false end.

Definition rbind {A B} (r : result A) (k : A -> result B) : result B :=
  match r with
  | Ok a => k a
  | Err e => Err e
  end.

(** [struct.pack('B', v)]: one byte, [struct.error] outside 0..255. *)
Definition pack_B (v : Z) : result bytes :=
  if (0 <=? v) && (v <=? 255) then Ok [byte_of_Z v] else Err StructError.

(** [struct.unpack('B', raw)[0]]: needs exactly one byte. *)
Definition unpack_B (raw : bytes) : result Z :=
  match raw with
  | [b] => Ok (byte_val b)
  | _ => Err StructError
  end.

(** Little-endian unsigned value of a byte string. *)
Fixpoint le_value (raw : bytes) : Z :=
  match raw with
  | [] => 0
  | b :: raw' => byte_val b + 256 * le_value raw'
  end.

(** The [n] little-endian bytes of [v]. *)
Fixpoint le_bytes (n : nat) (v : Z) : bytes :=
  match n with
  | O => []
  | S n' => byte_of_Z (v mod 256) :: le_bytes n' (v / 256)
  end.

(** A reader is a function of the bytes not yet consumed. *)
Definition Reader (A : Type) : Type := bytes -> result (A * bytes).

Definition ret {A} (a : A) : Reader A := fun s => Ok (a, s).
Definition raise {A} (e : exn) : Reader A := fun _ => Err e.
Definition bind {A B} (m : Reader A) (k : A -> Reader B) : Reader B :=
  fun s => match m s with
           | Ok (a, s') => k a s'
           | Err e => Err e
           end.
Definition lift {A} (r : result A) : Reader A :=
  fun s => match r with
           | Ok a => Ok (a, s)
           | Err e => Err e
           end.

End Py.
Export Py.

Declare Scope result_scope.
Delimit Scope result_scope with result.
Notation "x <- r ;; k" := (rbind r (fun x => k))
  (at level 61, r at next level, right associativity) : result_scope.
Notation "' pat <- r ;; k" := (rbind r (fun x => match x with pat => k end))
  (at level 61, pat pattern, r at next level, right associativity) : result_scope.

Declare Scope reader_scope.
Delimit Scope reader_scope with reader.
Notation "x <- m ;; k" := (bind m (fun x => k))
  (at level 61, m at next level, right associativity) : reader_scope.
Notation "' pat <- m ;; k" := (bind m (fun x => match x with pat => k end))
  (at level 61, pat pattern, m at next level, right associativity) : reader_scope.

(* ================================================================= *)
(** ** Python [str] and the UTF-8 codec

    A [str] is the list of its code points.  [bytes.decode('utf-8',
    errors='replace')] turns every maximal ill-formed prefix into one
    U+FFFD; the strict decoder fails on the first of them. *)

Module Utf8.

Definition str := list Z.

Definition REPLACEMENT : Z := 0xFFFD.

Definition is_cont (z : Z) : bool := (0x80 <=? z) && (z <=? 0xBF).

(** Second byte of a three-byte form: E0 needs A0..BF, ED needs 80..9F. *)
Definition second3_ok (b0 v1 : Z) : bool :=
  is_cont v1 && (if b0 =? 0xE0 then 0xA0 <=? v1 else true)
             && (if b0 =? 0xED then v1 <=? 0x9F else true).

(** Second byte of a four-byte form: F0 needs 90..BF, F4 needs 80..8F. *)
Definition second4_ok (b0 v1 : Z) : bool :=
  is_cont v1 && (if b0 =? 0xF0 then 0x90 <=? v1 else true)
             && (if b0 =? 0xF4 then v1 <=? 0x8F else true).

Inductive step : Type :=
| Char (cp : Z) (rest : bytes)     (* one well-formed sequence *)
| Bad (rest : bytes).              (* one maximal ill-formed prefix *)

Definition next (b0 : Z) (rest : bytes) : step :=
  if b0 <? 0x80 then Char b0 rest
  else if b0 <? 0xC2 then Bad rest
  else if b0 <? 0xE0 then
    match rest with
    | b1 :: r1 =>
        if is_cont (byte_val b1)
        then Char ((b0 - 0xC0) * 64 + (byte_val b1 - 0x80)) r1
        else Bad rest
    | [] => Bad rest
    end
  else if b0 <? 0xF0 then
    match rest with
    | b1 :: r1 =>
        if second3_ok b0 (byte_val b1) then
          match r1 with
          | b2 :: r2 =>
              if is_cont (byte_val b2)
              then Char ((b0 - 0xE0) * 4096 + (byte_val b1 - 0x80) * 64
                         + (byte_val b2 - 0x80)) r2
              else Bad r1
          | [] => Bad r1
          end
        else Bad rest
    | [] => Bad rest
    end
  else if b0 <? 0xF5 then
    match rest with
    | b1 :: r1 =>
        if second4_ok b0 (byte_val b1) then
          match r1 with
          | b2 :: r2 =>
              if is_cont (byte_val b2) then
                match r2 with
                | b3 :: r3 =>
                    if is_cont (byte_val b3)
                    then Char ((b0 - 0xF0) * 262144 + (byte_val b1 - 0x80) * 4096
                               + (byte_val b2 - 0x80) * 64 + (byte_val b3 - 0x80)) r3
                    else Bad r2
                | [] => Bad r2
                end
              else Bad r1
          | [] => Bad r1
          end
        else Bad rest
    | [] => Bad rest
    end
  else Bad rest.

Fixpoint decode_replace_fuel (fuel : nat) (data : bytes) : str :=
  match fuel, data with
  | S fuel', b0 :: rest =>
      match next (byte_val b0) rest with
      | Char cp rest' => cp :: decode_replace_fuel fuel' rest'
      | Bad rest' => REPLACEMENT :: decode_replace_fuel fuel' rest'
      end
  | _, _ => []
  end.

(** [data.decode('utf-8', errors='replace')] *)
Definition decode_replace (data : bytes) : str :=
  decode_replace_fuel (List.length data) data.

Fixpoint decode_strict_fuel (fuel : nat) (data : bytes) : option str :=
  match fuel, data with
  | S fuel', b0 :: rest =>
      match next (byte_val b0) rest with
      | Char cp rest' => option_map (cons cp) (decode_strict_fuel fuel' rest')
      | Bad _ => None
      end
  | _, _ => Some []
  end.

(** [data.decode('utf-8')]: [None] stands for UnicodeDecodeError. *)
Definition decode_strict (data : bytes) : option str :=
  decode_strict_fuel (List.length data) data.

(** [data.decode('latin-1')] *)
Definition decode_latin1 (data : bytes) : str := map byte_val data.

(** The UTF-8 form of one code point; a surrogate cannot be encoded. *)
Definition encode_char (cp : Z) : result bytes :=
  if cp <? 0 then Err UnicodeEncodeError
  else if cp <? 0x80 then Ok [byte_of_Z cp]
  else if cp <? 0x800 then
    Ok [byte_of_Z (0xC0 + cp / 64); byte_of_Z (0x80 + cp mod 64)]
  else if cp <? 0x10000 then
    if (0xD800 <=? cp) && (cp <=? 0xDFFF) then Err UnicodeEncodeError
    else Ok [byte_of_Z (0xE0 + cp / 4096); byte_of_Z (0x80 + (cp / 64) mod 64);
             byte_of_Z (0x80 + cp mod 64)]
  else if cp <? 0x110000 then
    Ok [byte_of_Z (0xF0 + cp / 262144); byte_of_Z (0x80 + (cp / 4096) mod 64);
        byte_of_Z (0x80 + (cp / 64) mod 64); byte_of_Z (0x80 + cp mod 64)]
  else Err UnicodeEncodeError.

(** [s.encode('utf-8')] *)
Fixpoint encode (s : str) : result bytes :=
  match s with
  | [] => Ok []
  | cp :: s' =>
      (h <- encode_char cp ;;
       t <- encode s' ;;
       Ok (h ++ t))%result
  end.

End Utf8.
Abbreviation str := Utf8.str.

(* ================================================================= *)
(** ** [luaparse.py]: the Lua 5.4 data model *)

Module Lua54.

Definition LUA_SIGNATURE : bytes := bytes_of [0x1b; 0x4c; 0x75; 0x61].
Definition LUAC_VERSION : Z := 0x54.
Definition LUAC_FORMAT : Z := 0.
Definition LUAC_DATA : bytes := bytes_of [0x19; 0x93; 0x0d; 0x0a; 0x1a; 0x0a].
Definition LUAC_INT : Z := 0x5678.
(** 370.5 as an IEEE-754 binary64 bit pattern; a Python float is carried
    by its 64 bits throughout. *)
Definition LUAC_NUM : Z := 0x4077280000000000.

(** [LuaType]: the base types and the variant tags used by the codec. *)
Definition LUA_TNIL : Z := 0.
Definition LUA_TBOOLEAN : Z := 1.
Definition LUA_TNUMBER : Z := 3.
Definition LUA_TSTRING : Z := 4.
Definition VNIL : Z := 0.
Definition VFALSE : Z := 17.
Definition VTRUE : Z := 33.
Definition VNUMFLT : Z := 19.
Definition VNUMINT : Z := 35.
Definition VSHRSTR : Z := 20.
Definition VLNGSTR : Z := 36.

Inductive OpMode : Type := iABC | iABx | iAsBx | iAx | isJ.

(** A constant as the reader stores it: [None], [False]/[True], a float,
    an int or a str. *)
Inductive Const : Type :=
| CNone
| CBool (b : bool)
| CFloat (bits : Z)
| CInt (i : Z)
| CStr (s : str).

Record Upvalue : Type := mkUpvalue {
  instack : Z;
  idx : Z;
  kind : Z;
  uv_ori : option bytes
}.

Record LocVar : Type := mkLocVar {
  varname : option str;
  startpc : Z;
  endpc : Z;
  lv_ori : option bytes
}.

Record AbsLineInfo : Type := mkAbsLineInfo {
  pc : Z;
  line : Z;
  al_ori : option bytes
}.

(** [Proto.ori] is a dict from field name to captured bytes; insertion
    order is kept, so it is an association list. *)
Definition ori_dict := list (string * bytes).

Inductive Proto : Type := mkProto {
  source : option str;
  linedefined : Z;
  lastlinedefined : Z;
  numparams : Z;
  is_vararg : Z;
  maxstacksize : Z;
  code : list Z;
  constants : list Const;
  upvalues : list Upvalue;
  protos : list Proto;
  lineinfo : list Z;
  abslineinfo : list AbsLineInfo;
  locvars : list LocVar;
  upvalue_names : list (option str);
  ori : ori_dict
}.

Fixpoint dict_get {V} (k : string) (d : list (string * V)) : option V :=
  match d with
  | [] => None
  | (k', v) :: d' => if String.eqb k k' then Some v else dict_get k d'
  end.

(** [d[k] = v]: an existing key keeps its place, a new key goes last. *)
Fixpoint dict_set {V} (k : string) (v : V) (d : list (string * V))
  : list (string * V) :=
  match d with
  | [] => [(k, v)]
  | (k', v') :: d' =>
      if String.eqb k k' then (k', v) :: d' else (k', v') :: dict_set k v d'
  end.

(** [Proto.__post_init__]: every field name, each with empty bytes. *)
Definition ori_init : ori_dict :=
  [("source", []); ("linedefined", []); ("lastlinedefined", []);
   ("numparams", []); ("is_vararg", []); ("maxstacksize", []);
   ("code", []); ("constants", []); ("upvalues", []); ("protos", []);
   ("lineinfo", []); ("abslineinfo", []); ("locvars", []);
   ("upvalue_names", [])]%string.

(** Field assignments [proto.f = v]. *)
Definition set_source v (p : Proto) : Proto :=
  mkProto v (linedefined p) (lastlinedefined p) (numparams p) (is_vararg p)
    (maxstacksize p) (code p) (constants p) (upvalues p) (protos p)
    (lineinfo p) (abslineinfo p) (locvars p) (upvalue_names p) (ori p).
Definition set_header ld lld np va ms (p : Proto) : Proto :=
  mkProto (source p) ld lld np va ms (code p) (constants p) (upvalues p)
    (protos p) (lineinfo p) (abslineinfo p) (locvars p) (upvalue_names p) (ori p).
Definition set_code v (p : Proto) : Proto :=
  mkProto (source p) (linedefined p) (lastlinedefined p) (numparams p)
    (is_vararg p) (maxstacksize p) v (constants p) (upvalues p) (protos p)
    (lineinfo p) (abslineinfo p) (locvars p) (upvalue_names p) (ori p).
Definition set_constants v (p : Proto) : Proto :=
  mkProto (source p) (linedefined p) (lastlinedefined p) (numparams p)
    (is_vararg p) (maxstacksize p) (code p) v (upvalues p) (protos p)
    (lineinfo p) (abslineinfo p) (locvars p) (upvalue_names p) (ori p).
Definition set_upvalues v (p : Proto) : Proto :=
  mkProto (source p) (linedefined p) (lastlinedefined p) (numparams p)
    (is_vararg p) (maxstacksize p) (code p) (constants p) v (protos p)
    (lineinfo p) (abslineinfo p) (locvars p) (upvalue_names p) (ori p).
Definition set_protos v (p : Proto) : Proto :=
  mkProto (source p) (linedefined p) (lastlinedefined p) (numparams p)
    (is_vararg p) (maxstacksize p) (code p) (constants p) (upvalues p) v
    (lineinfo p) (abslineinfo p) (locvars p) (upvalue_names p) (ori p).
Definition set_debug li ali lv un (p : Proto) : Proto :=
  mkProto (source p) (linedefined p) (lastlinedefined p) (numparams p)
    (is_vararg p) (maxstacksize p) (code p) (constants p) (upvalues p)
    (protos p) li ali lv un (ori p).
Definition set_ori (k : string) (v : bytes) (p : Proto) : Proto :=
  mkProto (source p) (linedefined p) (lastlinedefined p) (numparams p)
    (is_vararg p) (maxstacksize p) (code p) (constants p) (upvalues p)
    (protos p) (lineinfo p) (abslineinfo p) (locvars p) (upvalue_names p)
    (dict_set k v (ori p)).

(* ----------------------------------------------------------------- *)
(** *** Reading from the file object

    [self.file] is a binary file opened on the whole input, so the
    state of a reader is what is left of it.  [print] calls write to the
    terminal only and are left out, except for the warnings of the
    opcode comparison. *)

Local Open Scope reader_scope.

(** [sys.maxsize]: the largest size [self.file.read] converts. *)
Definition maxsize : Z := 2 ^ 63 - 1.

(** [self.file.read(n)]: at most [n] bytes, fewer at the end of the file;
    a negative [n] reads everything that is left, and an [n] above
    [sys.maxsize] is an OverflowError.  The buffer of [n] bytes that
    CPython reserves before it reads is taken to be available: the memory
    of the machine, like its recursion limit, is no part of the model. *)
Definition file_read (n : Z) : Reader bytes :=
  fun s => if n <? 0 then Ok (s, [])
           else if n >? maxsize then Err OverflowError
           else Ok (firstn (Z.to_nat n) s, skipn (Z.to_nat n) s).

(** [struct.unpack(fmt, raw)] for the formats used: the length must match. *)
Definition unpack_I (raw : bytes) : result Z :=
  if (List.length raw =? 4)%nat then Ok (le_value raw) else Err StructError.
Definition unpack_q (raw : bytes) : result Z :=
  if (List.length raw =? 8)%nat
  then Ok (if le_value raw <? 2 ^ 63 then le_value raw else le_value raw - 2 ^ 64)
  else Err StructError.
Definition unpack_d (raw : bytes) : result Z :=
  if (List.length raw =? 8)%nat then Ok (le_value raw) else Err StructError.

Definition read_byte : Reader Z :=
  raw <- file_read 1 ;; lift (unpack_B raw).

(** [limit = 1 << (8 * 8 - 7)] *)
Definition limit : Z := Z.shiftl 1 (8 * 8 - 7).

(** The [while True] loop of [read_size]; every round reads one byte, so
    it is a recursion on the bytes left. *)
Fixpoint read_size_loop (x : Z) (s : bytes) : result (Z * bytes) :=
  match s with
  | [] => Err StructError
  | b0 :: s' =>
      let b := byte_val b0 in
      if x >=? limit then Err ValueError_overflow
      else
        let x' := Z.lor (Z.shiftl x 7) (Z.land b 0x7f) in
        if negb (Z.land b 0x80 =? 0) then Ok (x', s')
        else read_size_loop x' s'
  end.

Definition read_size : Reader Z := read_size_loop 0.

Definition read_int : Reader Z := read_size.

Definition read_integer : Reader Z :=
  raw <- file_read 8 ;; lift (unpack_q raw).

Definition read_number : Reader Z :=
  raw <- file_read 8 ;; lift (unpack_d raw).

Definition read_string : Reader (option str) :=
  size <- read_size ;;
  if size =? 0 then ret None
  else
    let size := size - 1 in
    data <- file_read size ;;
    ret (Some (Utf8.decode_replace data)).

Definition read_byte_with_raw : Reader (Z * bytes) :=
  raw_data <- file_read 1 ;;
  v <- lift (unpack_B raw_data) ;;
  ret (v, raw_data).

Fixpoint read_size_with_raw_loop (x : Z) (raw_data : bytes) (s : bytes)
  : result ((Z * bytes) * bytes) :=
  match s with
  | [] => Err StructError
  | b0 :: s' =>
      let raw_data := raw_data ++ [b0] in
      let b := byte_val b0 in
      if x >=? limit then Err ValueError_overflow
      else
        let x' := Z.lor (Z.shiftl x 7) (Z.land b 0x7f) in
        if negb (Z.land b 0x80 =? 0) then Ok ((x', raw_data), s')
        else read_size_with_raw_loop x' raw_data s'
  end.

Definition read_size_with_raw : Reader (Z * bytes) :=
  read_size_with_raw_loop 0 [].

Definition read_integer_with_raw : Reader (Z * bytes) :=
  raw_data <- file_read 8 ;;
  v <- lift (unpack_q raw_data) ;;
  ret (v, raw_data).

Definition read_number_with_raw : Reader (Z * bytes) :=
  raw_data <- file_read 8 ;;
  v <- lift (unpack_d raw_data) ;;
  ret (v, raw_data).

Definition read_string_with_raw : Reader (option str * bytes) :=
  '(size, size_raw) <- read_size_with_raw ;;
  if size =? 0 then ret (None, size_raw)
  else
    let size := size - 1 in
    string_data <- file_read size ;;
    let total_raw := size_raw ++ string_data in
    ret (Some (Utf8.decode_replace string_data), total_raw).

(** [for i in range(n)]: the body reads one element and its bytes; the
    elements are appended to the list, the bytes to the running span. *)
Fixpoint read_loop {A} (n : nat) (body : Reader (A * bytes))
  (acc : list A) (raw : bytes) : Reader (list A * bytes) :=
  match n with
  | O => ret (acc, raw)
  | S n' =>
      '(a, a_raw) <- body ;;
      read_loop n' body (acc ++ [a]) (raw ++ a_raw)
  end.

Definition range (n : Z) : nat := Z.to_nat n.

Fixpoint bytes_eqb (a b : bytes) : bool :=
  match a, b with
  | [], [] => true
  | x :: a', y :: b' => Byte.eqb x y && bytes_eqb a' b'
  | _, _ => false
  end.

(** [check_header]: only the signature and the version byte are compared;
    the format byte, the six data bytes, the three size bytes and the two
    test values are read (and printed) but never compared. *)
Definition check_header : Reader unit :=
  signature <- file_read 4 ;;
  if negb (bytes_eqb signature LUA_SIGNATURE) then raise ValueError_signature
  else
    version <- read_byte ;;
    if negb (version =? LUAC_VERSION) then raise (ValueError_version version)
    else
      format_byte <- read_byte ;;
      data <- file_read 6 ;;
      inst_size <- read_byte ;;
      int_size <- read_byte ;;
      num_size <- read_byte ;;
      test_int <- read_integer ;;
      test_num <- read_number ;;
      ret tt.

(** The parser is always built with [_record_raw_data = True] and nothing
    resets it, so the [*_with_raw] branch of every reader is the one
    embedded. *)
Definition read_upvalues (proto : Proto) : Reader Proto :=
  '(n, n_raw) <- read_size_with_raw ;;
  let body :=
    '(instack, instack_raw) <- read_byte_with_raw ;;
    '(idx, idx_raw) <- read_byte_with_raw ;;
    '(kind, kind_raw) <- read_byte_with_raw ;;
    let upvalue_raw := instack_raw ++ idx_raw ++ kind_raw in
    ret (mkUpvalue instack idx kind (Some upvalue_raw), upvalue_raw) in
  '(upvalues, upvalues_raw) <- read_loop (range n) body [] n_raw ;;
  ret (set_ori "upvalues" upvalues_raw (set_upvalues upvalues proto)).

(** One constant of [read_constants]: the tag byte, then the payload the
    tag selects. *)
Definition read_constant : Reader (Const * bytes) :=
  '(t, t_raw) <- read_byte_with_raw ;;
  let const_raw := t_raw in
  let base_type := Z.land t 0x0F in
  let variant := Z.land (Z.shiftr t 4) 0x0F in
  if (t =? VNIL) || (base_type =? LUA_TNIL) then ret (CNone, const_raw)
  else if t =? VFALSE then ret (CBool false, const_raw)
  else if t =? VTRUE then ret (CBool true, const_raw)
  else if t =? VNUMFLT then
    '(value, value_raw) <- read_number_with_raw ;;
    ret (CFloat value, const_raw ++ value_raw)
  else if t =? VNUMINT then
    '(value, value_raw) <- read_integer_with_raw ;;
    ret (CInt value, const_raw ++ value_raw)
  else if (t =? VSHRSTR) || (t =? VLNGSTR) then
    '(value, value_raw) <- read_string_with_raw ;;
    ret (match value with Some s => CStr s | None => CNone end,
         const_raw ++ value_raw)
  else if base_type =? LUA_TBOOLEAN then
    if variant =? 0 then ret (CBool false, const_raw)
    else ret (CBool true, const_raw)
  else if base_type =? LUA_TNUMBER then
    if variant =? 0 then
      '(value, value_raw) <- read_number_with_raw ;;
      ret (CFloat value, const_raw ++ value_raw)
    else
      '(value, value_raw) <- read_integer_with_raw ;;
      ret (CInt value, const_raw ++ value_raw)
  else if base_type =? LUA_TSTRING then
    '(value, value_raw) <- read_string_with_raw ;;
    ret (match value with Some s => CStr s | None => CNone end,
         const_raw ++ value_raw)
  else raise (ValueError_constant t).

Definition read_constants (proto : Proto) : Reader Proto :=
  '(n, n_raw) <- read_size_with_raw ;;
  '(constants, constants_raw) <- read_loop (range n) read_constant [] n_raw ;;
  ret (set_ori "constants" constants_raw (set_constants constants proto)).

Definition read_code (proto : Proto) : Reader Proto :=
  '(n, n_raw) <- read_size_with_raw ;;
  let body :=
    inst_raw <- file_read 4 ;;
    inst <- lift (unpack_I inst_raw) ;;
    ret (inst, inst_raw) in
  '(code, code_raw) <- read_loop (range n) body [] n_raw ;;
  ret (set_ori "code" code_raw (set_code code proto)).

(** [b[i:j]] for [0 <= i]. *)
Definition slice (b : bytes) (i j : nat) : bytes := firstn (j - i) (skipn i b).

Definition read_debug (proto : Proto) : Reader Proto :=
  let debug_raw := [] in
  '(n, n_raw) <- read_size_with_raw ;;
  let debug_raw := debug_raw ++ n_raw in
  '(lineinfo, debug_raw) <- read_loop (range n) read_byte_with_raw [] debug_raw ;;
  '(n, n_raw) <- read_size_with_raw ;;
  let debug_raw := debug_raw ++ n_raw in
  let abs_body :=
    '(pc, pc_raw) <- read_size_with_raw ;;
    '(line, line_raw) <- read_size_with_raw ;;
    let abs_raw := pc_raw ++ line_raw in
    ret (mkAbsLineInfo pc line (Some abs_raw), abs_raw) in
  '(abslineinfo, debug_raw) <- read_loop (range n) abs_body [] debug_raw ;;
  '(n, n_raw) <- read_size_with_raw ;;
  let debug_raw := debug_raw ++ n_raw in
  let loc_body :=
    '(varname, varname_raw) <- read_string_with_raw ;;
    '(startpc, startpc_raw) <- read_size_with_raw ;;
    '(endpc, endpc_raw) <- read_size_with_raw ;;
    let locvar_raw := varname_raw ++ startpc_raw ++ endpc_raw in
    ret (mkLocVar varname startpc endpc (Some locvar_raw), locvar_raw) in
  '(locvars, debug_raw) <- read_loop (range n) loc_body [] debug_raw ;;
  '(n, n_raw) <- read_size_with_raw ;;
  let debug_raw := debug_raw ++ n_raw in
  '(upvalue_names, debug_raw) <-
     read_loop (range n) read_string_with_raw [] debug_raw ;;
  let len := List.length debug_raw in
  let proto := set_debug lineinfo abslineinfo locvars upvalue_names proto in
  let proto := set_ori "lineinfo" (slice debug_raw 0 (len / 4)) proto in
  let proto := set_ori "abslineinfo" (slice debug_raw (len / 4) (len / 2)) proto in
  let proto := set_ori "locvars" (slice debug_raw (len / 2) (3 * len / 4)) proto in
  let proto := set_ori "upvalue_names" (skipn (3 * len / 4) debug_raw) proto in
  ret proto.

(** [read_protos]: the recursive call is a parameter; the captured span
    is the count alone. *)
Definition read_protos (read_proto : option str -> Reader Proto) (proto : Proto)
  : Reader Proto :=
  '(n, n_raw) <- read_size_with_raw ;;
  let body :=
    subproto <- read_proto (source proto) ;;
    ret (subproto, []) in
  '(protos, protos_raw) <- read_loop (range n) body [] n_raw ;;
  ret (set_ori "protos" protos_raw (set_protos protos proto)).

(** The [Proto(...)] built at the start of [read_proto]. *)
Definition empty_proto : Proto :=
  mkProto None 0 0 0 0 0 [] [] [] [] [] [] [] [] ori_init.

(** [read_proto]; [depth] bounds the nesting of prototypes ([parse]
    supplies more than any input can use). *)
Fixpoint read_proto (depth : nat) (parent_source : option str) : Reader Proto :=
  match depth with
  | O => raise RecursionError
  | S depth' =>
      let proto := empty_proto in
      '(src, source_raw) <- read_string_with_raw ;;
      let proto := set_ori "source" source_raw (set_source src proto) in
      let proto :=
        match source proto with
        | None => set_source parent_source proto
        | Some _ => proto
        end in
      '(linedefined, linedefined_raw) <- read_size_with_raw ;;
      '(lastlinedefined, lastlinedefined_raw) <- read_size_with_raw ;;
      '(numparams, numparams_raw) <- read_byte_with_raw ;;
      '(is_vararg, is_vararg_raw) <- read_byte_with_raw ;;
      '(maxstacksize, maxstacksize_raw) <- read_byte_with_raw ;;
      let proto :=
        set_header linedefined lastlinedefined numparams is_vararg maxstacksize
          proto in
      let proto := set_ori "linedefined" linedefined_raw proto in
      let proto := set_ori "lastlinedefined" lastlinedefined_raw proto in
      let proto := set_ori "numparams" numparams_raw proto in
      let proto := set_ori "is_vararg" is_vararg_raw proto in
      let proto := set_ori "maxstacksize" maxstacksize_raw proto in
      proto <- read_code proto ;;
      proto <- read_constants proto ;;
      proto <- read_upvalues proto ;;
      proto <- read_protos (read_proto depth') proto ;;
      proto <- read_debug proto ;;
      ret proto
  end.

(** [parse] on a file holding [data]: header, the upvalue-count byte,
    the main prototype.  Every level of nesting consumes at least one
    byte, so [S (length data)] levels are never exhausted. *)
Definition parse (data : bytes) : result Proto :=
  match
    (_ <- check_header ;;
     upval_count <- read_byte ;;
     read_proto (S (List.length data)) (Some [])) data
  with
  | Ok (main_proto, _) => Ok main_proto
  | Err e => Err e
  end.

(* ----------------------------------------------------------------- *)
(** *** Writing the file *)

Definition pack_I (v : Z) : result bytes :=
  if (0 <=? v) && (v <? 2 ^ 32) then Ok (le_bytes 4 v) else Err StructError.
Definition pack_q (v : Z) : result bytes :=
  if (- 2 ^ 63 <=? v) && (v <? 2 ^ 63)
  then Ok (le_bytes 8 (v mod 2 ^ 64)) else Err StructError.
Definition pack_d (bits : Z) : result bytes := Ok (le_bytes 8 bits).

(** [f(x)] for every [x] of a list, the outputs written one after the other. *)
Definition write_each {A} (f : A -> result bytes) : list A -> result bytes :=
  fix go (l : list A) : result bytes :=
    match l with
    | [] => Ok []
    | a :: l' => (h <- f a ;; t <- go l' ;; Ok (h ++ t))%result
    end.

Definition _write_header : result bytes :=
  (v <- pack_B LUAC_VERSION ;;
   f <- pack_B LUAC_FORMAT ;;
   s1 <- pack_B 4 ;;
   s2 <- pack_B 8 ;;
   s3 <- pack_B 8 ;;
   ti <- pack_q LUAC_INT ;;
   tn <- pack_d LUAC_NUM ;;
   Ok (LUA_SIGNATURE ++ v ++ f ++ LUAC_DATA ++ s1 ++ s2 ++ s3 ++ ti ++ tn))%result.

(** The [while value > 0] loop of [_write_size]: the 7-bit groups, lowest
    first.  [value] loses seven bits per round, so its bit length bounds
    the rounds. *)
Fixpoint size_groups (rounds : nat) (value : Z) : list Z :=
  match rounds with
  | O => []
  | S rounds' =>
      if value >? 0
      then Z.land value 0x7F :: size_groups rounds' (Z.shiftr value 7)
      else []
  end.

(** The [for i, byte_val in enumerate(reversed(bytes_list))] loop: only
    the last byte gets [0x80]. *)
Fixpoint mark_last (l : list Z) : list Z :=
  match l with
  | [] => []
  | [byte_val] => [Z.lor byte_val 0x80]
  | byte_val :: l' => byte_val :: mark_last l'
  end.

(** [_write_size]; every packed value is below 256, so [struct.pack]
    cannot fail here. *)
Definition _write_size (value : Z) : bytes :=
  if value =? 0 then [byte_of_Z 0x80]
  else
    let bytes_list := size_groups (S (Z.to_nat (Z.log2 value))) value in
    bytes_of (mark_last (rev bytes_list)).

Definition _write_string (s : option str) : result bytes :=
  match s with
  | None => Ok (_write_size 0)
  | Some s =>
      (data <- Utf8.encode s ;;
       Ok (_write_size (Z.of_nat (List.length data) + 1) ++ data))%result
  end.

(** A dict is truthy when it is not empty. *)
Definition truthy {A} (d : list A) : bool :=
  match d with [] => false | _ => true end.

Definition _write_constant (const : Const) : result bytes :=
  match const with
  | CNone => pack_B VNIL
  | CBool false => pack_B VFALSE
  | CBool true => pack_B VTRUE
  | CFloat bits =>
      (t <- pack_B VNUMFLT ;; v <- pack_d bits ;; Ok (t ++ v))%result
  | CInt i =>
      (t <- pack_B VNUMINT ;; v <- pack_q i ;; Ok (t ++ v))%result
  | CStr s =>
      (t <- (if (Z.of_nat (List.length s) <=? 40) then pack_B VSHRSTR
             else pack_B VLNGSTR) ;;
       v <- _write_string (Some s) ;;
       Ok (t ++ v))%result
  end.

Definition _write_constants (proto : Proto) : result bytes :=
  (body <- write_each _write_constant (constants proto) ;;
   Ok (_write_size (Z.of_nat (List.length (constants proto))) ++ body))%result.

Definition _write_upvalue (upval : Upvalue) : result bytes :=
  (a <- pack_B (instack upval) ;;
   b <- pack_B (idx upval) ;;
   c <- pack_B (kind upval) ;;
   Ok (a ++ b ++ c))%result.

Definition _write_upvalues (proto : Proto) : result bytes :=
  (body <- write_each _write_upvalue (upvalues proto) ;;
   Ok (_write_size (Z.of_nat (List.length (upvalues proto))) ++ body))%result.

Definition _write_debug (proto : Proto) : result bytes :=
  (li <- write_each pack_B (lineinfo proto) ;;
   ali <- write_each
            (fun absline => Ok (_write_size (pc absline) ++ _write_size (line absline)))
            (abslineinfo proto) ;;
   lv <- write_each
           (fun locvar =>
              n <- _write_string (varname locvar) ;;
              Ok (n ++ _write_size (startpc locvar) ++ _write_size (endpc locvar)))
           (locvars proto) ;;
   un <- write_each _write_string (upvalue_names proto) ;;
   Ok (_write_size (Z.of_nat (List.length (lineinfo proto))) ++ li
       ++ _write_size (Z.of_nat (List.length (abslineinfo proto))) ++ ali
       ++ _write_size (Z.of_nat (List.length (locvars proto))) ++ lv
       ++ _write_size (Z.of_nat (List.length (upvalue_names proto))) ++ un))%result.

(** [_write_protos], the recursive call being a parameter. *)
Definition _write_protos (write_proto : Proto -> bool -> result bytes)
  (proto : Proto) : result bytes :=
  (body <- write_each (fun sub_proto => write_proto sub_proto false) (protos proto) ;;
   Ok (_write_size (Z.of_nat (List.length (protos proto))) ++ body))%result.

Fixpoint _write_proto (proto : Proto) (is_main_proto : bool) : result bytes :=
  (src <-
     (if is_main_proto then _write_string (source proto)
      else
        if truthy (ori proto) then
          match dict_get "source" (ori proto) with
          | Some source_raw =>
              if (List.length source_raw <=? 1)%nat then _write_string None
              else _write_string (source proto)
          | None => _write_string None
          end
        else _write_string None) ;;
   np <- pack_B (numparams proto) ;;
   va <- pack_B (is_vararg proto) ;;
   ms <- pack_B (maxstacksize proto) ;;
   cd <-
     (if truthy (ori proto) then
        match dict_get "code" (ori proto) with
        | Some code_raw => Ok code_raw
        | None =>
            insts <- write_each pack_I (code proto) ;;
            Ok (_write_size (Z.of_nat (List.length (code proto))) ++ insts)
        end
      else
        insts <- write_each pack_I (code proto) ;;
        Ok (_write_size (Z.of_nat (List.length (code proto))) ++ insts)) ;;
   ks <- _write_constants proto ;;
   us <- _write_upvalues proto ;;
   ps <- _write_protos _write_proto proto ;;
   db <- _write_debug proto ;;
   Ok (src ++ _write_size (linedefined proto) ++ _write_size (lastlinedefined proto)
       ++ np ++ va ++ ms ++ cd ++ ks ++ us ++ ps ++ db))%result.

(** [_write_luac_file] for a parser whose [main_proto] is [main_proto]. *)
Definition _write_luac_file (main_proto : Proto) : result bytes :=
  (h <- _write_header ;;
   n <- pack_B (Z.of_nat (List.length (upvalues main_proto))) ;;
   p <- _write_proto main_proto true ;;
   Ok (h ++ n ++ p))%result.

(* ----------------------------------------------------------------- *)
(** *** Instruction decoding *)

(** [OPCODE_INFO], indexed by opcode value 0..82. *)
Definition OPCODE_INFO : list (string * OpMode) :=
  [("MOVE", iABC); ("LOADI", iAsBx); ("LOADF", iAsBx); ("LOADK", iABx);
   ("LOADKX", iABx); ("LOADFALSE", iABC); ("LFALSESKIP", iABC);
   ("LOADTRUE", iABC); ("LOADNIL", iABC); ("GETUPVAL", iABC);
   ("SETUPVAL", iABC); ("GETTABUP", iABC); ("GETTABLE", iABC);
   ("GETI", iABC); ("GETFIELD", iABC); ("SETTABUP", iABC);
   ("SETTABLE", iABC); ("SETI", iABC); ("SETFIELD", iABC);
   ("NEWTABLE", iABC); ("SELF", iABC); ("ADDI", iABC); ("ADDK", iABC);
   ("SUBK", iABC); ("MULK", iABC); ("MODK", iABC); ("POWK", iABC);
   ("DIVK", iABC); ("IDIVK", iABC); ("BANDK", iABC); ("BORK", iABC);
   ("BXORK", iABC); ("SHRI", iABC); ("SHLI", iABC); ("ADD", iABC);
   ("SUB", iABC); ("MUL", iABC); ("MOD", iABC); ("POW", iABC);
   ("DIV", iABC); ("IDIV", iABC); ("BAND", iABC); ("BOR", iABC);
   ("BXOR", iABC); ("SHL", iABC); ("SHR", iABC); ("MMBIN", iABC);
   ("MMBINI", iABC); ("MMBINK", iABC); ("UNM", iABC); ("BNOT", iABC);
   ("NOT", iABC); ("LEN", iABC); ("CONCAT", iABC); ("CLOSE", iABC);
   ("TBC", iABC); ("JMP", isJ); ("EQ", iABC); ("LT", iABC); ("LE", iABC);
   ("EQK", iABC); ("EQI", iABC); ("LTI", iABC); ("LEI", iABC);
   ("GTI", iABC); ("GEI", iABC); ("TEST", iABC); ("TESTSET", iABC);
   ("CALL", iABC); ("TAILCALL", iABC); ("RETURN", iABC);
   ("RETURN0", iABC); ("RETURN1", iABC); ("FORLOOP", iAsBx);
   ("FORPREP", iAsBx); ("TFORPREP", iAsBx); ("TFORCALL", iABC);
   ("TFORLOOP", iAsBx); ("SETLIST", iABC); ("CLOSURE", iABx);
   ("VARARG", iABC); ("VARARGPREP", iABC); ("EXTRAARG", iAx)]%string.

(** [OPCODE_INFO[opcode]] when [opcode in OPCODE_INFO]. *)
Definition opcode_info (opcode : Z) : option (string * OpMode) :=
  if opcode <? 0 then None else nth_error OPCODE_INFO (Z.to_nat opcode).

(** The values a decoded-instruction dict holds. *)
Inductive DVal : Type :=
| VInt (z : Z)
| VStr (s : string)
| VMode (m : OpMode).

Definition decoded := list (string * DVal).

Definition decode_instruction (inst : Z) : decoded :=
  let opcode := Z.land inst 0x7F in
  let result :=
    [("raw", VInt inst); ("opcode", VInt opcode); ("name", VStr "UNKNOWN")]%string in
  match opcode_info opcode with
  | Some (name, mode) =>
      let result := dict_set "name" (VStr name) result in
      let result := dict_set "mode" (VMode mode) result in
      match mode with
      | iABC =>
          let result := dict_set "A" (VInt (Z.land (Z.shiftr inst 7) 0xFF)) result in
          let result := dict_set "B" (VInt (Z.land (Z.shiftr inst 16) 0xFF)) result in
          let result := dict_set "k" (VInt (Z.land (Z.shiftr inst 15) 0x1)) result in
          dict_set "C" (VInt (Z.land (Z.shiftr inst 24) 0xFF)) result
      | iABx =>
          let result := dict_set "A" (VInt (Z.land (Z.shiftr inst 7) 0xFF)) result in
          dict_set "Bx" (VInt (Z.land (Z.shiftr inst 15) 0x1FFFF)) result
      | iAsBx =>
          let result := dict_set "A" (VInt (Z.land (Z.shiftr inst 7) 0xFF)) result in
          dict_set "sBx" (VInt (Z.land (Z.shiftr inst 15) 0x1FFFF - 0xFFFF)) result
      | iAx =>
          dict_set "Ax" (VInt (Z.land (Z.shiftr inst 7) 0x1FFFFFF)) result
      | isJ =>
          dict_set "sJ" (VInt (Z.land (Z.shiftr inst 7) 0x1FFFFFF - 0xFFFFFF)) result
      end
  | None => result
  end.

(** [d['opcode']] of a decoded instruction (the key is always there). *)
Definition opcode_of (d : decoded) : Z :=
  match dict_get "opcode" d with
  | Some (VInt z) => z
  | _ => 0
  end.

(* ----------------------------------------------------------------- *)
(** *** Opcode comparison *)

(** [_extract_all_instructions]: the prototype's own code, then every
    child's, in order. *)
Fixpoint _extract_all_instructions (proto : Proto) : list Z :=
  let instructions := [] in
  let instructions := instructions ++ code proto in
  fold_left (fun instructions sub_proto =>
               instructions ++ _extract_all_instructions sub_proto)
            (protos proto) instructions.

(** An int-keyed dict in insertion order. *)
Definition mapping := list (Z * Z).

Fixpoint map_get (k : Z) (m : mapping) : option Z :=
  match m with
  | [] => None
  | (k', v) :: m' => if k =? k' then Some v else map_get k m'
  end.

(** The warning printed for an inconsistent pair: the standard opcode,
    the value already recorded, the new value. *)
Definition warning : Type := (Z * Z * Z)%type.

(** One round of the [for std_inst, shuf_inst in zip(...)] loop; the
    state is the dict and the warnings printed so far. *)
Definition analyze_step (st : mapping * list warning) (pair : Z * Z)
  : mapping * list warning :=
  let '(opcode_mapping, printed) := st in
  let '(std_inst, shuf_inst) := pair in
  let std_decoded := decode_instruction std_inst in
  let shuf_decoded := decode_instruction shuf_inst in
  let std_opcode := opcode_of std_decoded in
  let shuf_opcode := opcode_of shuf_decoded in
  match map_get std_opcode opcode_mapping with
  | Some recorded =>
      if negb (recorded =? shuf_opcode)
      then (opcode_mapping, printed ++ [(std_opcode, recorded, shuf_opcode)])
      else (opcode_mapping, printed)
  | None => (opcode_mapping ++ [(std_opcode, shuf_opcode)], printed)
  end.

Definition _analyze_opcode_mapping (standard_instructions shuffled_instructions : list Z)
  : mapping * list warning :=
  fold_left analyze_step (combine standard_instructions shuffled_instructions)
            ([], []).

(** [compare_opcodes] on the contents of the two files: the mapping and
    the warnings printed on the way. *)
Definition compare_opcodes (standard_file shuffled_file : bytes)
  : result (mapping * list warning) :=
  (standard_proto <- parse standard_file ;;
   shuffled_proto <- parse shuffled_file ;;
   let standard_instructions := _extract_all_instructions standard_proto in
   let shuffled_instructions := _extract_all_instructions shuffled_proto in
   if negb (List.length standard_instructions =? List.length shuffled_instructions)%nat
   then Err ValueError_count_mismatch
   else Ok (_analyze_opcode_mapping standard_instructions shuffled_instructions))%result.

(* ----------------------------------------------------------------- *)
(** *** The XOR transform of the instruction stream *)

(** The two attributes of the parser the transform looks at. *)
Record Cipher : Type := mkCipher {
  encryption_key : option bytes;      (* None until set_encryption_key *)
  encrypt_mode : bool
}.

(** [LuacParser.__init__] *)
Definition cipher_init : Cipher := mkCipher None false.

Definition set_encryption_key (key : bytes) (c : Cipher) : Cipher :=
  mkCipher (Some key) true.

(** [not self.encryption_key]: [None] or empty bytes. *)
Definition key_missing (c : Cipher) : bool :=
  match encryption_key c with
  | None => true
  | Some key => negb (truthy key)
  end.

(** [range(0, n, 4)] *)
Definition range4 (n : nat) : list nat :=
  map (fun i => (4 * i)%nat) (seq 0 ((n + 3) / 4)).

(** The body shared by [encrypt_code_data] and [decrypt_code_data]: the
    byte at [inst_idx + byte_idx] XOR the key byte at the same offset
    modulo the key length; the inner loop breaks at the end of the data.
    The adjustment of an instruction's first byte is commented out in
    the source. *)
Definition xor_group (key code_data : bytes) (inst_idx : nat) : bytes :=
  let key_len := List.length key in
  (fix inner (byte_idxs : list nat) : bytes :=
     match byte_idxs with
     | [] => []
     | byte_idx :: rest =>
         if (List.length code_data <=? inst_idx + byte_idx)%nat then []
         else
           let byte := byte_val (nth (inst_idx + byte_idx) code_data x00) in
           let key_byte :=
             byte_val (nth ((inst_idx + byte_idx) mod key_len) key x00) in
           byte_of_Z (Z.lxor byte key_byte) :: inner rest
     end) [0; 1; 2; 3]%nat.

Definition encrypt_code_data (c : Cipher) (code_data : bytes) : result bytes :=
  match encryption_key c with
  | None => Err ValueError_no_key
  | Some key =>
      if (List.length key =? 0)%nat then Err ValueError_no_key
      else Ok (flat_map (xor_group key code_data)
                        (range4 (List.length code_data)))
  end.

Definition decrypt_code_data (c : Cipher) (encrypted_data : bytes) : result bytes :=
  match encryption_key c with
  | None => Err ValueError_no_key
  | Some key =>
      if (List.length key =? 0)%nat then Err ValueError_no_key
      else Ok (flat_map (xor_group key encrypted_data)
                        (range4 (List.length encrypted_data)))
  end.

(** The [while temp_pos < len(code_raw)] loop: the size prefix up to and
    including the first byte with the top bit set, and what follows. *)
Fixpoint split_size (code_raw : bytes) : bytes * bytes :=
  match code_raw with
  | [] => ([], [])
  | byte :: rest =>
      if negb (Z.land (byte_val byte) 0x80 =? 0) then ([byte], rest)
      else let '(size_bytes, data) := split_size rest in (byte :: size_bytes, data)
  end.

Definition map_result {A B} (f : A -> result B) : list A -> result (list B) :=
  fix go (l : list A) : result (list B) :=
    match l with
    | [] => Ok []
    | a :: l' => (b <- f a ;; bs <- go l' ;; Ok (b :: bs))%result
    end.

(** [encrypt_proto_code]: the prototype after the in-place update. *)
Fixpoint encrypt_proto_code (c : Cipher) (proto : Proto) : result Proto :=
  if negb (encrypt_mode c) || key_missing c then Ok proto
  else
    (proto1 <-
       (if truthy (ori proto) then
          match dict_get "code" (ori proto) with
          | Some code_raw =>
              let '(size_bytes, actual_code_data) := split_size code_raw in
              encrypted_code <- encrypt_code_data c actual_code_data ;;
              Ok (set_ori "code" (size_bytes ++ encrypted_code) proto)
          | None => Ok proto
          end
        else Ok proto) ;;
     subs <- map_result (encrypt_proto_code c) (protos proto) ;;
     Ok (set_protos subs proto1))%result.

Fixpoint decrypt_proto_code (c : Cipher) (proto : Proto) : result Proto :=
  if negb (encrypt_mode c) || key_missing c then Ok proto
  else
    (proto1 <-
       (if truthy (ori proto) then
          match dict_get "code" (ori proto) with
          | Some code_raw =>
              let '(size_bytes, encrypted_code_data) := split_size code_raw in
              decrypted_code <- decrypt_code_data c encrypted_code_data ;;
              Ok (set_ori "code" (size_bytes ++ decrypted_code) proto)
          | None => Ok proto
          end
        else Ok proto) ;;
     subs <- map_result (decrypt_proto_code c) (protos proto) ;;
     Ok (set_protos subs proto1))%result.

(** [write_encrypted_luac] and [write_decrypted_luac]: the bytes written
    to the output file. *)
Definition write_encrypted_luac (main_proto : option Proto)
  (encryption_key : bytes) : result bytes :=
  let c := set_encryption_key encryption_key cipher_init in
  match main_proto with
  | Some p => (p' <- encrypt_proto_code c p ;; _write_luac_file p')%result
  | None => Err AttributeError
  end.

Definition write_decrypted_luac (main_proto : option Proto)
  (decryption_key : bytes) : result bytes :=
  match main_proto with
  | None => Err ValueError_not_parsed
  | Some p =>
      let c := set_encryption_key decryption_key cipher_init in
      (p' <- decrypt_proto_code c p ;; _write_luac_file p')%result
  end.

End Lua54.


(* ================================================================= *)
(** ** [luajitparse.py]: the LuaJIT reader

    [self.data] never changes and [self.pos] only moves forward, so the
    state of a reader is the part of the data from [self.pos] on:
    [self.pos >= self.size] means that nothing is left. *)

Module LuaJIT.

Local Open Scope reader_scope.

Definition LUAJIT_SIGNATURE : bytes := bytes_of [0x1b; 0x4c; 0x4a].
Definition LUAJIT_VERSION : Z := 1.

Definition BCDUMP_F_BE : Z := 0x01.
Definition BCDUMP_F_STRIP : Z := 0x02.
Definition BCDUMP_F_FFI : Z := 0x04.

Definition BCDUMP_KGC_CHILD : Z := 0.
Definition BCDUMP_KGC_TAB : Z := 1.
Definition BCDUMP_KGC_I64 : Z := 2.
Definition BCDUMP_KGC_U64 : Z := 3.
Definition BCDUMP_KGC_COMPLEX : Z := 4.
Definition BCDUMP_KGC_STR : Z := 5.

Definition BCDUMP_KTAB_NIL : Z := 0.
Definition BCDUMP_KTAB_FALSE : Z := 1.
Definition BCDUMP_KTAB_TRUE : Z := 2.
Definition BCDUMP_KTAB_INT : Z := 3.
Definition BCDUMP_KTAB_NUM : Z := 4.
Definition BCDUMP_KTAB_STR : Z := 5.

Definition VARNAME_END : Z := 0.
Definition VARNAME_MAX : Z := 7.

(** [struct.unpack('<d', struct.pack('<Q', bits))[0]]: the float of a
    64-bit pattern, carried by its bits; [struct.pack] raises
    [struct.error] for a value that needs more than 64 bits. *)
Definition float_of_bits (bits : Z) : result Z :=
  if (0 <=? bits) && (bits <? 2 ^ 64) then Ok bits else Err StructError.

(** A table item: a str, an int, a float (its 64 bits), True, False, None. *)
Inductive TabItem : Type :=
| TStr (s : str)
| TInt (v : Z)
| TNum (bits : Z)
| TTrue
| TFalse
| TNil.

Record Table : Type := mkTable {
  array_items : list TabItem;
  hash_items : list (TabItem * TabItem)
}.

(** The tagged tuples of [constants_gc]. *)
Inductive KGC : Type :=
| K_string (s : str)
| K_table (t : Table)
| K_child_ref
| K_i64 (v : Z)
| K_u64 (v : Z)
| K_complex (real imag : Z).

(** A numeric constant: a float (its 64 bits) or an int. *)
Inductive KNum : Type :=
| KFloat (bits : Z)
| KInt (v : Z).

Record Proto : Type := mkProto {
  size : Z;
  flags : Z;
  numparams : Z;
  framesize : Z;
  numuv : Z;
  numkgc : Z;
  numkn : Z;
  numbc : Z;
  debuginfo_size : Z;
  firstline : Z;
  numline : Z;
  bytecode : list Z;
  uv_data : list Z;
  constants_gc : list KGC;
  constants_num : list KNum;
  lineinfo : list Z;
  uvnames : list str;
  varnames : list str
}.

Record Header : Type := mkHeader {
  signature : bytes;
  version : Z;
  h_flags : Z;
  is_big_endian : bool;
  is_stripped : bool;
  has_ffi : bool;
  source_name : str
}.

Definition read_byte : Reader Z :=
  fun s => match s with
           | [] => Err Exception_bounds
           | b :: s' => Ok (byte_val b, s')
           end.

(** [self.data[self.pos:self.pos + n]] after the bounds check, and the
    move of [self.pos]. *)
Definition take (n : nat) : Reader bytes :=
  fun s => if (List.length s <? n)%nat then Err Exception_bounds
           else Ok (firstn n s, skipn n s).

Definition read_uint16 : Reader Z :=
  raw <- take 2 ;; ret (le_value raw).

Definition read_uint32 : Reader Z :=
  raw <- take 4 ;; ret (le_value raw).

(** The [while True] loop of [read_uleb128]; one byte per round. *)
Fixpoint read_uleb128_loop (res shift : Z) (s : bytes) : result (Z * bytes) :=
  match s with
  | [] => Err Exception_bounds
  | b :: s' =>
      let byte := byte_val b in
      let res := Z.lor res (Z.shiftl (Z.land byte 0x7F) shift) in
      if Z.land byte 0x80 =? 0 then Ok (res, s')
      else
        let shift := shift + 7 in
        if shift >=? 35 then Err Exception_uleb_too_long
        else read_uleb128_loop res shift s'
  end.

Definition read_uleb128 : Reader Z := read_uleb128_loop 0 0.

(** The inner [while True] loop of [read_uleb128_33]; it stops without an
    error once [shift] reaches 32. *)
Fixpoint read_uleb128_33_loop (lo shift : Z) (s : bytes) : result (Z * bytes) :=
  match s with
  | [] => Err Exception_bounds
  | b :: s' =>
      let byte := byte_val b in
      let lo := Z.lor lo (Z.shiftl (Z.land byte 0x7F) shift) in
      if Z.land byte 0x80 =? 0 then Ok (lo, s')
      else
        let shift := shift + 7 in
        if shift >=? 32 then Ok (lo, s')
        else read_uleb128_33_loop lo shift s'
  end.

Definition read_uleb128_33 : Reader ((Z * Z) * bool) :=
  fun s =>
    match s with
    | [] => Err Exception_bounds
    | b :: s' =>
        let first_byte := byte_val b in
        let is_num := negb (Z.land first_byte 0x01 =? 0) in
        let lo := Z.land (Z.shiftr first_byte 1) 0x3F in
        (lo <- (if Z.shiftr first_byte 1 >? 0x3F
                then read_uleb128_33_loop lo 6
                else ret lo) ;;
         hi <- (if is_num then read_uleb128 else ret 0) ;;
         ret ((lo, hi), is_num)) s'
    end.

(** [read_string(length)]: UTF-8, and latin-1 when that fails. *)
Definition read_string (length : Z) : Reader str :=
  fun s =>
    if Z.of_nat (List.length s) <? length then Err Exception_bounds
    else
      let data := firstn (Z.to_nat length) s in
      Ok (match Utf8.decode_strict data with
          | Some text => text
          | None => Utf8.decode_latin1 data
          end, skipn (Z.to_nat length) s).

(** [bool(x & mask)] *)
Definition has_flag (x mask : Z) : bool := negb (Z.land x mask =? 0).

(** [read_header]; the header dict and [self.flags]. *)
Definition read_header : Reader Header :=
  fun s =>
    if (List.length s <? 3)%nat then Err Exception_too_small
    else
      let signature := firstn 3 s in
      if negb (Lua54.bytes_eqb signature LUAJIT_SIGNATURE) then Err Exception_signature
      else
        (version <- read_byte ;;
         flags <- read_uleb128 ;;
         let is_big_endian := has_flag flags BCDUMP_F_BE in
         let is_stripped := has_flag flags BCDUMP_F_STRIP in
         let has_ffi := has_flag flags BCDUMP_F_FFI in
         source_name <-
           (if negb is_stripped then
              name_len <- read_uleb128 ;;
              if name_len >? 0 then read_string name_len else ret []
            else ret []) ;;
         ret (mkHeader signature version flags is_big_endian is_stripped
                       has_ffi source_name)) (skipn 3 s).

(** [for i in range(n)] appending what the body returns. *)
Fixpoint read_each {A} (n : nat) (body : Reader A) (acc : list A)
  : Reader (list A) :=
  match n with
  | O => ret acc
  | S n' => a <- body ;; read_each n' body (acc ++ [a])
  end.

Definition range (n : Z) : nat := Z.to_nat n.

Definition read_table_item : Reader TabItem :=
  item_type <- read_uleb128 ;;
  if item_type >=? BCDUMP_KTAB_STR then
    let str_len := item_type - BCDUMP_KTAB_STR in
    s <- read_string str_len ;; ret (TStr s)
  else if item_type =? BCDUMP_KTAB_INT then
    v <- read_uleb128 ;; ret (TInt v)
  else if item_type =? BCDUMP_KTAB_NUM then
    lo <- read_uleb128 ;;
    hi <- read_uleb128 ;;
    let num_bits := Z.lor lo (Z.shiftl hi 32) in
    num <- lift (float_of_bits num_bits) ;;
    ret (TNum num)
  else if item_type =? BCDUMP_KTAB_TRUE then ret TTrue
  else if item_type =? BCDUMP_KTAB_FALSE then ret TFalse
  else if item_type =? BCDUMP_KTAB_NIL then ret TNil
  else raise (Exception_table_item item_type).

Definition read_table : Reader Table :=
  array_count <- read_uleb128 ;;
  hash_count <- read_uleb128 ;;
  array_items <- read_each (range array_count) read_table_item [] ;;
  hash_items <-
    read_each (range hash_count)
      (key <- read_table_item ;; value <- read_table_item ;; ret (key, value)) [] ;;
  ret (mkTable array_items hash_items).

(** One GC constant of [read_proto]. *)
Definition read_kgc : Reader KGC :=
  const_type <- read_uleb128 ;;
  if const_type >=? BCDUMP_KGC_STR then
    let str_len := const_type - BCDUMP_KGC_STR in
    str_data <- read_string str_len ;; ret (K_string str_data)
  else if const_type =? BCDUMP_KGC_TAB then
    tab <- read_table ;; ret (K_table tab)
  else if const_type =? BCDUMP_KGC_CHILD then ret K_child_ref
  else if const_type =? BCDUMP_KGC_I64 then
    lo <- read_uleb128 ;;
    hi <- read_uleb128 ;;
    let val := Z.lor lo (Z.shiftl hi 32) in
    let val := if val >=? Z.shiftl 1 63 then val - Z.shiftl 1 64 else val in
    ret (K_i64 val)
  else if const_type =? BCDUMP_KGC_U64 then
    lo <- read_uleb128 ;;
    hi <- read_uleb128 ;;
    ret (K_u64 (Z.lor lo (Z.shiftl hi 32)))
  else if const_type =? BCDUMP_KGC_COMPLEX then
    real_lo <- read_uleb128 ;;
    real_hi <- read_uleb128 ;;
    imag_lo <- read_uleb128 ;;
    imag_hi <- read_uleb128 ;;
    let real_bits := Z.lor real_lo (Z.shiftl real_hi 32) in
    let imag_bits := Z.lor imag_lo (Z.shiftl imag_hi 32) in
    real <- lift (float_of_bits real_bits) ;;
    imag <- lift (float_of_bits imag_bits) ;;
    ret (K_complex real imag)
  else raise (Exception_kgc const_type).

(** One numeric constant of [read_proto]. *)
Definition read_knum : Reader KNum :=
  '((lo, hi), is_num) <- read_uleb128_33 ;;
  if is_num : bool then
    let num_bits := Z.lor lo (Z.shiftl hi 32) in
    num <- lift (float_of_bits num_bits) ;;
    ret (KFloat num)
  else
    let lo := if lo >=? Z.shiftl 1 31 then lo - Z.shiftl 1 32 else lo in
    ret (KInt lo).

(** The text [f"<type_{var_type}>"] for a one-digit [var_type]. *)
Definition type_name (var_type : Z) : str :=
  [60; 116; 121; 112; 101; 95; 48 + var_type; 62].

(** The [while self.pos < self.size] loop over the variable names; every
    round reads at least one byte, so [rounds] only has to exceed the
    bytes that are left. *)
Fixpoint read_varnames (rounds : nat) (varnames : list str) : Reader (list str) :=
  fun s =>
    match s with
    | [] => Ok (varnames, s)
    | _ :: _ =>
        match rounds with
        | O => Err OutOfFuel
        | S rounds' =>
            (var_type <- read_byte ;;
             if var_type =? VARNAME_END then ret varnames
             else
               varnames <-
                 (if var_type >=? VARNAME_MAX then
                    let name_len := var_type - VARNAME_MAX in
                    if name_len >? 0 then
                      name <- read_string name_len ;; ret (varnames ++ [name])
                    else ret varnames
                  else ret (varnames ++ [type_name var_type])) ;;
               start_addr <- read_uleb128 ;;
               end_addr <- read_uleb128 ;;
               read_varnames rounds' varnames) s
        end
    end.

(** [read_proto] for a parser whose [self.flags] is [pflags]. *)
Definition read_proto (pflags : Z) : Reader Proto :=
  size <- read_uleb128 ;;
  if size =? 0 then ret (mkProto size 0 0 0 0 0 0 0 0 0 0 [] [] [] [] [] [] [])
  else
    flags <- read_byte ;;
    numparams <- read_byte ;;
    framesize <- read_byte ;;
    numuv <- read_byte ;;
    numkgc <- read_uleb128 ;;
    numkn <- read_uleb128 ;;
    numbc <- read_uleb128 ;;
    '(debuginfo_size, firstline, numline) <-
      (if negb (has_flag pflags BCDUMP_F_STRIP) then
         debuginfo_size <- read_uleb128 ;;
         firstline <- read_uleb128 ;;
         numline <- read_uleb128 ;;
         ret (debuginfo_size, firstline, numline)
       else ret (0, 0, 0)) ;;
    bytecode <- read_each (range numbc) read_uint32 [] ;;
    uv_data <- read_each (range numuv) read_uint16 [] ;;
    constants_gc <- read_each (range numkgc) read_kgc [] ;;
    constants_num <- read_each (range numkn) read_knum [] ;;
    '(lineinfo, uvnames, varnames) <-
      (if negb (has_flag pflags BCDUMP_F_STRIP) && (debuginfo_size >? 0) then
         lineinfo <-
           (if numline >? 0 then
              if numline >=? 65536 then read_each (range numbc) read_uint32 []
              else if numline >=? 256 then read_each (range numbc) read_uint16 []
              else read_each (range numbc) read_byte []
            else ret []) ;;
         uvnames <-
           read_each (range numuv)
             (name_len <- read_uleb128 ;;
              if name_len >? 0 then read_string name_len else ret []) [] ;;
         varnames <- (fun s => read_varnames (S (List.length s)) [] s) ;;
         ret (lineinfo, uvnames, varnames)
       else ret ([], [], [])) ;;
    ret (mkProto size flags numparams framesize numuv numkgc numkn numbc
                 debuginfo_size firstline numline bytecode uv_data
                 constants_gc constants_num lineinfo uvnames varnames).

(** The [while self.pos < self.size] loop of [parse]: any exception of
    [read_proto] is caught, a warning is printed and the loop is left;
    so is a prototype of size 0.  Every prototype takes at least one
    byte, which bounds the rounds. *)
Fixpoint parse_loop (rounds : nat) (pflags : Z) (protos : list Proto) (s : bytes)
  : result (list Proto) :=
  match s with
  | [] => Ok protos
  | _ :: _ =>
      match rounds with
      | O => Err OutOfFuel
      | S rounds' =>
          match read_proto pflags s with
          | Ok (proto, s') =>
              if size proto =? 0 then Ok protos
              else parse_loop rounds' pflags (protos ++ [proto]) s'
          | Err e => Ok protos
          end
      end
  end.

Definition parse (data : bytes) : result (Header * list Proto) :=
  match read_header data with
  | Ok (header, s) =>
      match parse_loop (S (List.length s)) (h_flags header) [] s with
      | Ok protos => Ok (header, protos)
      | Err e => Err e
      end
  | Err e => Err e
  end.

(* ----------------------------------------------------------------- *)
(** *** Encoders of the two LuaJIT varints

    [luajitparse.py] only reads; the repository has no writer for the
    LuaJIT formats. *)

(** Modelled from the spec: the encoder of the LSB-first scheme, missing
    from the source ("Each encode* exactly mirrors its decoder", with the
    decoder accumulating "7-bit groups low-to-high while the continuation
    bit is set").  A group is the low seven bits; the continuation bit is
    set while higher bits remain. *)
Fixpoint write_uleb128_groups (rounds : nat) (v : Z) : bytes :=
  match rounds with
  | O => []
  | S rounds' =>
      if v <? 128 then [byte_of_Z v]
      else byte_of_Z (Z.lor (Z.land v 0x7F) 0x80)
           :: write_uleb128_groups rounds' (Z.shiftr v 7)
  end.

Definition write_uleb128 (v : Z) : bytes :=
  write_uleb128_groups (S (Z.to_nat (Z.log2 v))) v.

(** Modelled from the spec: the encoder of the 33-bit variant, missing
    from the source ("the first byte's low bit flags float vs. integer;
    the remaining bits plus continuation groups yield lo; if float, a
    further decodeLsbUleb128 supplies hi").  The first byte holds the
    flag, the low six bits of [lo] and the continuation bit. *)
Definition write_uleb128_33 (lo hi : Z) (is_num : bool) : bytes :=
  let flag := if is_num then 1 else 0 in
  let first := Z.lor (Z.shiftl (Z.land lo 0x3F) 1) flag in
  (if lo <? 64 then [byte_of_Z first]
   else byte_of_Z (Z.lor first 0x80) :: write_uleb128 (Z.shiftr lo 6))
  ++ (if is_num then write_uleb128 hi else []).

(** Modelled from the spec: the encoder of a numeric constant, missing
    from the source ("(lo | hi<<32) is reinterpreted as a 64-bit float
    bit pattern; otherwise lo (sign-extended from 32 bits) is the
    integer"). *)
Definition write_knum (k : KNum) : bytes :=
  match k with
  | KFloat bits =>
      write_uleb128_33 (Z.land bits 0xFFFFFFFF) (Z.shiftr bits 32) true
  | KInt v =>
      write_uleb128_33 (if v <? 0 then v + Z.shiftl 1 32 else v) 0 false
  end.

End LuaJIT.


(* ================================================================= *)
(** ** [lua_parser_unified.py]: the version check in front of the parsers *)

Module Unified.

(** The answers of [detect_lua_version].  Each is a fixed text; the
    three that embed a number carry it. *)
Inductive Version : Type :=
| Unknown_format                       (* not a Lua and not a LuaJIT signature *)
| Lua_5_1
| Lua_5_2
| Lua_5_3
| Lua_5_4
| LuaJIT_2_0
| LuaJIT_2_1
| LuaJIT_unknown (version_byte : Z)    (* a LuaJIT signature, another version *)
| Unknown_Lua (version : Z)            (* a Lua signature, another version *)
| Detection_failed.                    (* an exception on the way *)

(** [detect_lua_version] on a file holding [file].  [f.read(1)[0]] raises
    IndexError at the end of the file, and every exception ends in the
    detection-failed answer.  After [f.seek(0)] the first twelve bytes
    are read again. *)
Definition detect_lua_version (file : bytes) : Version :=
  let signature := firstn 4 file in
  if negb (Lua54.bytes_eqb signature Lua54.LUA_SIGNATURE)
     && negb (Lua54.bytes_eqb (firstn 3 signature) LuaJIT.LUAJIT_SIGNATURE)
  then Unknown_format
  else
    match skipn 4 file with
    | [] => Detection_failed
    | version_raw :: after_version =>
        let version := byte_val version_raw in
        match after_version with
        | [] => Detection_failed
        | format_version :: _ =>
            if version =? 0x51 then Lua_5_1
            else if version =? 0x52 then Lua_5_2
            else if version =? 0x53 then Lua_5_3
            else if version =? 0x54 then Lua_5_4
            else
              let data := firstn 12 file in
              if (3 <=? List.length data)%nat
                 && Lua54.bytes_eqb (firstn 3 data) LuaJIT.LUAJIT_SIGNATURE
              then
                let version_byte :=
                  if (3 <? List.length data)%nat
                  then byte_val (nth 3 data x00) else 0 in
                if version_byte =? 1 then LuaJIT_2_0
                else if version_byte =? 2 then LuaJIT_2_1
                else LuaJIT_unknown version_byte
              else Unknown_Lua version
        end
    end.

End Unified.

(* ================================================================= *)
(** ** Definitions used to state the properties *)

Module Aux.

Import Lua54.

(** The constant a reader result holds. *)
Definition const_value (r : result ((Const * bytes) * bytes)) : option Const :=
  match r with
  | Ok ((c, _), _) => Some c
  | Err _ => None
  end.

(** A long-string constant of two characters, as one constant table. *)
Definition long_tagged_hi : bytes := bytes_of [0x81; 36; 0x83; 0x68; 0x69].

(** A three-instruction prototype with a two-instruction child, with the
    instruction spans [parse] captures. *)
Definition sample_child : Proto :=
  set_ori "code" (bytes_of [0x82; 1; 2; 3; 4; 5; 6; 7; 8])
    (set_code [0x04030201; 0x08070605] empty_proto).

Definition sample_tree : Proto :=
  set_protos [sample_child]
    (set_ori "code" (bytes_of [0x83; 9; 8; 7; 6; 5; 4; 3; 2; 1; 0; 1; 2])
       (set_code [0x06070809; 0x02030405; 0x02010001] empty_proto)).

(** The keystream XOR, byte by byte from offset [pos]. *)
Definition xor_at (key : bytes) (pos : nat) (b : byte) : byte :=
  byte_of_Z (Z.lxor (byte_val b)
                    (byte_val (nth (pos mod List.length key) key x00))).

Fixpoint xor_from (key : bytes) (pos : nat) (data : bytes) : bytes :=
  match data with
  | [] => []
  | b :: data' => xor_at key pos b :: xor_from key (S pos) data'
  end.

(** The tree the transform leaves when the key is usable: in every
    prototype the bytes after the size prefix of the captured
    instruction span are XORed with the keystream. *)
Fixpoint xor_tree (key : bytes) (proto : Proto) : Proto :=
  let proto1 :=
    if truthy (ori proto) then
      match dict_get "code" (ori proto) with
      | Some code_raw =>
          let '(size_bytes, data) := split_size code_raw in
          set_ori "code" (size_bytes ++ xor_from key 0 data) proto
      | None => proto
      end
    else proto in
  set_protos (map (xor_tree key) (protos proto)) proto1.

(** The opcode pairs of two aligned instruction sequences. *)
Definition opcode_pairs (standard shuffled : list Z) : list (Z * Z) :=
  map (fun pair => (Z.land (fst pair) 0x7F, Z.land (snd pair) 0x7F))
      (combine standard shuffled).

(** The shuffled opcode of the first pair whose standard opcode is [k]. *)
Definition first_seen (k : Z) (pairs : list (Z * Z)) : option Z :=
  option_map snd (find (fun pair => k =? fst pair) pairs).

(** The pairs that disagree with the first-seen value of their standard
    opcode, each with that value, in the order of the sequence. *)
Definition conflicts (pairs : list (Z * Z)) : list warning :=
  flat_map (fun pair =>
              match first_seen (fst pair) pairs with
              | Some recorded =>
                  if negb (recorded =? snd pair)
                  then [(fst pair, recorded, snd pair)] else []
              | None => []
              end) pairs.

(** A complete Lua 5.4 file: the reference header, one upvalue, source
    "@a", one instruction, the string constant "hi" and no debug data. *)
Definition reference_header : list Z :=
  [0x1b; 0x4c; 0x75; 0x61; 0x54; 0x00; 0x19; 0x93; 0x0d; 0x0a; 0x1a; 0x0a;
   4; 8; 8; 0x78; 0x56; 0; 0; 0; 0; 0; 0; 0; 0; 0; 0; 0; 0x28; 0x77; 0x40].

Definition sample_body (opcode_byte : Z) : list Z :=
  [1; 0x83; 0x40; 0x61; 0x80; 0x80; 0; 1; 2;
   0x81; opcode_byte; 0; 1; 1;
   0x81; 20; 0x83; 0x68; 0x69;
   0x81; 1; 0; 0;
   0x80;
   0x80; 0x80; 0x80; 0x80].

Definition sample_file (opcode_byte : Z) : bytes :=
  bytes_of (reference_header ++ sample_body opcode_byte).

(** The prototype [parse] returns for a file it accepts. *)
Definition parsed (file : bytes) : Proto :=
  match parse file with
  | Ok proto => proto
  | Err _ => empty_proto
  end.

(** The first fifteen bytes of every Lua 5.4 header: signature, version,
    format, the six data bytes and the three sizes. *)
Definition header_prefix : bytes := bytes_of (firstn 15 reference_header).

(** A file like [sample_file 5] whose header carries [test_int] and the
    float pattern [test_num] as test values. *)
Definition file_with_test_values (test_int test_num : Z) : bytes :=
  header_prefix ++ le_bytes 8 test_int ++ le_bytes 8 test_num
  ++ bytes_of (sample_body 5).

(** What a ceiling [max] on the instruction count would mean: a group
    that announces more than [max] instructions is rejected. *)
Definition ceiling_enforced (max : Z) : Prop :=
  forall (buf : bytes) (n : Z) (raw rest : bytes),
    read_size_with_raw buf = Ok ((n, raw), rest) ->
    max < n ->
    exists e, read_code empty_proto buf = Err e.

(** A code group of three instructions. *)
Definition three_instructions : bytes :=
  bytes_of [0x83; 1; 0; 0; 0; 2; 0; 0; 0; 3; 0; 0; 0].

(** A Lua 5.4 file up to and including the code group of the main
    prototype: the reference header, the upvalue-count byte, the source
    text, the two line numbers, the three header bytes and the
    instructions. *)
Definition file_up_to_constants (upval_count : byte) (source_data : bytes)
  (ld lld : Z) (np va ms : byte) (insts : list Z) : bytes :=
  bytes_of reference_header ++ [upval_count]
  ++ _write_size (Z.of_nat (List.length source_data) + 1) ++ source_data
  ++ _write_size ld ++ _write_size lld ++ [np; va; ms]
  ++ _write_size (Z.of_nat (List.length insts)) ++ flat_map (le_bytes 4) insts.

(** A stripped LuaJIT dump: header, one complete prototype, and a second
    prototype cut off after two of its bytes. *)
Definition truncated_luajit : bytes :=
  bytes_of [0x1b; 0x4c; 0x4a; 2; 2;
            7; 0; 0; 0; 0; 0; 0; 0;
            7; 0; 0].

(** [sample_file 5] with one upvalue name of announced length four, cut
    off after its first two characters. *)
Definition short_name_file : bytes :=
  bytes_of (reference_header
            ++ [1; 0x83; 0x40; 0x61; 0x80; 0x80; 0; 1; 2;
                0x81; 5; 0; 1; 1;
                0x81; 20; 0x83; 0x68; 0x69;
                0x81; 1; 0; 0;
                0x80;
                0x80; 0x80; 0x80; 0x81; 0x85; 0x5f; 0x45]).

(** A reader that never gives bytes back, and one that takes at least
    one byte when it succeeds. *)
Definition shrinks {A} (m : Reader A) : Prop :=
  forall s a s', m s = Ok (a, s') -> (List.length s' <= List.length s)%nat.

Definition consumes {A} (m : Reader A) : Prop :=
  forall s a s', m s = Ok (a, s') -> (List.length s' < List.length s)%nat.

(** A reader that consumes a prefix of what it is given. *)
Definition prefixes {A} (m : Reader A) : Prop :=
  forall s a s', m s = Ok (a, s') -> exists pre, s = pre ++ s'.

(** [raw] occurs in [whole] as a contiguous span. *)
Definition occurs (raw whole : bytes) : Prop :=
  exists before after, whole = before ++ raw ++ after.

(** The captured instruction spans of a tree, in preorder, and the
    number of its prototypes. *)
Fixpoint code_spans (proto : Proto) : list bytes :=
  match dict_get "code" (ori proto) with
  | Some code_raw => [code_raw]
  | None => []
  end ++ flat_map code_spans (protos proto).

Fixpoint node_count (proto : Proto) : nat :=
  S (fold_right (fun sub n => (node_count sub + n)%nat) 0%nat (protos proto)).

(** What is known of a prototype read from the span [c]: the instruction
    span of every node of its tree occurs in [c], and every node has one. *)
Definition child_ok (c : bytes) (sub : Proto) : Prop :=
  Forall (fun raw => occurs raw c) (code_spans sub)
  /\ List.length (code_spans sub) = node_count sub.

(** [sample_file 5] with its string constant under the long-string tag,
    and with its first line number written in two bytes. *)
Definition long_tag_file : bytes :=
  bytes_of (reference_header
            ++ [1; 0x83; 0x40; 0x61; 0x80; 0x80; 0; 1; 2;
                0x81; 5; 0; 1; 1;
                0x81; 36; 0x83; 0x68; 0x69;
                0x81; 1; 0; 0;
                0x80;
                0x80; 0x80; 0x80; 0x80]).

Definition wide_size_file : bytes :=
  bytes_of (reference_header
            ++ [1; 0x83; 0x40; 0x61; 0x00; 0x80; 0x80; 0; 1; 2;
                0x81; 5; 0; 1; 1;
                0x81; 20; 0x83; 0x68; 0x69;
                0x81; 1; 0; 0;
                0x80;
                0x80; 0x80; 0x80; 0x80]).

(** A float constant is carried by its 64 bits. *)
Definition float_bits_ok (c : Const) : Prop :=
  match c with
  | CFloat bits => 0 <= bits < 2 ^ 64
  | _ => True
  end.

(** An upvalue descriptor as the reader builds it: the three values and
    the three bytes they were read from. *)
Definition captured (upval : Upvalue) : Upvalue :=
  mkUpvalue (instack upval) (idx upval) (kind upval)
            (Some (bytes_of [instack upval; idx upval; kind upval])).

(** [d[k]] of a decoded instruction, for an operand key. *)
Definition field (k : string) (d : decoded) : Z :=
  match dict_get k d with
  | Some (VInt z) => z
  | _ => 0
  end.

(** The 32-bit word an assembler builds from the operands of a decoded
    instruction, by the layout of its mode: the opcode in bits 0..6,
    [A] from bit 7, [k] at bit 15, [B] from bit 16, [C] from bit 24,
    [Bx] and the biased [sBx] from bit 15, [Ax] and the biased [sJ] from
    bit 7. *)
Definition reassemble (d : decoded) : option Z :=
  match dict_get "mode" d with
  | Some (VMode iABC) =>
      Some (field "opcode" d + 2 ^ 7 * field "A" d + 2 ^ 15 * field "k" d
            + 2 ^ 16 * field "B" d + 2 ^ 24 * field "C" d)
  | Some (VMode iABx) =>
      Some (field "opcode" d + 2 ^ 7 * field "A" d + 2 ^ 15 * field "Bx" d)
  | Some (VMode iAsBx) =>
      Some (field "opcode" d + 2 ^ 7 * field "A" d
            + 2 ^ 15 * (field "sBx" d + 0xFFFF))
  | Some (VMode iAx) =>
      Some (field "opcode" d + 2 ^ 7 * field "Ax" d)
  | Some (VMode isJ) =>
      Some (field "opcode" d + 2 ^ 7 * (field "sJ" d + 0xFFFFFF))
  | _ => None
  end.

(** A reader that hands back, as its raw bytes, exactly what it took. *)
Definition captures {A} (m : Reader (A * bytes)) : Prop :=
  forall s a r s', m s = Ok ((a, r), s') -> s = r ++ s'.

(** Whether [_write_proto] finds all it needs in a prototype and in the
    tree below it: a source it can encode, header values that fit a
    byte, a captured instruction span, and constants, upvalues and debug
    data that the writers of these groups accept. *)
Fixpoint writable (proto : Proto) : bool :=
  is_ok (_write_string (source proto))
  && is_ok (pack_B (numparams proto))
  && is_ok (pack_B (is_vararg proto))
  && is_ok (pack_B (maxstacksize proto))
  && match dict_get "code" (ori proto) with Some _ => true | None => false end
  && is_ok (_write_constants proto)
  && is_ok (_write_upvalues proto)
  && is_ok (_write_debug proto)
  && forallb writable (protos proto).

(** A Lua 5.4 file whose main prototype has 256 upvalue descriptors and
    nothing else. *)
Definition many_upvalues_file : bytes :=
  bytes_of (reference_header
            ++ [0; 0x80; 0x80; 0x80; 0; 0; 2; 0x80; 0x80; 0x02; 0x80]
            ++ repeat 0 768
            ++ [0x80; 0x80; 0x80; 0x80; 0x80]).

(** A LuaJIT prototype with another value in its [size] field. *)
Definition with_size (size : Z) (proto : LuaJIT.Proto) : LuaJIT.Proto :=
  LuaJIT.mkProto size (LuaJIT.flags proto) (LuaJIT.numparams proto)
    (LuaJIT.framesize proto) (LuaJIT.numuv proto) (LuaJIT.numkgc proto)
    (LuaJIT.numkn proto) (LuaJIT.numbc proto) (LuaJIT.debuginfo_size proto)
    (LuaJIT.firstline proto) (LuaJIT.numline proto) (LuaJIT.bytecode proto)
    (LuaJIT.uv_data proto) (LuaJIT.constants_gc proto) (LuaJIT.constants_num proto)
    (LuaJIT.lineinfo proto) (LuaJIT.uvnames proto) (LuaJIT.varnames proto).

End Aux.

(* ================================================================= *)
(** * Verified properties *)

(** ** Bit-level facts used by every codec *)

Section Bits.

Lemma byte_val_range (b : byte) : 0 <= byte_val b < 256.
Proof.
  unfold byte_val. pose proof (Byte.to_N_bounded b). lia.
Qed.

Lemma byte_val_of_Z (z : Z) : 0 <= z < 256 -> byte_val (byte_of_Z z) = z.
Proof.
  intros Hz. unfold byte_val, byte_of_Z.
  rewrite Z.mod_small by lia.
  destruct (Byte.of_N (Z.to_N z)) as [b|] eqn:E.
  - apply Byte.to_of_N in E. rewrite E. lia.
  - apply Byte.of_N_None_iff in E. lia.
Qed.

Lemma byte_of_Z_val (b : byte) : byte_of_Z (byte_val b) = b.
Proof.
  unfold byte_of_Z, byte_val.
  pose proof (Byte.to_N_bounded b).
  rewrite Z.mod_small by lia.
  rewrite N2Z.id, Byte.of_to_N. reflexivity.
Qed.

Lemma land_127 (z : Z) : Z.land z 0x7F = z mod 128.
Proof. change 0x7F with (Z.ones 7). rewrite Z.land_ones by lia. reflexivity. Qed.

Lemma shiftr_7 (z : Z) : Z.shiftr z 7 = z / 128.
Proof. rewrite Z.shiftr_div_pow2 by lia. reflexivity. Qed.

(** Appending [k] low bits below a value: [(x << k) | g = 2^k x + g]. *)
Lemma shl_or (k x g : Z) :
  0 <= k -> 0 <= g < 2 ^ k -> Z.lor (Z.shiftl x k) g = 2 ^ k * x + g.
Proof.
  intros Hk Hg.
  assert (H0 : Z.land (Z.shiftl x k) g = 0).
  { apply Z.bits_inj'. intros n Hn.
    rewrite Z.land_spec, Z.bits_0.
    destruct (Z.ltb_spec n k).
    - rewrite Z.shiftl_spec_low by lia. reflexivity.
    - destruct (Z.eq_dec g 0) as [->|].
      + rewrite Z.bits_0. apply andb_false_r.
      + rewrite (Z.bits_above_log2 g n); [apply andb_false_r| lia |].
        assert (Z.log2 g < k) by (apply Z.log2_lt_pow2; lia). lia. }
  rewrite <- (Z.lxor_lor _ _ H0), <- (Z.add_nocarry_lxor _ _ H0).
  rewrite Z.shiftl_mul_pow2 by lia. lia.
Qed.

Lemma shl7_or (x g : Z) : 0 <= g < 128 -> Z.lor (Z.shiftl x 7) g = 128 * x + g.
Proof. intros Hg. apply (shl_or 7); simpl; lia. Qed.

(** A value is its low [k] bits under its higher bits. *)
Lemma split_bits (k v : Z) :
  0 <= k -> Z.lor (v mod 2 ^ k) (Z.shiftl (v / 2 ^ k) k) = v.
Proof.
  intros Hk. rewrite Z.lor_comm, shl_or.
  - symmetry. apply Z.div_mod. apply Z.pow_nonzero; lia.
  - exact Hk.
  - apply Z.mod_pos_bound. apply Z.pow_pos_nonneg; lia.
Qed.

End Bits.

Import Lua54.
Import Aux.

(** Facts about one byte are settled by running through the 256 bytes. *)
Ltac by_bytes b := destruct b; vm_compute; try reflexivity; try discriminate; auto.

(** Conditions without variables are decided by computation. *)
Ltac decide_ifs :=
  repeat match goal with
         | |- context [if ?c then _ else _] =>
             let v := eval vm_compute in c in
             lazymatch v with
             | true => change c with true
             | false => change c with false
             end; cbv iota
         end.

Section ByteFacts.

Lemma byte_top_clear (b : byte) :
  (Z.land (byte_val b) 0x80 =? 0) = (byte_val b <? 128).
Proof. by_bytes b. Qed.

Lemma byte_low7 (g : Z) : 0 <= g < 128 -> Z.land g 0x7F = g.
Proof. intros H. rewrite land_127. apply Z.mod_small. lia. Qed.

Lemma byte_set_top (b : byte) :
  (byte_val b <? 128) = true -> Z.lor (byte_val b) 0x80 = byte_val b + 128.
Proof. by_bytes b. Qed.

Lemma group_set_top (g : Z) : 0 <= g < 128 -> Z.lor g 0x80 = g + 128.
Proof.
  intros H. rewrite <- (byte_val_of_Z g) by lia.
  apply byte_set_top. rewrite byte_val_of_Z by lia. apply Z.ltb_lt. lia.
Qed.

Lemma land_128_high (z : Z) : 128 <= z < 256 -> Z.land z 0x80 = 128.
Proof.
  intros H. rewrite <- (byte_val_of_Z z) by lia.
  assert (E : (byte_val (byte_of_Z z) <? 128) = false)
    by (rewrite byte_val_of_Z by lia; apply Z.ltb_ge; lia).
  revert E. generalize (byte_of_Z z). intros b. by_bytes b.
Qed.

Lemma land_128_low (z : Z) : 0 <= z < 128 -> Z.land z 0x80 = 0.
Proof.
  intros H. rewrite <- (byte_val_of_Z z) by lia.
  assert (E : (byte_val (byte_of_Z z) <? 128) = true)
    by (rewrite byte_val_of_Z by lia; apply Z.ltb_lt; lia).
  revert E. generalize (byte_of_Z z). intros b. by_bytes b.
Qed.

End ByteFacts.

(* ----------------------------------------------------------------- *)
(** ** The size varint of Lua 5.4: [read_size] after [_write_size] *)

Section SizeVarint.

Lemma limit_value : limit = 2 ^ 57.
Proof. reflexivity. Qed.

(** A group without the top bit keeps the loop going. *)
Lemma read_size_loop_cont (x g : Z) (tail : bytes) :
  0 <= g < 128 -> x < limit ->
  read_size_loop x (byte_of_Z g :: tail) = read_size_loop (128 * x + g) tail.
Proof.
  intros Hg Hx. cbn [read_size_loop]. rewrite byte_val_of_Z by lia.
  destruct (Z.geb_spec x limit); [lia|].
  rewrite land_128_low by lia. cbn [Z.eqb negb].
  rewrite byte_low7, shl7_or by lia. reflexivity.
Qed.

(** A group with the top bit ends it. *)
Lemma read_size_loop_stop (x g : Z) (tail : bytes) :
  0 <= g < 128 -> x < limit ->
  read_size_loop x (byte_of_Z (Z.lor g 0x80) :: tail) = Ok (128 * x + g, tail).
Proof.
  intros Hg Hx. cbn [read_size_loop]. rewrite group_set_top by lia.
  rewrite byte_val_of_Z by lia.
  destruct (Z.geb_spec x limit); [lia|].
  rewrite land_128_high by lia. cbn [Z.eqb negb].
  rewrite land_127.
  assert (E : (g + 128) mod 128 = g).
  { replace (g + 128) with (g + 1 * 128) by lia.
    rewrite Z_mod_plus_full. apply Z.mod_small. lia. }
  rewrite E, shl7_or by lia. reflexivity.
Qed.

Lemma size_groups_step (rounds : nat) (v : Z) :
  0 < v ->
  size_groups (S rounds) v = v mod 128 :: size_groups rounds (v / 128).
Proof.
  intros Hv. simpl. destruct (Z.gtb_spec v 0); [|lia].
  rewrite land_127, shiftr_7. reflexivity.
Qed.

(** The groups of [v], read from the highest down, bring the reader's
    accumulator from 0 to [v]. *)
Lemma read_size_loop_groups (rounds : nat) (v : Z) (tail : bytes) :
  0 <= v < limit ->
  v < 128 ^ Z.of_nat rounds ->
  read_size_loop 0 (bytes_of (rev (size_groups rounds v)) ++ tail)
  = read_size_loop v tail.
Proof.
  revert v tail. induction rounds as [|r IH]; intros v tail Hv Hr.
  - simpl in Hr. assert (v = 0) by lia. subst. reflexivity.
  - destruct (Z.eq_dec v 0) as [->|Hnz]; [reflexivity|].
    rewrite size_groups_step by lia. simpl rev.
    unfold bytes_of. rewrite map_app, <- app_assoc. simpl.
    fold (bytes_of (rev (size_groups r (v / 128)))).
    assert (Hq : 0 <= v / 128 < limit).
    { rewrite limit_value in *. split; [apply Z.div_pos; lia|].
      apply Z.div_lt_upper_bound; lia. }
    rewrite IH.
    + rewrite read_size_loop_cont by (try apply Z.mod_pos_bound; lia).
      f_equal. rewrite (Z.div_mod v 128) at 3 by lia. reflexivity.
    + exact Hq.
    + apply Z.div_lt_upper_bound; [lia|].
      rewrite Nat2Z.inj_succ, Z.pow_succ_r in Hr by lia. exact Hr.
Qed.

Lemma mark_last_snoc (l : list Z) (g : Z) :
  mark_last (l ++ [g]) = l ++ [Z.lor g 0x80].
Proof.
  induction l as [|a l IH]; [reflexivity|].
  simpl. rewrite IH. destruct l; reflexivity.
Qed.

Lemma pow128_log2 (v : Z) : 0 < v -> v < 2 * 128 ^ Z.log2 v.
Proof.
  intros Hv. pose proof (Z.log2_spec v Hv) as [_ H].
  pose proof (Z.log2_nonneg v).
  rewrite Z.pow_succ_r in H by lia.
  assert (2 ^ Z.log2 v <= 128 ^ Z.log2 v)
    by (apply Z.pow_le_mono_l; lia).
  lia.
Qed.

(** [_write_size] of a positive value: the higher groups, then the
    lowest one with the top bit. *)
Lemma write_size_pos (v : Z) :
  0 < v ->
  _write_size v
  = bytes_of (rev (size_groups (Z.to_nat (Z.log2 v)) (v / 128)))
    ++ [byte_of_Z (Z.lor (v mod 128) 0x80)].
Proof.
  intros Hv. unfold _write_size.
  destruct (Z.eqb_spec v 0); [lia|].
  rewrite size_groups_step by lia. simpl rev.
  rewrite mark_last_snoc. unfold bytes_of. rewrite map_app. reflexivity.
Qed.

(** Round trip of the size varint, with whatever follows left in place. *)
Lemma read_size_write_size (v : Z) (tail : bytes) :
  0 <= v < 2 ^ 64 ->
  read_size (_write_size v ++ tail) = Ok (v, tail).
Proof.
  intros Hv. unfold read_size.
  destruct (Z.eq_dec v 0) as [->|Hnz]; [reflexivity|].
  rewrite write_size_pos by lia. rewrite <- app_assoc. simpl app.
  assert (Hq : 0 <= v / 128 < limit).
  { rewrite limit_value. split; [apply Z.div_pos; lia|].
    apply Z.div_lt_upper_bound; lia. }
  rewrite read_size_loop_groups.
  - rewrite read_size_loop_stop by (try apply Z.mod_pos_bound; lia).
    f_equal. f_equal. rewrite (Z.div_mod v 128) at 3 by lia. reflexivity.
  - exact Hq.
  - pose proof (Z.log2_nonneg v).
    rewrite Z2Nat.id by lia.
    apply Z.div_lt_upper_bound; [lia|].
    pose proof (pow128_log2 v ltac:(lia)). lia.
Qed.

End SizeVarint.

(* ----------------------------------------------------------------- *)
(** ** [read_size_with_raw] reads what [read_size] reads and keeps the bytes *)

Section SizeWithRaw.

Lemma read_size_with_raw_loop_ok (s : bytes) :
  forall x raw v s',
    read_size_loop x s = Ok (v, s') ->
    exists pre, s = pre ++ s'
                /\ read_size_with_raw_loop x raw s = Ok ((v, raw ++ pre), s').
Proof.
  induction s as [|b s IH]; intros x raw v s' H; [discriminate|].
  cbn [read_size_loop read_size_with_raw_loop] in *.
  destruct (x >=? limit); [discriminate|].
  destruct (negb (Z.land (byte_val b) 128 =? 0)).
  - injection H as <- <-. exists [b]. split; reflexivity.
  - destruct (IH _ (raw ++ [b]) _ _ H) as (pre & -> & E).
    exists (b :: pre). split; [reflexivity|].
    rewrite E, <- app_assoc. reflexivity.
Qed.

Lemma read_size_with_raw_loop_err (s : bytes) :
  forall x raw e,
    read_size_loop x s = Err e -> read_size_with_raw_loop x raw s = Err e.
Proof.
  induction s as [|b s IH]; intros x raw e H; [now inversion H|].
  cbn [read_size_loop read_size_with_raw_loop] in *.
  destruct (x >=? limit); [now inversion H|].
  destruct (negb (Z.land (byte_val b) 128 =? 0)); [discriminate|].
  apply IH. exact H.
Qed.

Lemma read_size_with_raw_write_size (v : Z) (tail : bytes) :
  0 <= v < 2 ^ 64 ->
  read_size_with_raw (_write_size v ++ tail) = Ok ((v, _write_size v), tail).
Proof.
  intros Hv. pose proof (read_size_write_size v tail Hv) as H.
  destruct (read_size_with_raw_loop_ok _ 0 [] _ _ H) as (pre & E & R).
  apply app_inv_tail in E. subst pre. exact R.
Qed.

End SizeWithRaw.

(* ----------------------------------------------------------------- *)
(** ** The two LuaJIT varints against their encoders *)

Section Uleb128.

Lemma cont_byte (v : Z) :
  byte_val (byte_of_Z (Z.lor (Z.land v 0x7F) 0x80)) = v mod 128 + 128.
Proof.
  rewrite land_127.
  assert (H : 0 <= v mod 128 < 128) by (apply Z.mod_pos_bound; lia).
  rewrite group_set_top by lia. apply byte_val_of_Z. lia.
Qed.

Lemma cont_byte_low (m : Z) : 0 <= m < 128 -> Z.land (m + 128) 0x7F = m.
Proof.
  intros H. rewrite land_127.
  replace (m + 128) with (m + 1 * 128) by lia.
  rewrite Z_mod_plus_full. apply Z.mod_small. lia.
Qed.

Lemma pow2_split (a b : Z) : 0 <= a -> 0 <= b -> 2 ^ (a + b) = 2 ^ a * 2 ^ b.
Proof. intros. apply Z.pow_add_r; lia. Qed.

(** Joining the group just read with the groups still to come. *)
Lemma lor_groups (res v shift : Z) :
  0 <= shift ->
  Z.lor (Z.lor res (Z.shiftl (v mod 128) shift)) (Z.shiftl (v / 128) (shift + 7))
  = Z.lor res (Z.shiftl v shift).
Proof.
  intros Hs. rewrite <- Z.lor_assoc. f_equal.
  replace (shift + 7) with (7 + shift) by lia.
  rewrite <- Z.shiftl_shiftl by lia.
  rewrite <- Z.shiftl_lor. f_equal.
  apply (split_bits 7). lia.
Qed.

(** A value below [2^(bound - shift)] that still has a further group
    leaves room for it below [bound]. *)
Lemma room_for_group (bound shift v : Z) :
  0 <= shift -> 128 <= v < 2 ^ (bound - shift) ->
  shift + 7 < bound /\ v / 128 < 2 ^ (bound - (shift + 7)).
Proof.
  intros Hs [Hlo Hhi].
  assert (Hlt : shift + 7 < bound).
  { destruct (Z.lt_ge_cases (shift + 7) bound) as [|Hge]; [assumption|].
    destruct (Z.lt_ge_cases (bound - shift) 0) as [Hneg|Hnn].
    - rewrite Z.pow_neg_r in Hhi by lia. lia.
    - assert (2 ^ (bound - shift) <= 2 ^ 7) by (apply Z.pow_le_mono_r; lia).
      change (2 ^ 7) with 128 in *. lia. }
  split; [exact Hlt|].
  apply Z.div_lt_upper_bound; [lia|].
  replace (bound - shift) with (7 + (bound - (shift + 7))) in Hhi by lia.
  rewrite pow2_split in Hhi by lia. change (2 ^ 7) with 128 in Hhi. exact Hhi.
Qed.

Lemma write_uleb128_groups_step (rounds : nat) (v : Z) :
  LuaJIT.write_uleb128_groups (S rounds) v
  = if v <? 128 then [byte_of_Z v]
    else byte_of_Z (Z.lor (Z.land v 0x7F) 0x80)
         :: LuaJIT.write_uleb128_groups rounds (Z.shiftr v 7).
Proof. reflexivity. Qed.

Lemma read_uleb128_loop_groups (rounds : nat) :
  forall v res shift tail,
    0 <= shift -> 0 <= v < 2 ^ (35 - shift) ->
    v < 128 ^ Z.of_nat (S rounds) ->
    LuaJIT.read_uleb128_loop res shift
      (LuaJIT.write_uleb128_groups (S rounds) v ++ tail)
    = Ok (Z.lor res (Z.shiftl v shift), tail).
Proof.
  induction rounds as [|r IH]; intros v res shift tail Hs Hv Hr.
  - change (128 ^ Z.of_nat 1) with 128 in Hr.
    cbn [LuaJIT.write_uleb128_groups].
    destruct (Z.ltb_spec v 128); [|lia].
    cbn [app LuaJIT.read_uleb128_loop].
    rewrite byte_val_of_Z by lia.
    rewrite land_128_low, byte_low7 by lia. reflexivity.
  - rewrite write_uleb128_groups_step.
    destruct (Z.ltb_spec v 128).
    + cbn [app LuaJIT.read_uleb128_loop].
      rewrite byte_val_of_Z by lia.
      rewrite land_128_low, byte_low7 by lia. reflexivity.
    + destruct (room_for_group 35 shift v Hs ltac:(lia)) as [Hroom Hq].
      assert (Hm : 0 <= v mod 128 < 128) by (apply Z.mod_pos_bound; lia).
      cbn [app LuaJIT.read_uleb128_loop].
      rewrite cont_byte, land_128_high, cont_byte_low by lia.
      cbn [Z.eqb].
      destruct (Z.geb_spec (shift + 7) 35); [lia|].
      rewrite shiftr_7.
      rewrite IH.
      * rewrite lor_groups by lia. reflexivity.
      * lia.
      * split; [apply Z.div_pos; lia | exact Hq].
      * apply Z.div_lt_upper_bound; [lia|].
        rewrite (Nat2Z.inj_succ (S r)), Z.pow_succ_r in Hr by lia. exact Hr.
Qed.

Lemma enough_rounds (v : Z) : 0 <= v -> v < 128 ^ Z.of_nat (S (Z.to_nat (Z.log2 v))).
Proof.
  intros Hv. pose proof (Z.log2_nonneg v).
  rewrite Nat2Z.inj_succ, Z2Nat.id, Z.pow_succ_r by lia.
  destruct (Z.eq_dec v 0) as [->|].
  - simpl. lia.
  - pose proof (pow128_log2 v ltac:(lia)). lia.
Qed.

(** The LSB-first scheme: five groups at most, values below [2^35]. *)
Lemma read_uleb128_write (v : Z) (tail : bytes) :
  0 <= v < 2 ^ 35 ->
  LuaJIT.read_uleb128 (LuaJIT.write_uleb128 v ++ tail) = Ok (v, tail).
Proof.
  intros Hv. unfold LuaJIT.read_uleb128, LuaJIT.write_uleb128.
  rewrite read_uleb128_loop_groups.
  - rewrite Z.shiftl_0_r, Z.lor_0_l. reflexivity.
  - lia.
  - exact Hv.
  - apply enough_rounds. lia.
Qed.

Lemma read_uleb128_33_loop_groups (rounds : nat) :
  forall v lo shift tail,
    0 <= shift -> 0 <= v < 2 ^ (32 - shift) ->
    v < 128 ^ Z.of_nat (S rounds) ->
    LuaJIT.read_uleb128_33_loop lo shift
      (LuaJIT.write_uleb128_groups (S rounds) v ++ tail)
    = Ok (Z.lor lo (Z.shiftl v shift), tail).
Proof.
  induction rounds as [|r IH]; intros v lo shift tail Hs Hv Hr.
  - change (128 ^ Z.of_nat 1) with 128 in Hr.
    cbn [LuaJIT.write_uleb128_groups].
    destruct (Z.ltb_spec v 128); [|lia].
    cbn [app LuaJIT.read_uleb128_33_loop].
    rewrite byte_val_of_Z by lia.
    rewrite land_128_low, byte_low7 by lia. reflexivity.
  - rewrite write_uleb128_groups_step.
    destruct (Z.ltb_spec v 128).
    + cbn [app LuaJIT.read_uleb128_33_loop].
      rewrite byte_val_of_Z by lia.
      rewrite land_128_low, byte_low7 by lia. reflexivity.
    + destruct (room_for_group 32 shift v Hs ltac:(lia)) as [Hroom Hq].
      assert (Hm : 0 <= v mod 128 < 128) by (apply Z.mod_pos_bound; lia).
      cbn [app LuaJIT.read_uleb128_33_loop].
      rewrite cont_byte, land_128_high, cont_byte_low by lia.
      cbn [Z.eqb].
      destruct (Z.geb_spec (shift + 7) 32); [lia|].
      rewrite shiftr_7.
      rewrite IH.
      * rewrite lor_groups by lia. reflexivity.
      * lia.
      * split; [apply Z.div_pos; lia | exact Hq].
      * apply Z.div_lt_upper_bound; [lia|].
        rewrite (Nat2Z.inj_succ (S r)), Z.pow_succ_r in Hr by lia. exact Hr.
Qed.

End Uleb128.

Section Uleb128_33.

(** What the reader takes from the first byte [2 (lo mod 64) + flag],
    with or without the continuation bit. *)
Lemma first_byte_fields (m c : Z) :
  0 <= m < 128 -> (c = 0 \/ c = 128) ->
  Z.land (m + c) 0x01 = m mod 2
  /\ Z.land (Z.shiftr (m + c) 1) 0x3F = m / 2
  /\ (Z.shiftr (m + c) 1 >? 0x3F) = (c =? 128).
Proof.
  intros Hm Hc.
  assert (E1 : Z.land (m + c) 0x01 = (m + c) mod 2)
    by (apply (Z.land_ones (m + c) 1); lia).
  assert (E2 : Z.shiftr (m + c) 1 = (m + c) / 2)
    by (apply (Z.shiftr_div_pow2 (m + c) 1); lia).
  assert (E3 : Z.land ((m + c) / 2) 0x3F = ((m + c) / 2) mod 64)
    by (apply (Z.land_ones ((m + c) / 2) 6); lia).
  rewrite E1, E2, E3.
  repeat split.
  - destruct Hc as [-> | ->]; Z.div_mod_to_equations; lia.
  - destruct Hc as [-> | ->]; Z.div_mod_to_equations; lia.
  - destruct Hc as [-> | ->]; simpl (_ =? _); rewrite Z.gtb_ltb;
      [apply Z.ltb_ge | apply Z.ltb_lt]; Z.div_mod_to_equations; lia.
Qed.

Lemma first_byte_value (lo : Z) (is_num : bool) :
  Z.lor (Z.shiftl (Z.land lo 0x3F) 1) (if is_num then 1 else 0)
  = 2 * (lo mod 64) + (if is_num then 1 else 0).
Proof.
  change 0x3F with (Z.ones 6). rewrite Z.land_ones by lia.
  change (2 ^ 6) with 64.
  rewrite (shl_or 1) by (destruct is_num; simpl; lia).
  reflexivity.
Qed.

(** The 33-bit variant: [lo] below [2^32], [hi] read by the plain scheme. *)
Lemma read_uleb128_33_write (lo hi : Z) (is_num : bool) (tail : bytes) :
  0 <= lo < 2 ^ 32 -> 0 <= hi < 2 ^ 35 ->
  LuaJIT.read_uleb128_33 (LuaJIT.write_uleb128_33 lo hi is_num ++ tail)
  = Ok (((lo, if is_num then hi else 0), is_num), tail).
Proof.
  intros Hlo Hhi. unfold LuaJIT.write_uleb128_33.
  rewrite first_byte_value.
  set (flag := if is_num then 1 else 0).
  assert (Hflag : flag = 0 \/ flag = 1) by (destruct is_num; auto).
  assert (Hl : 0 <= lo mod 64 < 64) by (apply Z.mod_pos_bound; lia).
  set (m := 2 * (lo mod 64) + flag).
  assert (Hm : 0 <= m < 128) by (unfold m; lia).
  assert (Hbit : m mod 2 = flag)
    by (unfold m; Z.div_mod_to_equations; lia).
  assert (Hhalf : m / 2 = lo mod 64)
    by (unfold m; Z.div_mod_to_equations; lia).
  assert (Hnum : negb (flag =? 0) = is_num) by (destruct is_num; reflexivity).
  assert (Hhi_read :
    forall t, (if is_num then LuaJIT.read_uleb128 else ret 0)
                ((if is_num then LuaJIT.write_uleb128 hi else []) ++ t)
              = Ok ((if is_num then hi else 0), t)).
  { intros t. destruct is_num; [apply read_uleb128_write; lia | reflexivity]. }
  destruct (Z.ltb_spec lo 64) as [Hsmall|Hbig].
  - destruct (first_byte_fields m 0 Hm ltac:(auto)) as (F1 & F2 & F3).
    rewrite Z.add_0_r in F1, F2, F3.
    cbn [app]. unfold LuaJIT.read_uleb128_33.
    rewrite byte_val_of_Z by lia.
    rewrite F1, F2, F3, Hbit, Hhalf, Hnum. cbn [Z.eqb].
    unfold bind at 1. unfold ret at 1. unfold bind.
    rewrite Hhi_read. unfold ret. rewrite Z.mod_small by lia. reflexivity.
  - destruct (first_byte_fields m 128 Hm ltac:(auto)) as (F1 & F2 & F3).
    rewrite group_set_top by lia.
    cbn [app]. unfold LuaJIT.read_uleb128_33.
    rewrite byte_val_of_Z by lia.
    rewrite F1, F2, F3, Hbit, Hhalf, Hnum. cbn [Z.eqb].
    unfold bind at 1.
    rewrite <- app_assoc. unfold LuaJIT.write_uleb128.
    rewrite Z.shiftr_div_pow2 by lia. change (2 ^ 6) with 64.
    assert (Hq : 0 <= lo / 64 < 2 ^ 26).
    { split; [apply Z.div_pos; lia|]. apply Z.div_lt_upper_bound; lia. }
    change ((128 =? 128)%positive) with true. cbv iota.
    rewrite read_uleb128_33_loop_groups; [| lia | simpl; lia | apply enough_rounds; lia].
    unfold bind. fold (LuaJIT.write_uleb128 hi).
    rewrite Hhi_read. unfold ret.
    rewrite (split_bits 6) by lia. reflexivity.
Qed.

Lemma read_knum_write_float (bits : Z) (tail : bytes) :
  0 <= bits < 2 ^ 64 ->
  LuaJIT.read_knum (LuaJIT.write_knum (LuaJIT.KFloat bits) ++ tail)
  = Ok (LuaJIT.KFloat bits, tail).
Proof.
  intros Hb. unfold LuaJIT.read_knum, LuaJIT.write_knum, bind.
  change 0xFFFFFFFF with (Z.ones 32).
  rewrite Z.land_ones, Z.shiftr_div_pow2 by lia.
  rewrite read_uleb128_33_write.
  - unfold ret, lift, LuaJIT.float_of_bits. rewrite (split_bits 32) by lia.
    destruct (Z.leb_spec 0 bits); [|lia].
    destruct (Z.ltb_spec bits (2 ^ 64)); [|lia]. reflexivity.
  - apply Z.mod_pos_bound. lia.
  - split; [apply Z.div_pos; lia|].
    apply Z.div_lt_upper_bound; lia.
Qed.

Lemma read_knum_write_int (v : Z) (tail : bytes) :
  - 2 ^ 31 <= v < 2 ^ 31 ->
  LuaJIT.read_knum (LuaJIT.write_knum (LuaJIT.KInt v) ++ tail)
  = Ok (LuaJIT.KInt v, tail).
Proof.
  intros Hv. unfold LuaJIT.read_knum, LuaJIT.write_knum, bind.
  change (Z.shiftl 1 32) with (2 ^ 32). change (Z.shiftl 1 31) with (2 ^ 31).
  rewrite read_uleb128_33_write by (destruct (Z.ltb_spec v 0); lia).
  unfold ret. destruct (Z.ltb_spec v 0).
  - destruct (Z.geb_spec (v + 2 ^ 32) (2 ^ 31)); [|lia].
    do 3 f_equal. lia.
  - destruct (Z.geb_spec v (2 ^ 31)); [lia|]. reflexivity.
Qed.

End Uleb128_33.

(** C4. For every representable value, decoding the encoded value gives
    the value back, independently for each scheme: the MSB-terminated
    big-endian size varint of Lua 5.4 ([read_size] after [_write_size],
    for every value below 2^64, zero included), the LSB-first ULEB128
    of LuaJIT (values below 2^35, what five groups hold), and the two
    branches of the 33-bit variant (signed 32-bit integers, 64-bit float
    patterns).  Whatever follows the encoding is left unread. *)
Theorem C4_varint_round_trip :
  (forall v tail, 0 <= v < 2 ^ 64 ->
     read_size (_write_size v ++ tail) = Ok (v, tail))
  /\ (forall v tail, 0 <= v < 2 ^ 35 ->
        LuaJIT.read_uleb128 (LuaJIT.write_uleb128 v ++ tail) = Ok (v, tail))
  /\ (forall i tail, - 2 ^ 31 <= i < 2 ^ 31 ->
        LuaJIT.read_knum (LuaJIT.write_knum (LuaJIT.KInt i) ++ tail)
        = Ok (LuaJIT.KInt i, tail))
  /\ (forall bits tail, 0 <= bits < 2 ^ 64 ->
        LuaJIT.read_knum (LuaJIT.write_knum (LuaJIT.KFloat bits) ++ tail)
        = Ok (LuaJIT.KFloat bits, tail)).
Proof.
  split; [|split; [|split]].
  - intros v tail Hv. apply read_size_write_size. exact Hv.
  - intros v tail Hv. apply read_uleb128_write. exact Hv.
  - intros i tail Hi. apply read_knum_write_int. exact Hi.
  - intros bits tail Hb. apply read_knum_write_float. exact Hb.
Qed.

Lemma C4_varint_round_trip_witness :
  read_size (_write_size 0 ++ []) = Ok (0, [])
  /\ read_size (_write_size 300 ++ []) = Ok (300, [])
  /\ LuaJIT.read_uleb128 (LuaJIT.write_uleb128 300 ++ []) = Ok (300, [])
  /\ LuaJIT.read_knum (LuaJIT.write_knum (LuaJIT.KInt (-5)) ++ [])
     = Ok (LuaJIT.KInt (-5), [])
  /\ LuaJIT.read_knum (LuaJIT.write_knum (LuaJIT.KFloat LUAC_NUM) ++ [])
     = Ok (LuaJIT.KFloat LUAC_NUM, []).
Proof.
  destruct C4_varint_round_trip as (H1 & H2 & H3 & H4).
  split; [apply H1; lia|].
  split; [apply H1; lia|].
  split; [apply H2; lia|].
  split; [apply H3; lia|].
  apply H4. unfold LUAC_NUM. lia.
Defined.

(* ----------------------------------------------------------------- *)
(** ** Instruction decoding never fails *)

Section DecodeInstruction.

Lemma opcode_range (w : Z) : 0 <= Z.land w 0x7F < 128.
Proof. rewrite land_127. apply Z.mod_pos_bound. lia. Qed.

Lemma opcode_info_known (op : Z) :
  0 <= op <= 82 -> exists name mode, opcode_info op = Some (name, mode).
Proof.
  intros H. unfold opcode_info.
  destruct (Z.ltb_spec op 0); [lia|].
  destruct (nth_error OPCODE_INFO (Z.to_nat op)) as [[name mode]|] eqn:E.
  - exists name, mode. reflexivity.
  - apply nth_error_None in E. change (List.length OPCODE_INFO) with 83%nat in E. lia.
Qed.

Lemma opcode_info_unknown (op : Z) : 82 < op -> opcode_info op = None.
Proof.
  intros H. unfold opcode_info.
  destruct (Z.ltb_spec op 0); [lia|].
  apply nth_error_None. change (List.length OPCODE_INFO) with 83%nat. lia.
Qed.

Lemma decode_instruction_opcode (w : Z) :
  dict_get "opcode" (decode_instruction w) = Some (VInt (Z.land w 0x7F)).
Proof.
  unfold decode_instruction.
  destruct (opcode_info (Z.land w 127)) as [[name []]|]; reflexivity.
Qed.

Lemma decode_instruction_name (w : Z) :
  dict_get "name" (decode_instruction w)
  = Some (VStr (match opcode_info (Z.land w 0x7F) with
                | Some (name, _) => name
                | None => "UNKNOWN"
                end)).
Proof.
  unfold decode_instruction.
  destruct (opcode_info (Z.land w 127)) as [[name []]|]; reflexivity.
Qed.

End DecodeInstruction.

(** C5. Instruction decoding is total: [decode_instruction] is a plain
    function of the word (it has no error result), the opcode field of
    its view is the low seven bits of the word, and a word whose opcode
    lies outside the table (above 82) is decoded to the three entries
    raw, opcode and name, the name being "UNKNOWN". *)
Theorem C5_decode_instruction_total (w : Z) :
  dict_get "opcode" (decode_instruction w) = Some (VInt (Z.land w 0x7F))
  /\ opcode_of (decode_instruction w) = Z.land w 0x7F
  /\ (if Z.land w 0x7F <=? 82
      then exists name mode,
             opcode_info (Z.land w 0x7F) = Some (name, mode)
             /\ dict_get "name" (decode_instruction w) = Some (VStr name)
      else decode_instruction w
           = [("raw", VInt w); ("opcode", VInt (Z.land w 0x7F));
              ("name", VStr "UNKNOWN")]%string).
Proof.
  split; [apply decode_instruction_opcode|].
  split; [unfold opcode_of; rewrite decode_instruction_opcode; reflexivity|].
  pose proof (opcode_range w) as Hr.
  destruct (Z.leb_spec (Z.land w 0x7F) 82) as [Hk|Hu].
  - destruct (opcode_info_known (Z.land w 0x7F) ltac:(lia)) as (name & mode & E).
    exists name, mode. split; [exact E|].
    rewrite decode_instruction_name, E. reflexivity.
  - unfold decode_instruction. rewrite opcode_info_unknown by lia. reflexivity.
Qed.

(* ----------------------------------------------------------------- *)
(** ** The tag of a re-encoded string constant *)

Section StringConstantTag.

Lemma read_byte_with_raw_cons (b : byte) (s : bytes) :
  read_byte_with_raw (b :: s) = Ok ((byte_val b, [b]), s).
Proof. reflexivity. Qed.

Lemma read_constant_string_tag (t : Z) (payload : bytes) :
  t = VSHRSTR \/ t = VLNGSTR ->
  const_value (read_constant (byte_of_Z t :: payload))
  = match read_string_with_raw payload with
    | Ok ((Some s, _), _) => Some (CStr s)
    | Ok ((None, _), _) => Some CNone
    | Err _ => None
    end.
Proof.
  intros [-> | ->]; unfold read_constant; unfold bind at 1;
    rewrite read_byte_with_raw_cons; cbv beta iota;
    [change (byte_val (byte_of_Z VSHRSTR)) with 20
    |change (byte_val (byte_of_Z VLNGSTR)) with 36];
    decide_ifs; unfold bind, ret;
    destruct (read_string_with_raw payload) as [[[[s|] raw] rest]|e]; reflexivity.
Qed.

End StringConstantTag.

(** C10. When the constant table is re-encoded, a string constant is
    written with the short-string tag 20 exactly when it has at most 40
    characters and with the long-string tag 36 otherwise, and the text
    follows as [_write_string] writes it.  The reader keeps no trace of
    the tag: tags 20 and 36 in front of the same payload give the same
    constant.  So decoding then encoding can change the tag byte of a
    constant nobody modified: a table holding "hi" under tag 36 comes
    back under tag 20. *)
Theorem C10_string_constant_tag :
  (forall s : str,
     _write_constant (CStr s)
     = rbind (_write_string (Some s))
         (fun text =>
            Ok (byte_of_Z (if Z.of_nat (List.length s) <=? 40
                           then VSHRSTR else VLNGSTR) :: text)))
  /\ (forall payload : bytes,
        const_value (read_constant (byte_of_Z VSHRSTR :: payload))
        = const_value (read_constant (byte_of_Z VLNGSTR :: payload)))
  /\ (exists proto,
        read_constants empty_proto long_tagged_hi = Ok (proto, [])
        /\ constants proto = [CStr [0x68; 0x69]]
        /\ _write_constants proto = Ok (bytes_of [0x81; 20; 0x83; 0x68; 0x69])).
Proof.
  split; [|split].
  - intros s. unfold _write_constant.
    destruct (Z.of_nat (List.length s) <=? 40); cbn [pack_B];
      unfold pack_B; cbn; destruct (_write_string (Some s)); reflexivity.
  - intros payload.
    rewrite !read_constant_string_tag by auto. reflexivity.
  - eexists. split; [vm_compute; reflexivity|]. split; vm_compute; reflexivity.
Qed.

(* ----------------------------------------------------------------- *)
(** ** The transform and the key *)

Section KeyGuard.

Lemma guard_returns (c : Cipher) (proto : Proto) :
  encrypt_mode c = false \/ key_missing c = true ->
  encrypt_proto_code c proto = Ok proto /\ decrypt_proto_code c proto = Ok proto.
Proof.
  intros H.
  assert (G : negb (encrypt_mode c) || key_missing c = true).
  { destruct H as [-> | ->]; [reflexivity | apply orb_true_r]. }
  destruct proto; cbn [encrypt_proto_code decrypt_proto_code]; rewrite G; auto.
Qed.

Lemma code_data_needs_key (c : Cipher) (data : bytes) :
  key_missing c = true ->
  encrypt_code_data c data = Err ValueError_no_key
  /\ decrypt_code_data c data = Err ValueError_no_key.
Proof.
  unfold key_missing, encrypt_code_data, decrypt_code_data.
  destruct (encryption_key c) as [[|k key]|]; simpl; intros H;
    try discriminate; auto.
Qed.

End KeyGuard.

(** The claim C9 as stated fails: with an empty key the tree-wide
    transform returns normally and the tree is what it was. *)
Lemma C9_counterexample :
  encrypt_proto_code (set_encryption_key [] cipher_init) sample_tree
  = Ok sample_tree
  /\ encrypt_proto_code (set_encryption_key [] cipher_init) sample_tree
     <> Err ValueError_no_key.
Proof. split; [reflexivity | discriminate]. Qed.

(** C9, amended. Only the transform of one byte segment
    ([encrypt_code_data], [decrypt_code_data]) requires a key and fails
    with the key-not-set error when it is missing or empty.  The
    tree-wide transform ([encrypt_proto_code], [decrypt_proto_code])
    first checks the mode and the key; when the mode is off or the key is
    missing or empty it returns without an error and leaves the tree as
    it is, so the segment transform is never reached. *)
Theorem C9_key_guard (c : Cipher) (proto : Proto) (data : bytes) :
  key_missing c = true ->
  encrypt_proto_code c proto = Ok proto
  /\ decrypt_proto_code c proto = Ok proto
  /\ encrypt_code_data c data = Err ValueError_no_key
  /\ decrypt_code_data c data = Err ValueError_no_key.
Proof.
  intros H.
  destruct (guard_returns c proto (or_intror H)) as [E D].
  destruct (code_data_needs_key c data H) as [E' D'].
  auto.
Qed.

Lemma C9_key_guard_witness :
  encrypt_proto_code (set_encryption_key [] cipher_init) sample_tree = Ok sample_tree
  /\ decrypt_proto_code (set_encryption_key [] cipher_init) sample_tree = Ok sample_tree
  /\ encrypt_code_data (set_encryption_key [] cipher_init) (bytes_of [1; 2; 3])
     = Err ValueError_no_key
  /\ decrypt_code_data (set_encryption_key [] cipher_init) (bytes_of [1; 2; 3])
     = Err ValueError_no_key.
Proof.
  apply (C9_key_guard (set_encryption_key [] cipher_init) sample_tree
           (bytes_of [1; 2; 3])).
  reflexivity.
Defined.

(* ----------------------------------------------------------------- *)
(** ** The XOR transform is an involution *)

Section ProtoInduction.

Variable P : Proto -> Prop.
Hypothesis step :
  forall src ld lld np va ms cd ks us ps li ali lv un o,
    Forall P ps ->
    P (mkProto src ld lld np va ms cd ks us ps li ali lv un o).

(** Induction on a prototype with the hypothesis for every child. *)
Lemma Proto_tree_ind : forall p : Proto, P p.
Proof.
  fix IH 1.
  intros [src ld lld np va ms cd ks us ps li ali lv un o].
  apply step.
  induction ps as [|q l IHl]; constructor; [apply IH | exact IHl].
Qed.

End ProtoInduction.

Section XorBytes.

Lemma lxor_byte_range (a k : Z) :
  0 <= a < 256 -> 0 <= k < 256 -> 0 <= Z.lxor a k < 256.
Proof.
  intros Ha Hk.
  assert (Hn : 0 <= Z.lxor a k) by (apply Z.lxor_nonneg; lia).
  split; [exact Hn|].
  destruct (Z.eq_dec (Z.lxor a k) 0) as [->|Hnz]; [lia|].
  change 256 with (2 ^ 8). apply Z.log2_lt_pow2; [lia|].
  pose proof (Z.log2_lxor a k ltac:(lia) ltac:(lia)) as Hl.
  assert (La : Z.log2 a < 8).
  { destruct (Z.eq_dec a 0) as [->|]; [simpl; lia|].
    apply Z.log2_lt_pow2; simpl; lia. }
  assert (Lk : Z.log2 k < 8).
  { destruct (Z.eq_dec k 0) as [->|]; [simpl; lia|].
    apply Z.log2_lt_pow2; simpl; lia. }
  lia.
Qed.

Lemma xor_at_twice (key : bytes) (pos : nat) (b : byte) :
  xor_at key pos (xor_at key pos b) = b.
Proof.
  unfold xor_at.
  set (k := byte_val (nth (pos mod List.length key) key x00)).
  pose proof (byte_val_range b). pose proof (byte_val_range (nth (pos mod List.length key) key x00)).
  rewrite byte_val_of_Z by (apply lxor_byte_range; assumption).
  rewrite Z.lxor_assoc, Z.lxor_nilpotent, Z.lxor_0_r.
  apply byte_of_Z_val.
Qed.

Lemma xor_from_twice (key : bytes) (data : bytes) :
  forall pos, xor_from key pos (xor_from key pos data) = data.
Proof.
  induction data as [|b data IH]; intros pos; [reflexivity|].
  simpl. rewrite xor_at_twice, IH. reflexivity.
Qed.

Lemma xor_from_length (key : bytes) (data : bytes) :
  forall pos, List.length (xor_from key pos data) = List.length data.
Proof.
  induction data as [|b data IH]; intros pos; [reflexivity|].
  simpl. rewrite IH. reflexivity.
Qed.

Lemma xor_from_app (key : bytes) (l1 l2 : bytes) :
  forall pos,
    xor_from key pos (l1 ++ l2)
    = xor_from key pos l1 ++ xor_from key (pos + List.length l1) l2.
Proof.
  induction l1 as [|b l1 IH]; intros pos; simpl.
  - rewrite Nat.add_0_r. reflexivity.
  - rewrite IH. do 3 f_equal. lia.
Qed.

(** One round of the outer loop handles the next four bytes, or what is
    left of them. *)
Lemma xor_group_spec (key data : bytes) (i : nat) :
  xor_group key data i = xor_from key i (firstn 4 (skipn i data)).
Proof.
  unfold xor_group.
  pose proof (length_skipn i data) as Hlen.
  assert (Hnth : forall k, nth (i + k) data x00 = nth k (skipn i data) x00)
    by (intros k; symmetry; apply nth_skipn).
  rewrite !Hnth.
  destruct (skipn i data) as [|a [|b [|c [|d t]]]]; simpl in Hlen;
    repeat match goal with
           | |- context [(?n <=? ?m)%nat] => destruct (Nat.leb_spec n m); try lia
           end;
    simpl; unfold xor_at; rewrite ?Nat.add_0_r;
    repeat (f_equal; try (do 2 f_equal; lia)).
Qed.

Lemma firstn_plus (A : Type) (n m : nat) (l : list A) :
  firstn (n + m) l = firstn n l ++ firstn m (skipn n l).
Proof.
  revert l. induction n as [|n IH]; intros l; [reflexivity|].
  destruct l as [|a l]; simpl.
  - rewrite firstn_nil. reflexivity.
  - rewrite IH. reflexivity.
Qed.

Lemma flat_map_groups (key data : bytes) (n : nat) :
  forall g,
    flat_map (xor_group key data) (map (fun i => (4 * i)%nat) (seq g n))
    = xor_from key (4 * g) (firstn (4 * n) (skipn (4 * g) data)).
Proof.
  induction n as [|n IH]; intros g.
  - simpl. reflexivity.
  - cbn [seq map flat_map]. rewrite IH, xor_group_spec.
    replace (4 * S n)%nat with (4 + 4 * n)%nat by lia.
    rewrite firstn_plus, xor_from_app, skipn_skipn.
    replace (4 + 4 * g)%nat with (4 * S g)%nat by lia.
    f_equal.
    destruct (Nat.le_gt_cases 4 (List.length (skipn (4 * g) data))) as [Hfull|Hshort].
    + rewrite length_firstn, Nat.min_l by exact Hfull. f_equal. lia.
    + rewrite length_skipn in Hshort.
      rewrite (skipn_all2 data) by lia.
      rewrite firstn_nil. reflexivity.
Qed.

Lemma flat_map_xor (key data : bytes) :
  flat_map (xor_group key data) (range4 (List.length data)) = xor_from key 0 data.
Proof.
  unfold range4. rewrite (flat_map_groups key data _ 0).
  simpl skipn. rewrite firstn_all2; [reflexivity|].
  pose proof (Nat.div_mod_eq (List.length data + 3) 4).
  pose proof (Nat.mod_upper_bound (List.length data + 3) 4). lia.
Qed.

End XorBytes.

(** Field updates on an explicit record. *)
Ltac proto_fields :=
  unfold set_ori, set_protos, set_code, set_source, set_header, set_constants,
    set_upvalues, set_debug;
  cbn [ori protos source linedefined lastlinedefined numparams is_vararg
       maxstacksize code constants upvalues lineinfo abslineinfo locvars
       upvalue_names].

Ltac proto_fields_in H :=
  unfold set_ori, set_protos, set_code, set_source, set_header, set_constants,
    set_upvalues, set_debug in H;
  cbn [ori protos source linedefined lastlinedefined numparams is_vararg
       maxstacksize code constants upvalues lineinfo abslineinfo locvars
       upvalue_names] in H.

Section XorTree.

Lemma split_size_app (raw : bytes) :
  forall sb d, split_size raw = (sb, d) -> raw = sb ++ d.
Proof.
  induction raw as [|b raw IH]; intros sb d H; simpl in H.
  - injection H as <- <-. reflexivity.
  - destruct (negb (Z.land (byte_val b) 128 =? 0)).
    + injection H as <- <-. reflexivity.
    + destruct (split_size raw) as [sb' d'].
      injection H as <- <-. simpl. f_equal. apply IH. reflexivity.
Qed.

(** The size prefix is found again in front of any data of the same
    length. *)
Lemma split_size_stable (raw : bytes) :
  forall sb d d',
    split_size raw = (sb, d) -> List.length d' = List.length d ->
    split_size (sb ++ d') = (sb, d').
Proof.
  induction raw as [|b raw IH]; intros sb d d' H Hl; simpl in H.
  - injection H as <- <-. destruct d'; [reflexivity | discriminate].
  - destruct (negb (Z.land (byte_val b) 128 =? 0)) eqn:Eb.
    + injection H as <- <-. simpl. rewrite Eb. reflexivity.
    + destruct (split_size raw) as [sb' d0] eqn:Es.
      injection H as <- <-. simpl. rewrite Eb.
      rewrite (IH sb' d0 d' eq_refl Hl). reflexivity.
Qed.

Lemma dict_get_set (V : Type) (k : string) (v : V) (d : list (string * V)) :
  dict_get k (dict_set k v d) = Some v.
Proof.
  induction d as [|[k' v'] d IH]; simpl.
  - rewrite String.eqb_refl. reflexivity.
  - destruct (String.eqb k k') eqn:E; simpl; rewrite E; auto.
Qed.

Lemma dict_set_set (V : Type) (k : string) (v1 v2 : V) (d : list (string * V)) :
  dict_set k v2 (dict_set k v1 d) = dict_set k v2 d.
Proof.
  induction d as [|[k' v'] d IH]; simpl.
  - rewrite String.eqb_refl. reflexivity.
  - destruct (String.eqb k k') eqn:E; simpl; rewrite E; [reflexivity|].
    rewrite IH. reflexivity.
Qed.

Lemma dict_set_same (V : Type) (k : string) (v : V) (d : list (string * V)) :
  dict_get k d = Some v -> dict_set k v d = d.
Proof.
  induction d as [|[k' v'] d IH]; simpl; intros H; [discriminate|].
  destruct (String.eqb k k') eqn:E.
  - injection H as ->. reflexivity.
  - rewrite IH by exact H. reflexivity.
Qed.

Lemma truthy_dict_set (V : Type) (k : string) (v : V) (d : list (string * V)) :
  truthy (dict_set k v d) = true.
Proof.
  destruct d as [|[k' v'] d]; simpl; [reflexivity|].
  destruct (String.eqb k k'); reflexivity.
Qed.

Lemma map_result_ok (f : Proto -> result Proto) (g : Proto -> Proto)
  (ps : list Proto) :
  Forall (fun p => f p = Ok (g p)) ps -> map_result f ps = Ok (map g ps).
Proof.
  induction 1 as [|p ps Hp _ IH]; simpl; [reflexivity|].
  rewrite Hp. simpl. rewrite IH. reflexivity.
Qed.

(** With the mode on and a key that is not empty, both tree transforms
    compute [xor_tree]. *)
Lemma encrypt_proto_code_spec (key : bytes) (c : Cipher) :
  encrypt_mode c = true -> encryption_key c = Some key -> key <> [] ->
  forall proto, encrypt_proto_code c proto = Ok (xor_tree key proto).
Proof.
  intros Hm Hk Hne.
  assert (G : negb (encrypt_mode c) || key_missing c = false).
  { unfold key_missing. rewrite Hm, Hk. destruct key; [contradiction | reflexivity]. }
  assert (Hdata : forall d, encrypt_code_data c d = Ok (xor_from key 0 d)).
  { intros d. unfold encrypt_code_data. rewrite Hk.
    destruct key; [contradiction|]. simpl (_ =? _)%nat.
    rewrite flat_map_xor. reflexivity. }
  induction proto as [src ld lld np va ms cd ks us ps li ali lv un o IH]
    using Proto_tree_ind.
  cbn [encrypt_proto_code xor_tree]. rewrite G. cbn [ori protos].
  rewrite (map_result_ok _ (xor_tree key) ps IH).
  destruct (truthy o); [|reflexivity].
  destruct (dict_get "code" o) as [code_raw|]; [|reflexivity].
  destruct (split_size code_raw) as [sb d].
  rewrite Hdata. reflexivity.
Qed.

Lemma decrypt_proto_code_spec (key : bytes) (c : Cipher) :
  encrypt_mode c = true -> encryption_key c = Some key -> key <> [] ->
  forall proto, decrypt_proto_code c proto = Ok (xor_tree key proto).
Proof.
  intros Hm Hk Hne.
  assert (G : negb (encrypt_mode c) || key_missing c = false).
  { unfold key_missing. rewrite Hm, Hk. destruct key; [contradiction | reflexivity]. }
  assert (Hdata : forall d, decrypt_code_data c d = Ok (xor_from key 0 d)).
  { intros d. unfold decrypt_code_data. rewrite Hk.
    destruct key; [contradiction|]. simpl (_ =? _)%nat.
    rewrite flat_map_xor. reflexivity. }
  induction proto as [src ld lld np va ms cd ks us ps li ali lv un o IH]
    using Proto_tree_ind.
  cbn [decrypt_proto_code xor_tree]. rewrite G. cbn [ori protos].
  rewrite (map_result_ok _ (xor_tree key) ps IH).
  destruct (truthy o); [|reflexivity].
  destruct (dict_get "code" o) as [code_raw|]; [|reflexivity].
  destruct (split_size code_raw) as [sb d].
  rewrite Hdata. reflexivity.
Qed.

Lemma map_twice_id (f : Proto -> Proto) (ps : list Proto) :
  Forall (fun p => f (f p) = p) ps -> map f (map f ps) = ps.
Proof.
  induction 1 as [|p ps Hp _ IH]; simpl; [reflexivity|].
  rewrite Hp, IH. reflexivity.
Qed.

Lemma xor_tree_twice (key : bytes) (proto : Proto) :
  xor_tree key (xor_tree key proto) = proto.
Proof.
  induction proto as [src ld lld np va ms cd ks us ps li ali lv un o IH]
    using Proto_tree_ind.
  cbn [xor_tree ori protos].
  destruct (truthy o) eqn:Ht.
  - destruct (dict_get "code" o) as [code_raw|] eqn:Eg.
    + destruct (split_size code_raw) as [sb d] eqn:Es.
      proto_fields. cbn [xor_tree]. proto_fields.
      rewrite truthy_dict_set, dict_get_set.
      rewrite (split_size_stable code_raw sb d _ Es (xor_from_length key d 0)).
      proto_fields.
      rewrite xor_from_twice, dict_set_set, <- (split_size_app _ _ _ Es).
      rewrite (dict_set_same _ _ _ _ Eg), (map_twice_id _ _ IH). reflexivity.
    + proto_fields. cbn [xor_tree]. proto_fields. rewrite Ht, Eg. proto_fields.
      rewrite (map_twice_id _ _ IH). reflexivity.
  - proto_fields. cbn [xor_tree]. proto_fields. rewrite Ht. proto_fields.
    rewrite (map_twice_id _ _ IH). reflexivity.
Qed.

End XorTree.

(** C2. For every tree and every key that is not empty, applying the
    instruction-stream transform twice with that key gives the tree
    back, whichever of [encrypt_proto_code] and [decrypt_proto_code] is
    used for each pass: the captured instruction span of every node and
    every other field are what they were. *)
Theorem C2_transform_involution (key : bytes) (T : Proto) :
  key <> [] ->
  let c := set_encryption_key key cipher_init in
  rbind (encrypt_proto_code c T) (decrypt_proto_code c) = Ok T
  /\ rbind (decrypt_proto_code c T) (encrypt_proto_code c) = Ok T
  /\ rbind (encrypt_proto_code c T) (encrypt_proto_code c) = Ok T
  /\ rbind (decrypt_proto_code c T) (decrypt_proto_code c) = Ok T.
Proof.
  intros Hne c.
  assert (E : forall p, encrypt_proto_code c p = Ok (xor_tree key p))
    by (apply encrypt_proto_code_spec; auto).
  assert (D : forall p, decrypt_proto_code c p = Ok (xor_tree key p))
    by (apply decrypt_proto_code_spec; auto).
  repeat split; rewrite ?E, ?D; cbn [rbind]; rewrite ?E, ?D, xor_tree_twice;
    reflexivity.
Qed.

Lemma C2_transform_involution_witness :
  let c := set_encryption_key (bytes_of [0x61; 0x62]) cipher_init in
  rbind (encrypt_proto_code c sample_tree) (decrypt_proto_code c) = Ok sample_tree
  /\ rbind (decrypt_proto_code c sample_tree) (encrypt_proto_code c) = Ok sample_tree
  /\ rbind (encrypt_proto_code c sample_tree) (encrypt_proto_code c) = Ok sample_tree
  /\ rbind (decrypt_proto_code c sample_tree) (decrypt_proto_code c) = Ok sample_tree.
Proof.
  apply (C2_transform_involution (bytes_of [0x61; 0x62]) sample_tree).
  discriminate.
Defined.

(* ----------------------------------------------------------------- *)
(** ** Opcode comparison *)

Section OpcodeComparison.

Lemma fold_left_extend (A : Type) (f : A -> list Z) (l : list A) :
  forall init,
    fold_left (fun acc x => acc ++ f x) l init = init ++ flat_map f l.
Proof.
  induction l as [|a l IH]; intros init; simpl.
  - rewrite app_nil_r. reflexivity.
  - rewrite IH, <- app_assoc. reflexivity.
Qed.

(** Preorder: the node's own instructions, then each child's. *)
Lemma extract_preorder (proto : Proto) :
  _extract_all_instructions proto
  = code proto ++ flat_map _extract_all_instructions (protos proto).
Proof.
  destruct proto. cbn [_extract_all_instructions code protos].
  rewrite fold_left_extend. reflexivity.
Qed.

Lemma map_get_snoc (k k' v : Z) (m : mapping) :
  map_get k (m ++ [(k', v)])
  = match map_get k m with
    | Some x => Some x
    | None => if k =? k' then Some v else None
    end.
Proof.
  induction m as [|[a b] m IH]; simpl; [reflexivity|].
  destruct (k =? a); [reflexivity | exact IH].
Qed.

Lemma first_seen_app (k : Z) (l1 l2 : list (Z * Z)) :
  first_seen k (l1 ++ l2)
  = match first_seen k l1 with
    | Some x => Some x
    | None => first_seen k l2
    end.
Proof.
  unfold first_seen. induction l1 as [|[a b] l1 IH]; simpl; [reflexivity|].
  destruct (k =? a); [reflexivity | exact IH].
Qed.

Lemma analyze_step_opcodes (st : mapping * list warning) (std_inst shuf_inst : Z) :
  analyze_step st (std_inst, shuf_inst)
  = let std_opcode := Z.land std_inst 0x7F in
    let shuf_opcode := Z.land shuf_inst 0x7F in
    match map_get std_opcode (fst st) with
    | Some recorded =>
        if negb (recorded =? shuf_opcode)
        then (fst st, snd st ++ [(std_opcode, recorded, shuf_opcode)])
        else (fst st, snd st)
    | None => (fst st ++ [(std_opcode, shuf_opcode)], snd st)
    end.
Proof.
  destruct st as [m w]. unfold analyze_step, opcode_of.
  rewrite !decode_instruction_opcode. reflexivity.
Qed.

(** The loop keeps two facts: the dict holds the first-seen value of
    every standard opcode met so far, and the warnings are the conflicts
    with those values. *)
Lemma analyze_invariant (insts : list (Z * Z)) :
  forall (seen : list (Z * Z)) (m : mapping) (w : list warning),
    (forall k, map_get k m = first_seen k seen) ->
    let pairs := map (fun pair => (Z.land (fst pair) 0x7F, Z.land (snd pair) 0x7F)) insts in
    let final := fold_left analyze_step insts (m, w) in
    (forall k, map_get k (fst final) = first_seen k (seen ++ pairs))
    /\ snd final
       = w ++ flat_map (fun pair =>
                          match first_seen (fst pair) (seen ++ pairs) with
                          | Some recorded =>
                              if negb (recorded =? snd pair)
                              then [(fst pair, recorded, snd pair)] else []
                          | None => []
                          end) pairs.
Proof.
  induction insts as [|[s h] insts IH]; intros seen m w Hm; cbn zeta.
  - simpl. rewrite !app_nil_r. auto.
  - cbn [fold_left map fst snd]. rewrite analyze_step_opcodes. cbn [fst snd].
    set (so := Z.land s 0x7F). set (ho := Z.land h 0x7F).
    set (pairs := map (fun pair => (Z.land (fst pair) 0x7F, Z.land (snd pair) 0x7F)) insts).
    replace (seen ++ (so, ho) :: pairs) with ((seen ++ [(so, ho)]) ++ pairs)
      by (rewrite <- app_assoc; reflexivity).
    assert (Hso : first_seen so ((seen ++ [(so, ho)]) ++ pairs)
                  = match map_get so m with Some x => Some x | None => Some ho end).
    { rewrite !first_seen_app, <- Hm.
      destruct (map_get so m); [reflexivity|].
      unfold first_seen. simpl. rewrite Z.eqb_refl. reflexivity. }
    cbn [flat_map fst snd]. rewrite Hso.
    destruct (map_get so m) as [recorded|] eqn:Eg.
    + assert (Hm' : forall k, map_get k m = first_seen k (seen ++ [(so, ho)])).
      { intros k. rewrite first_seen_app, <- Hm.
        destruct (map_get k m) eqn:Ek; [reflexivity|].
        unfold first_seen. simpl.
        destruct (Z.eqb_spec k so) as [->|]; [congruence | reflexivity]. }
      destruct (negb (recorded =? ho)).
      * destruct (IH (seen ++ [(so, ho)]) m (w ++ [(so, recorded, ho)]) Hm') as [H1 H2].
        split; [exact H1|]. fold pairs in H2. rewrite H2, <- app_assoc. reflexivity.
      * destruct (IH (seen ++ [(so, ho)]) m w Hm') as [H1 H2].
        split; [exact H1|]. fold pairs in H2. rewrite H2. reflexivity.
    + assert (Hm' : forall k, map_get k (m ++ [(so, ho)])
                              = first_seen k (seen ++ [(so, ho)])).
      { intros k. rewrite map_get_snoc, first_seen_app, <- Hm.
        destruct (map_get k m); [reflexivity|].
        unfold first_seen. simpl. destruct (k =? so); reflexivity. }
      rewrite Z.eqb_refl. cbn [negb app].
      destruct (IH (seen ++ [(so, ho)]) (m ++ [(so, ho)]) w Hm') as [H1 H2].
      split; [exact H1|]. fold pairs in H2. exact H2.
Qed.

Lemma analyze_first_seen (standard shuffled : list Z) :
  (forall k, map_get k (fst (_analyze_opcode_mapping standard shuffled))
             = first_seen k (opcode_pairs standard shuffled))
  /\ snd (_analyze_opcode_mapping standard shuffled)
     = conflicts (opcode_pairs standard shuffled).
Proof.
  pose proof (analyze_invariant (combine standard shuffled) [] [] []
                (fun k => eq_refl)) as H.
  cbn zeta in H. exact H.
Qed.

End OpcodeComparison.

(** C6. [compare_opcodes] flattens both trees by the same preorder walk
    (a node's own instructions, then each child's, recursively); once
    both files are parsed it fails with the count-mismatch error exactly
    when the flattened sequences differ in length, and otherwise returns
    the mapping and the printed warnings; the mapping sends every
    standard opcode to the shuffled opcode of its first aligned
    occurrence, and every later pair that disagrees with the recorded
    value is printed as a warning while the recorded value stays. *)
Theorem C6_compare_opcodes
  (standard_file shuffled_file : bytes) (standard shuffled : Proto) :
  parse standard_file = Ok standard ->
  parse shuffled_file = Ok shuffled ->
  let std_insts := _extract_all_instructions standard in
  let shuf_insts := _extract_all_instructions shuffled in
  (forall proto,
     _extract_all_instructions proto
     = code proto ++ flat_map _extract_all_instructions (protos proto))
  /\ (compare_opcodes standard_file shuffled_file = Err ValueError_count_mismatch
      <-> List.length std_insts <> List.length shuf_insts)
  /\ (List.length std_insts = List.length shuf_insts ->
      exists opcode_mapping printed,
        compare_opcodes standard_file shuffled_file = Ok (opcode_mapping, printed)
        /\ (forall k, map_get k opcode_mapping
                      = first_seen k (opcode_pairs std_insts shuf_insts))
        /\ printed = conflicts (opcode_pairs std_insts shuf_insts)).
Proof.
  intros Hs Hh std_insts shuf_insts.
  split; [exact extract_preorder|].
  unfold compare_opcodes. rewrite Hs, Hh. cbn [rbind].
  fold std_insts shuf_insts.
  destruct (Nat.eqb_spec (List.length std_insts) (List.length shuf_insts)) as [E|N];
    cbn [negb].
  - split; [split; [discriminate | intros H; contradiction]|].
    intros _.
    destruct (analyze_first_seen std_insts shuf_insts) as [H1 H2].
    destruct (_analyze_opcode_mapping std_insts shuf_insts) as [m w].
    exists m, w. auto.
  - split; [split; [intros _; exact N | reflexivity]|].
    intros E. contradiction.
Qed.

Lemma C6_compare_opcodes_witness :
  parse (sample_file 5) = Ok (parsed (sample_file 5))
  /\ parse (sample_file 9) = Ok (parsed (sample_file 9))
  /\ exists opcode_mapping printed,
       compare_opcodes (sample_file 5) (sample_file 9) = Ok (opcode_mapping, printed)
       /\ (forall k, map_get k opcode_mapping
                     = first_seen k
                         (opcode_pairs
                            (_extract_all_instructions (parsed (sample_file 5)))
                            (_extract_all_instructions (parsed (sample_file 9)))))
       /\ printed
          = conflicts
              (opcode_pairs
                 (_extract_all_instructions (parsed (sample_file 5)))
                 (_extract_all_instructions (parsed (sample_file 9)))).
Proof.
  assert (Hs : parse (sample_file 5) = Ok (parsed (sample_file 5)))
    by (vm_compute; reflexivity).
  assert (Hh : parse (sample_file 9) = Ok (parsed (sample_file 9)))
    by (vm_compute; reflexivity).
  split; [exact Hs|]. split; [exact Hh|].
  destruct (C6_compare_opcodes _ _ _ _ Hs Hh) as (_ & _ & H).
  apply H. vm_compute. reflexivity.
Defined.

(* ----------------------------------------------------------------- *)
(** ** The header check *)

Section HeaderCheck.

(** Whatever the two test values are, [check_header] accepts the header
    and stops right after it. *)
Lemma check_header_any_test_values (test_int test_num : Z) (rest : bytes) :
  check_header (header_prefix ++ le_bytes 8 test_int ++ le_bytes 8 test_num ++ rest)
  = Ok (tt, rest).
Proof. reflexivity. Qed.

End HeaderCheck.

(** C8 (the code does not do what the claim says). A Lua 5.4 file with
    the right signature and version byte is accepted whatever its two
    test values are: [check_header] reads the test integer and the test
    float and never compares them with 0x5678 and 370.5.  In particular
    the file whose test values are 0 and 0 parses to the same prototype
    as the file with the reference values. *)
Theorem C8_test_values_ignored :
  (forall test_int test_num rest,
     check_header (header_prefix ++ le_bytes 8 test_int ++ le_bytes 8 test_num ++ rest)
     = Ok (tt, rest))
  /\ file_with_test_values 0 0 <> file_with_test_values LUAC_INT LUAC_NUM
  /\ file_with_test_values LUAC_INT LUAC_NUM = sample_file 5
  /\ parse (file_with_test_values 0 0) = Ok (parsed (sample_file 5))
  /\ parse (sample_file 5) = Ok (parsed (sample_file 5)).
Proof.
  split; [exact check_header_any_test_values|].
  split; [vm_compute; discriminate|].
  split; [vm_compute; reflexivity|].
  split; vm_compute; reflexivity.
Qed.

(* ----------------------------------------------------------------- *)
(** ** Counts and lengths read from the file *)

Section Counts.

Lemma le_bytes_length (n : nat) : forall v, List.length (le_bytes n v) = n.
Proof. induction n as [|n IH]; intros v; simpl; [|rewrite IH]; reflexivity. Qed.

Lemma le_value_le_bytes (n : nat) :
  forall v, le_value (le_bytes n v) = v mod 256 ^ Z.of_nat n.
Proof.
  induction n as [|n IH]; intros v.
  - simpl. rewrite Z.mod_1_r. reflexivity.
  - cbn [le_bytes le_value]. rewrite IH.
    rewrite byte_val_of_Z by (apply Z.mod_pos_bound; lia).
    rewrite Nat2Z.inj_succ, Z.pow_succ_r by lia.
    rewrite Z.rem_mul_r; [reflexivity | lia |].
    apply Z.pow_pos_nonneg; lia.
Qed.

Lemma firstn_app_exact (A : Type) (l1 l2 : list A) :
  firstn (List.length l1) (l1 ++ l2) = l1.
Proof.
  rewrite <- (Nat.add_0_r (List.length l1)), firstn_app_2.
  simpl. apply app_nil_r.
Qed.

Lemma skipn_app_exact (A : Type) (l1 l2 : list A) :
  skipn (List.length l1) (l1 ++ l2) = l2.
Proof.
  rewrite skipn_app, skipn_all, Nat.sub_diag. reflexivity.
Qed.

(** [file.read(n)] when at least [n] bytes are left. *)
Lemma file_read_exact (chunk rest : bytes) :
  Z.of_nat (List.length chunk) <= maxsize ->
  file_read (Z.of_nat (List.length chunk)) (chunk ++ rest) = Ok (chunk, rest).
Proof.
  intros Hmax.
  unfold file_read. destruct (Z.ltb_spec (Z.of_nat (List.length chunk)) 0); [lia|].
  destruct (Z.gtb_spec (Z.of_nat (List.length chunk)) maxsize); [lia|].
  rewrite Nat2Z.id, firstn_app_exact, skipn_app_exact. reflexivity.
Qed.

(** One round of the loop of [read_code]. *)
Lemma read_instruction (inst : Z) (rest : bytes) :
  0 <= inst < 2 ^ 32 ->
  (inst_raw <- file_read 4 ;;
   inst <- lift (unpack_I inst_raw) ;;
   ret (inst, inst_raw))%reader (le_bytes 4 inst ++ rest)
  = Ok ((inst, le_bytes 4 inst), rest).
Proof.
  intros H. unfold bind.
  pose proof (file_read_exact (le_bytes 4 inst) rest) as E.
  rewrite le_bytes_length in E. change (Z.of_nat 4) with 4 in E.
  rewrite E by (unfold maxsize; lia).
  unfold lift, unpack_I. rewrite le_bytes_length. cbn [Nat.eqb].
  rewrite le_value_le_bytes. change (256 ^ Z.of_nat 4) with (2 ^ 32).
  rewrite Z.mod_small by lia. reflexivity.
Qed.

Lemma read_loop_instructions (insts : list Z) :
  forall acc raw rest,
    Forall (fun inst => 0 <= inst < 2 ^ 32) insts ->
    read_loop (List.length insts)
      (inst_raw <- file_read 4 ;;
       inst <- lift (unpack_I inst_raw) ;;
       ret (inst, inst_raw))%reader
      acc raw (flat_map (le_bytes 4) insts ++ rest)
    = Ok ((acc ++ insts, raw ++ flat_map (le_bytes 4) insts), rest).
Proof.
  induction insts as [|inst insts IH]; intros acc raw rest H.
  - simpl. rewrite !app_nil_r. reflexivity.
  - inversion H as [|? ? Hi Hrest]; subst.
    cbn [List.length read_loop flat_map]. rewrite <- app_assoc.
    unfold bind at 1. rewrite (read_instruction inst _ Hi).
    rewrite IH by exact Hrest.
    rewrite <- !app_assoc. reflexivity.
Qed.

(** A code group is read in full whatever its count is. *)
Lemma read_code_full (proto : Proto) (insts : list Z) (rest : bytes) :
  Forall (fun inst => 0 <= inst < 2 ^ 32) insts ->
  Z.of_nat (List.length insts) < 2 ^ 64 ->
  let code_raw :=
    _write_size (Z.of_nat (List.length insts)) ++ flat_map (le_bytes 4) insts in
  read_code proto (code_raw ++ rest)
  = Ok (set_ori "code" code_raw (set_code insts proto), rest).
Proof.
  intros Hi Hn code_raw. unfold read_code, code_raw.
  rewrite <- app_assoc. unfold bind at 1.
  rewrite read_size_with_raw_write_size by lia.
  unfold range. rewrite Nat2Z.id.
  unfold bind. rewrite (read_loop_instructions insts [] _ rest Hi).
  reflexivity.
Qed.

(** The one bound there is: a size is below [2^64], because the loop
    refuses a further group once the value has reached [limit]. *)
Lemma read_size_loop_bound (s : bytes) :
  forall x v s', 0 <= x -> read_size_loop x s = Ok (v, s') -> 0 <= v < 2 ^ 64.
Proof.
  induction s as [|b s IH]; intros x v s' Hx H; [discriminate|].
  cbn [read_size_loop] in H.
  destruct (Z.geb_spec x limit) as [|Hlt]; [discriminate|].
  rewrite limit_value in Hlt.
  pose proof (Z.mod_pos_bound (byte_val b) 128 ltac:(lia)) as Hg.
  rewrite land_127, shl7_or in H by exact Hg.
  destruct (negb (Z.land (byte_val b) 128 =? 0)).
  - assert (E : v = 128 * x + byte_val b mod 128) by congruence. lia.
  - apply (IH (128 * x + byte_val b mod 128) v s'); [lia | exact H].
Qed.

Lemma read_size_loop_overflow (x : Z) (b : byte) (s : bytes) :
  limit <= x -> read_size_loop x (b :: s) = Err ValueError_overflow.
Proof.
  intros H. cbn [read_size_loop].
  destruct (Z.geb_spec x limit); [reflexivity | lia].
Qed.

(** One round of the loop of [read_code] on any input: four bytes make an
    instruction, fewer make the [struct.error] of [struct.unpack]. *)
Lemma read_instruction_any (s : bytes) :
  (inst_raw <- file_read 4 ;;
   inst <- lift (unpack_I inst_raw) ;;
   ret (inst, inst_raw))%reader s
  = if (4 <=? List.length s)%nat
    then Ok ((le_value (firstn 4 s), firstn 4 s), skipn 4 s)
    else Err StructError.
Proof.
  unfold bind, file_read, lift, unpack_I, ret.
  change (4 <? 0) with false. change (4 >? maxsize) with false. cbv iota.
  change (Z.to_nat 4) with 4%nat. rewrite length_firstn.
  destruct (Nat.leb_spec 4 (List.length s)).
  - rewrite Nat.min_l by lia. reflexivity.
  - rewrite Nat.min_r by lia.
    destruct (Nat.eqb_spec (List.length s) 4); [lia | reflexivity].
Qed.

(** The loop of [read_code] over fewer bytes than the count asks for. *)
Lemma read_loop_instructions_short (n : nat) :
  forall acc raw s,
    (List.length s < 4 * n)%nat ->
    read_loop n
      (inst_raw <- file_read 4 ;;
       inst <- lift (unpack_I inst_raw) ;;
       ret (inst, inst_raw))%reader acc raw s
    = Err StructError.
Proof.
  induction n as [|n IH]; intros acc raw s H; [lia|].
  cbn [read_loop]. unfold bind at 1. rewrite read_instruction_any.
  destruct (Nat.leb_spec 4 (List.length s)); [|reflexivity].
  apply IH. rewrite length_skipn. lia.
Qed.

Lemma read_code_short (proto : Proto) (n : Z) (s : bytes) :
  0 <= n < 2 ^ 64 ->
  Z.of_nat (List.length s) < 4 * n ->
  read_code proto (_write_size n ++ s) = Err StructError.
Proof.
  intros Hn Hs. unfold read_code. unfold bind at 1.
  rewrite read_size_with_raw_write_size by exact Hn.
  unfold bind. rewrite read_loop_instructions_short; [reflexivity|].
  unfold range. lia.
Qed.

(** [read_string] on a size [file.read] refuses. *)
Lemma read_string_overflow (size : Z) (s : bytes) :
  2 ^ 63 < size < 2 ^ 64 ->
  read_string (_write_size size ++ s) = Err OverflowError.
Proof.
  intros H. unfold read_string. unfold bind at 1.
  rewrite read_size_write_size by lia.
  destruct (Z.eqb_spec size 0); [lia|].
  unfold bind, file_read, maxsize.
  destruct (Z.ltb_spec (size - 1) 0); [lia|].
  destruct (Z.gtb_spec (size - 1) (2 ^ 63 - 1)); [reflexivity | lia].
Qed.

(** A string whose text is all there, read without the raw capture. *)
Lemma read_string_data (data rest : bytes) :
  Z.of_nat (List.length data) < 2 ^ 63 ->
  read_string (_write_size (Z.of_nat (List.length data) + 1) ++ data ++ rest)
  = Ok (Some (Utf8.decode_replace data), rest).
Proof.
  intros H. unfold read_string. unfold bind at 1.
  rewrite read_size_write_size by lia.
  destruct (Z.eqb_spec (Z.of_nat (List.length data) + 1) 0); [lia|].
  unfold bind.
  replace (Z.of_nat (List.length data) + 1 - 1) with (Z.of_nat (List.length data)) by lia.
  rewrite file_read_exact by (unfold maxsize; lia). reflexivity.
Qed.

End Counts.




(* ----------------------------------------------------------------- *)
(** ** Truncated input *)

Section TruncatedLua54.

(** A size varint that is cut off: every byte left has its top bit
    clear, so the loop runs into the end of the file or into the limit. *)
Lemma read_size_with_raw_cut (s : bytes) :
  forall x raw,
    Forall (fun b => byte_val b < 128) s ->
    read_size_with_raw_loop x raw s = Err StructError
    \/ read_size_with_raw_loop x raw s = Err ValueError_overflow.
Proof.
  induction s as [|b s IH]; intros x raw H; [left; reflexivity|].
  inversion H as [|? ? Hb Hs]; subst.
  cbn [read_size_with_raw_loop].
  destruct (x >=? limit); [right; reflexivity|].
  rewrite land_128_low by (pose proof (byte_val_range b); lia).
  cbn [Z.eqb negb]. apply IH. exact Hs.
Qed.

Lemma check_header_reference (rest : bytes) :
  check_header (bytes_of reference_header ++ rest) = Ok (tt, rest).
Proof. reflexivity. Qed.

Lemma read_byte_cons (b : byte) (rest : bytes) :
  read_byte (b :: rest) = Ok (byte_val b, rest).
Proof. reflexivity. Qed.

(** A string whose text is all there. *)
Lemma read_string_with_raw_data (data rest : bytes) :
  Z.of_nat (List.length data) < 2 ^ 63 ->
  read_string_with_raw
    (_write_size (Z.of_nat (List.length data) + 1) ++ data ++ rest)
  = Ok ((Some (Utf8.decode_replace data),
         _write_size (Z.of_nat (List.length data) + 1) ++ data), rest).
Proof.
  intros H. unfold read_string_with_raw. unfold bind at 1.
  rewrite read_size_with_raw_write_size by lia.
  destruct (Z.eqb_spec (Z.of_nat (List.length data) + 1) 0); [lia|].
  unfold bind.
  replace (Z.of_nat (List.length data) + 1 - 1) with (Z.of_nat (List.length data)) by lia.
  rewrite file_read_exact by (unfold maxsize; lia). reflexivity.
Qed.

End TruncatedLua54.

Section TruncatedConstants.

(** One step of a reader chain whose first reader is known. *)
Ltac run_with E := unfold bind at 1; rewrite E; cbv beta iota.

(** A file that ends inside the constants count of the main prototype
    is rejected as a whole: what holds of the two errors of the size
    reader holds of the result of [parse]. *)
Lemma parse_cut_in_constants_count (upval_count : byte) (source_data : bytes)
  (ld lld : Z) (np va ms : byte) (insts : list Z) (cut : bytes)
  (P : result Proto -> Prop) :
  Z.of_nat (List.length source_data) < 2 ^ 63 ->
  0 <= ld < 2 ^ 64 -> 0 <= lld < 2 ^ 64 ->
  Forall (fun inst => 0 <= inst < 2 ^ 32) insts ->
  Z.of_nat (List.length insts) < 2 ^ 64 ->
  Forall (fun b => byte_val b < 128) cut ->
  P (Err StructError) -> P (Err ValueError_overflow) ->
  P (parse (file_up_to_constants upval_count source_data ld lld np va ms insts
            ++ cut)).
Proof.
  intros Hsrc Hld Hlld Hi Hn Hcut P1 P2.
  unfold parse.
  generalize (List.length
    (file_up_to_constants upval_count source_data ld lld np va ms insts ++ cut)).
  intros depth. unfold file_up_to_constants.
  repeat rewrite <- app_assoc.
  run_with check_header_reference.
  cbn [app]. run_with read_byte_cons.
  cbn [read_proto].
  run_with read_string_with_raw_data; [|exact Hsrc].
  run_with read_size_with_raw_write_size; [|exact Hld].
  run_with read_size_with_raw_write_size; [|exact Hlld].
  cbn [app].
  run_with read_byte_with_raw_cons.
  run_with read_byte_with_raw_cons.
  run_with read_byte_with_raw_cons.
  rewrite app_assoc.
  unfold bind at 1. rewrite read_code_full by assumption. cbv beta iota.
  unfold bind at 1. unfold read_constants at 1. unfold bind at 1.
  unfold read_size_with_raw.
  destruct (read_size_with_raw_cut cut 0 [] Hcut) as [E|E]; rewrite E; assumption.
Qed.

End TruncatedConstants.

(* ----------------------------------------------------------------- *)
(** ** The LuaJIT prototype loop always returns *)

Section Progress.

Lemma shrinks_ret (A : Type) (a : A) : shrinks (ret a).
Proof. intros s a' s' H. injection H as _ <-. lia. Qed.

Lemma shrinks_raise (A : Type) (e : exn) : shrinks (@raise A e).
Proof. intros s a s' H. discriminate. Qed.

Lemma shrinks_lift (A : Type) (r : result A) : shrinks (lift r).
Proof.
  intros s a s' H. unfold lift in H. destruct r; [|discriminate].
  injection H as _ <-. lia.
Qed.

Lemma shrinks_bind (A B : Type) (m : Reader A) (k : A -> Reader B) :
  shrinks m -> (forall a, shrinks (k a)) -> shrinks (bind m k).
Proof.
  intros Hm Hk s b s' H. unfold bind in H.
  destruct (m s) as [[a s1]|e] eqn:E; [|discriminate].
  pose proof (Hm _ _ _ E). pose proof (Hk _ _ _ _ H). lia.
Qed.

Lemma consumes_bind (A B : Type) (m : Reader A) (k : A -> Reader B) :
  consumes m -> (forall a, shrinks (k a)) -> consumes (bind m k).
Proof.
  intros Hm Hk s b s' H. unfold bind in H.
  destruct (m s) as [[a s1]|e] eqn:E; [|discriminate].
  pose proof (Hm _ _ _ E). pose proof (Hk _ _ _ _ H). lia.
Qed.

Lemma consumes_shrinks (A : Type) (m : Reader A) : consumes m -> shrinks m.
Proof. intros H s a s' E. pose proof (H _ _ _ E). lia. Qed.

Lemma consumes_read_byte : consumes LuaJIT.read_byte.
Proof.
  intros [|b s] a s' H; [discriminate|].
  injection H as _ <-. simpl. lia.
Qed.

Lemma shrinks_take (n : nat) : shrinks (LuaJIT.take n).
Proof.
  intros s a s' H. unfold LuaJIT.take in H.
  destruct (List.length s <? n)%nat; [discriminate|].
  injection H as _ <-. rewrite length_skipn. lia.
Qed.

Lemma consumes_read_uleb128_loop (s : bytes) :
  forall res shift v s',
    LuaJIT.read_uleb128_loop res shift s = Ok (v, s') ->
    (List.length s' < List.length s)%nat.
Proof.
  induction s as [|b s IH]; intros res shift v s' H; [discriminate|].
  cbn [LuaJIT.read_uleb128_loop] in H.
  destruct (Z.land (byte_val b) 128 =? 0).
  - injection H as _ <-. simpl. lia.
  - destruct (shift + 7 >=? 35); [discriminate|].
    apply IH in H. simpl. lia.
Qed.

Lemma consumes_read_uleb128 : consumes LuaJIT.read_uleb128.
Proof. intros s v s' H. apply (consumes_read_uleb128_loop _ _ _ _ _ H). Qed.

Lemma shrinks_read_uleb128_33_loop (lo shift : Z) :
  shrinks (LuaJIT.read_uleb128_33_loop lo shift).
Proof.
  intros s. revert lo shift.
  induction s as [|b s IH]; intros lo shift v s' H; [discriminate|].
  cbn [LuaJIT.read_uleb128_33_loop] in H.
  destruct (Z.land (byte_val b) 128 =? 0).
  - injection H as _ <-. simpl. lia.
  - destruct (shift + 7 >=? 32).
    + injection H as _ <-. simpl. lia.
    + apply IH in H. simpl. lia.
Qed.

Lemma shrinks_read_string (length : Z) : shrinks (LuaJIT.read_string length).
Proof.
  intros s a s' H. unfold LuaJIT.read_string in H.
  destruct (Z.of_nat (List.length s) <? length); [discriminate|].
  injection H as _ <-. rewrite length_skipn. lia.
Qed.

Lemma shrinks_read_each (A : Type) (body : Reader A) (n : nat) :
  shrinks body -> forall acc, shrinks (LuaJIT.read_each n body acc).
Proof.
  intros Hb. induction n as [|n IH]; intros acc; cbn [LuaJIT.read_each].
  - apply shrinks_ret.
  - apply shrinks_bind; [exact Hb | intros a; apply IH].
Qed.

End Progress.

Create HintDb shrink.
#[local] Hint Resolve shrinks_ret shrinks_raise shrinks_lift shrinks_take
  shrinks_read_string
  shrinks_read_uleb128_33_loop shrinks_read_each : shrink.
#[local] Hint Extern 1 (shrinks LuaJIT.read_byte) =>
  apply consumes_shrinks, consumes_read_byte : shrink.
#[local] Hint Extern 1 (shrinks LuaJIT.read_uleb128) =>
  apply consumes_shrinks, consumes_read_uleb128 : shrink.

(** Readers built from binds, tests and the readers above. *)
Ltac shrink :=
  repeat first
    [ solve [auto with shrink]
    | apply shrinks_bind; [| intros ?]
    | apply shrinks_read_each
    | match goal with
      | |- shrinks (if ?c then _ else _) => destruct c
      | |- shrinks (match ?x with _ => _ end) => destruct x
      | |- shrinks (let _ := _ in _) => cbv zeta
      end ].

Section ProgressProto.

Lemma shrinks_read_uint16 : shrinks LuaJIT.read_uint16.
Proof. unfold LuaJIT.read_uint16. shrink. Qed.

Lemma shrinks_read_uint32 : shrinks LuaJIT.read_uint32.
Proof. unfold LuaJIT.read_uint32. shrink. Qed.

Lemma shrinks_read_uleb128_33 : shrinks LuaJIT.read_uleb128_33.
Proof.
  intros [|b s] a s' H; [discriminate|].
  unfold LuaJIT.read_uleb128_33 in H.
  match type of H with
  | ?m s = _ => assert (Hm : shrinks m) by shrink
  end.
  apply Hm in H. simpl. lia.
Qed.

Lemma shrinks_read_table_item : shrinks LuaJIT.read_table_item.
Proof. unfold LuaJIT.read_table_item. shrink. Qed.

Lemma shrinks_read_table : shrinks LuaJIT.read_table.
Proof.
  pose proof shrinks_read_table_item.
  unfold LuaJIT.read_table. shrink.
Qed.

Lemma shrinks_read_kgc : shrinks LuaJIT.read_kgc.
Proof.
  pose proof shrinks_read_table.
  unfold LuaJIT.read_kgc. shrink.
Qed.

Lemma shrinks_read_knum : shrinks LuaJIT.read_knum.
Proof.
  pose proof shrinks_read_uleb128_33.
  unfold LuaJIT.read_knum. shrink.
Qed.

Lemma shrinks_read_varnames (rounds : nat) :
  forall varnames, shrinks (LuaJIT.read_varnames rounds varnames).
Proof.
  induction rounds as [|r IH]; intros varnames [|b s] a s' H;
    cbn [LuaJIT.read_varnames] in H; try discriminate;
    try (injection H as _ <-; lia).
  match type of H with
  | ?m (b :: s) = _ => assert (Hm : shrinks m) by shrink
  end.
  apply Hm in H. exact H.
Qed.

(** A prototype takes at least the first byte of its size. *)
Lemma consumes_read_proto (pflags : Z) : consumes (LuaJIT.read_proto pflags).
Proof.
  pose proof shrinks_read_uint16. pose proof shrinks_read_uint32.
  pose proof shrinks_read_kgc. pose proof shrinks_read_knum.
  unfold LuaJIT.read_proto.
  apply consumes_bind; [exact consumes_read_uleb128|].
  intros size. shrink.
  all: intros ? ? ? E; apply (shrinks_read_varnames _ _ _ _ _ E).
Qed.

Lemma parse_loop_returns (rounds : nat) :
  forall pflags protos s,
    (List.length s < rounds)%nat ->
    exists result, LuaJIT.parse_loop rounds pflags protos s = Ok result.
Proof.
  induction rounds as [|r IH]; intros pflags protos s Hr; [lia|].
  destruct s as [|b s]; [exists protos; reflexivity|].
  cbn [LuaJIT.parse_loop].
  destruct (LuaJIT.read_proto pflags (b :: s)) as [[proto s']|e] eqn:E.
  - destruct (LuaJIT.size proto =? 0); [exists protos; reflexivity|].
    apply IH. apply consumes_read_proto in E. lia.
  - exists protos. reflexivity.
Qed.

(** Once the header is read, [parse] returns it with a list of
    prototypes, whatever follows the header. *)
Lemma luajit_parse_returns (data : bytes) (header : LuaJIT.Header) (s : bytes) :
  LuaJIT.read_header data = Ok (header, s) ->
  exists protos, LuaJIT.parse data = Ok (header, protos).
Proof.
  intros H. unfold LuaJIT.parse. rewrite H.
  destruct (parse_loop_returns (S (List.length s)) (LuaJIT.h_flags header) [] s
              ltac:(lia)) as [protos E].
  rewrite E. exists protos. reflexivity.
Qed.

End ProgressProto.




(* ----------------------------------------------------------------- *)
(** ** Decoding then re-serialising *)

Section Prefixes.

Lemma prefixes_ret (A : Type) (a : A) : prefixes (ret a).
Proof. intros s a' s' H. injection H as _ <-. exists []. reflexivity. Qed.

Lemma prefixes_raise (A : Type) (e : exn) : prefixes (@raise A e).
Proof. intros s a s' H. discriminate. Qed.

Lemma prefixes_lift (A : Type) (r : result A) : prefixes (lift r).
Proof.
  intros s a s' H. unfold lift in H. destruct r; [|discriminate].
  injection H as _ <-. exists []. reflexivity.
Qed.

Lemma prefixes_bind (A B : Type) (m : Reader A) (k : A -> Reader B) :
  prefixes m -> (forall a, prefixes (k a)) -> prefixes (bind m k).
Proof.
  intros Hm Hk s b s' H. unfold bind in H.
  destruct (m s) as [[a s1]|e] eqn:E; [|discriminate].
  destruct (Hm _ _ _ E) as [p1 ->]. destruct (Hk _ _ _ _ H) as [p2 ->].
  exists (p1 ++ p2). rewrite app_assoc. reflexivity.
Qed.

Lemma file_read_split (n : Z) (s raw s' : bytes) :
  file_read n s = Ok (raw, s') -> s = raw ++ s'.
Proof.
  unfold file_read. destruct (n <? 0); [|destruct (n >? maxsize)];
    intros H; try discriminate; injection H as <- <-.
  - rewrite app_nil_r. reflexivity.
  - symmetry. apply firstn_skipn.
Qed.

Lemma prefixes_file_read (n : Z) : prefixes (file_read n).
Proof. intros s raw s' H. exists raw. apply (file_read_split _ _ _ _ H). Qed.

(** The captured bytes of a size are the bytes consumed. *)
Lemma read_size_with_raw_loop_split (s : bytes) :
  forall x raw v raw' s',
    read_size_with_raw_loop x raw s = Ok ((v, raw'), s') ->
    exists pre, s = pre ++ s' /\ raw' = raw ++ pre.
Proof.
  induction s as [|b s IH]; intros x raw v raw' s' H; [discriminate|].
  cbn [read_size_with_raw_loop] in H.
  destruct (x >=? limit); [discriminate|].
  destruct (negb (Z.land (byte_val b) 128 =? 0)).
  - injection H as _ <- <-. exists [b]. split; reflexivity.
  - destruct (IH _ _ _ _ _ H) as (pre & -> & ->).
    exists (b :: pre). rewrite <- app_assoc. split; reflexivity.
Qed.

Lemma read_size_with_raw_split (s : bytes) (v : Z) (raw s' : bytes) :
  read_size_with_raw s = Ok ((v, raw), s') -> s = raw ++ s'.
Proof.
  intros H. destruct (read_size_with_raw_loop_split _ _ _ _ _ _ H) as (pre & -> & ->).
  reflexivity.
Qed.

Lemma prefixes_read_size_with_raw : prefixes read_size_with_raw.
Proof.
  intros s [v raw] s' H. exists raw. apply (read_size_with_raw_split _ _ _ _ H).
Qed.

Lemma prefixes_read_loop (A : Type) (body : Reader (A * bytes)) (n : nat) :
  prefixes body -> forall acc raw, prefixes (read_loop n body acc raw).
Proof.
  intros Hb. induction n as [|n IH]; intros acc raw; cbn [read_loop].
  - apply prefixes_ret.
  - apply prefixes_bind; [exact Hb|]. intros [a a_raw]. apply IH.
Qed.

End Prefixes.

Create HintDb prefix.
#[local] Hint Resolve prefixes_ret prefixes_raise prefixes_lift prefixes_file_read
  prefixes_read_size_with_raw : prefix.

(** Readers built from binds, tests and the readers above. *)
Ltac prefix_tac :=
  repeat first
    [ solve [auto with prefix]
    | apply prefixes_bind; [| intros ?]
    | apply prefixes_read_loop
    | match goal with
      | |- prefixes (if ?c then _ else _) => destruct c
      | |- prefixes (match ?x with _ => _ end) => destruct x
      | |- prefixes (let _ := _ in _) => cbv zeta
      end ].

Section PrefixesOfReaders.

Lemma prefixes_read_byte : prefixes read_byte.
Proof. unfold read_byte. prefix_tac. Qed.

Lemma prefixes_check_header : prefixes check_header.
Proof.
  pose proof prefixes_read_byte.
  unfold check_header, read_integer, read_number. prefix_tac.
Qed.

Lemma prefixes_read_byte_with_raw : prefixes read_byte_with_raw.
Proof. unfold read_byte_with_raw. prefix_tac. Qed.

Lemma prefixes_read_string_with_raw : prefixes read_string_with_raw.
Proof. unfold read_string_with_raw. prefix_tac. Qed.

Lemma prefixes_read_constant : prefixes read_constant.
Proof.
  pose proof prefixes_read_byte_with_raw. pose proof prefixes_read_string_with_raw.
  unfold read_constant, read_number_with_raw, read_integer_with_raw. prefix_tac.
Qed.

Lemma prefixes_read_constants (proto : Proto) : prefixes (read_constants proto).
Proof.
  pose proof prefixes_read_constant. unfold read_constants. prefix_tac.
Qed.

Lemma prefixes_read_upvalues (proto : Proto) : prefixes (read_upvalues proto).
Proof.
  pose proof prefixes_read_byte_with_raw. unfold read_upvalues. prefix_tac.
Qed.

Lemma prefixes_read_debug (proto : Proto) : prefixes (read_debug proto).
Proof.
  pose proof prefixes_read_byte_with_raw. pose proof prefixes_read_string_with_raw.
  unfold read_debug. prefix_tac.
Qed.

End PrefixesOfReaders.

(** The first reader of a chain succeeded: name its value and what it
    left. *)
Ltac inv_bind H :=
  unfold bind in H at 1;
  match type of H with
  | match ?r with _ => _ end = _ =>
      let a := fresh "a" in
      let s := fresh "s" in
      let E := fresh "E" in
      destruct r as [[a s]|?] eqn:E; [|discriminate H];
      cbv beta iota in H;
      try match type of a with
          | (_ * _)%type => destruct a
          end
  end.

Section SpansRead.

Lemma dict_get_set_other (V : Type) (k k' : string) (v : V) (d : list (string * V)) :
  String.eqb k k' = false -> dict_get k (dict_set k' v d) = dict_get k d.
Proof.
  intros Hk. induction d as [|[a x] d IH]; simpl.
  - rewrite Hk. reflexivity.
  - destruct (String.eqb k' a) eqn:Ea; simpl.
    + apply String.eqb_eq in Ea. subst a. rewrite Hk. reflexivity.
    + destruct (String.eqb k a); [reflexivity | exact IH].
Qed.

Lemma occurs_refl (raw : bytes) : occurs raw raw.
Proof. exists [], []. rewrite app_nil_r. reflexivity. Qed.

Lemma occurs_extend (raw whole before after : bytes) :
  occurs raw whole -> occurs raw (before ++ whole ++ after).
Proof.
  intros (b & a & ->). exists (before ++ b), (a ++ after).
  rewrite <- !app_assoc. reflexivity.
Qed.

Lemma occurs_trans (a b c : bytes) : occurs a b -> occurs b c -> occurs a c.
Proof. intros Hab (x & y & ->). apply occurs_extend. exact Hab. Qed.

Lemma child_ok_extend (c before after : bytes) (sub : Proto) :
  child_ok c sub -> child_ok (before ++ c ++ after) sub.
Proof.
  intros [H1 H2]. split; [|exact H2].
  eapply Forall_impl; [|exact H1]. intros raw. apply occurs_extend.
Qed.

Lemma child_ok_app_r (c after : bytes) (sub : Proto) :
  child_ok c sub -> child_ok (c ++ after) sub.
Proof.
  intros H. apply (child_ok_extend c [] after) in H. exact H.
Qed.

Lemma child_ok_app_l (c before : bytes) (sub : Proto) :
  child_ok c sub -> child_ok (before ++ c) sub.
Proof.
  intros H. apply (child_ok_extend c before []) in H.
  rewrite app_nil_r in H. exact H.
Qed.

Lemma read_loop_children (body : Reader (Proto * bytes)) :
  (forall s sub r s', body s = Ok ((sub, r), s') ->
                      exists c, s = c ++ s' /\ child_ok c sub) ->
  forall n acc raw s l raw' s',
    read_loop n body acc raw s = Ok ((l, raw'), s') ->
    exists c l', s = c ++ s' /\ l = acc ++ l' /\ Forall (child_ok c) l'.
Proof.
  intros Hb. induction n as [|n IH]; intros acc raw s l raw' s' H;
    cbn [read_loop] in H.
  - injection H as <- _ <-. exists [], []. rewrite app_nil_r. auto.
  - inv_bind H. destruct (Hb _ _ _ _ E) as (c1 & -> & Hc1).
    destruct (IH _ _ _ _ _ _ H) as (c2 & l2 & -> & -> & Hl2).
    exists (c1 ++ c2), (p :: l2). rewrite <- !app_assoc. split; [reflexivity|].
    split; [reflexivity|]. constructor.
    + apply child_ok_app_r. exact Hc1.
    + eapply Forall_impl; [|exact Hl2]. intros sub Hs.
      apply child_ok_app_l. exact Hs.
Qed.

(** The bytes of the loop of [read_code] are the bytes consumed. *)
Lemma read_loop_raw (A : Type) (body : Reader (A * bytes)) :
  (forall s a r s', body s = Ok ((a, r), s') -> s = r ++ s') ->
  forall n acc raw s l raw' s',
    read_loop n body acc raw s = Ok ((l, raw'), s') ->
    exists c, s = c ++ s' /\ raw' = raw ++ c.
Proof.
  intros Hb. induction n as [|n IH]; intros acc raw s l raw' s' H;
    cbn [read_loop] in H.
  - injection H as _ <- <-. exists []. rewrite app_nil_r. auto.
  - inv_bind H. rewrite (Hb _ _ _ _ E).
    destruct (IH _ _ _ _ _ _ H) as (c2 & -> & ->).
    exists (b ++ c2). rewrite <- !app_assoc. auto.
Qed.

Lemma lift_state (A : Type) (r : result A) (s : bytes) (a : A) (s' : bytes) :
  lift r s = Ok (a, s') -> s' = s.
Proof.
  unfold lift. destruct r; [|discriminate]. intros H. injection H as _ <-.
  reflexivity.
Qed.

Lemma read_code_span (proto proto' : Proto) (s s' : bytes) :
  read_code proto s = Ok (proto', s') ->
  exists code_raw,
    s = code_raw ++ s'
    /\ dict_get "code" (ori proto') = Some code_raw
    /\ protos proto' = protos proto.
Proof.
  intros H. unfold read_code in H. inv_bind H. inv_bind H.
  injection H as <- <-.
  pose proof (read_size_with_raw_split _ _ _ _ E) as ->.
  apply read_loop_raw in E0.
  - destruct E0 as (c & -> & ->). exists (b ++ c).
    rewrite <- app_assoc. split; [reflexivity|].
    split; [apply dict_get_set | reflexivity].
  - intros t x r t' Hb. inv_bind Hb. inv_bind Hb. injection Hb as _ <- <-.
    match goal with
    | F : file_read _ _ = _, L : lift _ _ = _ |- _ =>
        apply lift_state in L; subst; apply (file_read_split _ _ _ _ F)
    end.
Qed.

(** The readers after [read_code] leave the instruction span and the
    children alone. *)
Lemma read_constants_keeps (proto proto' : Proto) (s s' : bytes) :
  read_constants proto s = Ok (proto', s') ->
  dict_get "code" (ori proto') = dict_get "code" (ori proto)
  /\ protos proto' = protos proto.
Proof.
  intros H. unfold read_constants in H. inv_bind H. inv_bind H.
  injection H as <- <-. split; [|reflexivity].
  apply dict_get_set_other. reflexivity.
Qed.

Lemma read_upvalues_keeps (proto proto' : Proto) (s s' : bytes) :
  read_upvalues proto s = Ok (proto', s') ->
  dict_get "code" (ori proto') = dict_get "code" (ori proto)
  /\ protos proto' = protos proto.
Proof.
  intros H. unfold read_upvalues in H. inv_bind H. inv_bind H.
  injection H as <- <-. split; [|reflexivity].
  apply dict_get_set_other. reflexivity.
Qed.

Lemma read_debug_keeps (proto proto' : Proto) (s s' : bytes) :
  read_debug proto s = Ok (proto', s') ->
  dict_get "code" (ori proto') = dict_get "code" (ori proto)
  /\ protos proto' = protos proto.
Proof.
  intros H. unfold read_debug in H. cbv zeta in H.
  do 8 inv_bind H.
  injection H as <- <-. split; [|reflexivity].
  cbn [ori set_ori]. rewrite !dict_get_set_other by reflexivity. reflexivity.
Qed.

Lemma read_protos_children (rp : option str -> Reader Proto)
  (proto proto' : Proto) (s s' : bytes) :
  (forall ps s1 sub s2, rp ps s1 = Ok (sub, s2) ->
                        exists c, s1 = c ++ s2 /\ child_ok c sub) ->
  protos proto = [] ->
  read_protos rp proto s = Ok (proto', s') ->
  exists c,
    s = c ++ s'
    /\ dict_get "code" (ori proto') = dict_get "code" (ori proto)
    /\ Forall (child_ok c) (protos proto').
Proof.
  intros Hrp Hnil H. unfold read_protos in H. inv_bind H. inv_bind H.
  injection H as <- <-.
  pose proof (read_size_with_raw_split _ _ _ _ E) as ->.
  apply read_loop_children in E0.
  - destruct E0 as (c & l' & -> & -> & Hl).
    exists (b ++ c). rewrite <- app_assoc. split; [reflexivity|].
    split; [apply dict_get_set_other; reflexivity|].
    cbn [protos set_ori set_protos app].
    eapply Forall_impl; [|exact Hl]. intros sub Hs.
    apply child_ok_app_l. exact Hs.
  - intros t sub r t' Hb. inv_bind Hb. injection Hb as <- _ <-.
    match goal with
    | F : rp _ _ = _ |- _ => apply (Hrp _ _ _ _ F)
    end.
Qed.

Lemma spans_of_children (c : bytes) (l : list Proto) :
  Forall (child_ok c) l ->
  Forall (fun raw => occurs raw c) (flat_map code_spans l)
  /\ List.length (flat_map code_spans l)
     = fold_right (fun sub n => (node_count sub + n)%nat) 0%nat l.
Proof.
  induction 1 as [|sub l [H1 H2] _ [IH1 IH2]]; simpl; [auto|].
  split.
  - apply Forall_app. auto.
  - rewrite length_app, H2, IH2. reflexivity.
Qed.

End SpansRead.

Section SpansOfTree.

(** A prototype is read from a prefix of the input, in which the
    instruction span of every node of its tree occurs. *)
Lemma read_proto_spans (depth : nat) :
  forall parent_source s T s',
    read_proto depth parent_source s = Ok (T, s') ->
    exists c, s = c ++ s' /\ child_ok c T.
Proof.
  induction depth as [|d IH]; intros parent_source s T s' H; [discriminate|].
  cbn [read_proto] in H.
  do 6 inv_bind H.
  match goal with
  | E1 : read_string_with_raw _ = _, E2 : read_size_with_raw _ = _,
    E3 : read_size_with_raw _ = _, E4 : read_byte_with_raw _ = _,
    E5 : read_byte_with_raw _ = _, E6 : read_byte_with_raw _ = _ |- _ =>
      destruct (prefixes_read_string_with_raw _ _ _ E1) as [c1 ->];
      destruct (prefixes_read_size_with_raw _ _ _ E2) as [c2 ->];
      destruct (prefixes_read_size_with_raw _ _ _ E3) as [c3 ->];
      destruct (prefixes_read_byte_with_raw _ _ _ E4) as [c4 ->];
      destruct (prefixes_read_byte_with_raw _ _ _ E5) as [c5 ->];
      destruct (prefixes_read_byte_with_raw _ _ _ E6) as [c6 ->];
      clear E1 E2 E3 E4 E5 E6
  end.
  inv_bind H.
  match goal with
  | Ec : read_code _ _ = _ |- _ =>
      destruct (read_code_span _ _ _ _ Ec) as (code_raw & -> & Hcode & Hps0);
      clear Ec
  end.
  inv_bind H.
  match goal with
  | Ek : read_constants _ _ = _ |- _ =>
      destruct (prefixes_read_constants _ _ _ _ Ek) as [c8 ->];
      destruct (read_constants_keeps _ _ _ _ Ek) as [Hk1 Hk2]; clear Ek
  end.
  inv_bind H.
  match goal with
  | Eu : read_upvalues _ _ = _ |- _ =>
      destruct (prefixes_read_upvalues _ _ _ _ Eu) as [c9 ->];
      destruct (read_upvalues_keeps _ _ _ _ Eu) as [Hu1 Hu2]; clear Eu
  end.
  inv_bind H.
  match goal with
  | Ep : read_protos _ _ _ = _ |- _ =>
      apply (read_protos_children _ _ _ _ _ (IH)) in Ep;
        [destruct Ep as (cP & -> & Hp1 & Hp2)|]
  end.
  2:{ rewrite Hu2, Hk2, Hps0.
      destruct o; reflexivity. }
  inv_bind H.
  match goal with
  | Ed : read_debug _ _ = _ |- _ =>
      destruct (prefixes_read_debug _ _ _ _ Ed) as [c11 ->];
      destruct (read_debug_keeps _ _ _ _ Ed) as [Hd1 Hd2]; clear Ed
  end.
  injection H as <- <-.
  match goal with
  | |- exists c, _ /\ child_ok c ?final => set (T := final) in *
  end.
  match goal with
  | Hc : Forall (child_ok cP) (protos ?mid) |- _ => set (M := mid) in *
  end.
  exists (c1 ++ c2 ++ c3 ++ c4 ++ c5 ++ c6 ++ code_raw ++ c8 ++ c9 ++ cP ++ c11).
  split; [rewrite <- !app_assoc; reflexivity|].
  destruct (spans_of_children cP _ Hp2) as [Hs1 Hs2].
  assert (Hget : dict_get "code" (ori T) = Some code_raw)
    by (rewrite Hd1, Hp1, Hu1, Hk1; exact Hcode).
  assert (Hspans : code_spans T = code_raw :: flat_map code_spans (protos M)).
  { rewrite <- Hd2. clearbody T. destruct T. cbn [code_spans ori protos] in *.
    rewrite Hget. reflexivity. }
  unfold child_ok. rewrite Hspans. split.
  - constructor.
    + exists (c1 ++ c2 ++ c3 ++ c4 ++ c5 ++ c6), (c8 ++ c9 ++ cP ++ c11).
      rewrite <- !app_assoc. reflexivity.
    + eapply Forall_impl; [|exact Hs1]. intros raw Hr.
      eapply occurs_trans; [exact Hr|].
      exists (c1 ++ c2 ++ c3 ++ c4 ++ c5 ++ c6 ++ code_raw ++ c8 ++ c9), c11.
      rewrite <- !app_assoc. reflexivity.
  - cbn [List.length]. rewrite Hs2, <- Hd2. clearbody T. destruct T. reflexivity.
Qed.

End SpansOfTree.

(** The first writer of a chain succeeded: name what it wrote. *)
Ltac inv_rbind H :=
  match type of H with
  | rbind ?r _ = Ok _ =>
      let w := fresh "w" in
      let W := fresh "W" in
      destruct r as [w|?] eqn:W; [|discriminate H]; cbn [rbind] in H
  end.

Section SpansWritten.

Lemma write_each_occurs (A : Type) (f : A -> result bytes) (l : list A) :
  forall body,
    write_each f l = Ok body ->
    Forall (fun a => exists wa, f a = Ok wa /\ occurs wa body) l.
Proof.
  induction l as [|a l IH]; intros body H; [constructor|].
  cbn [write_each] in H. inv_rbind H. inv_rbind H. injection H as <-.
  constructor.
  - exists w. split; [exact W|]. exists [], w0. reflexivity.
  - eapply Forall_impl; [|apply (IH _ eq_refl)].
    intros x (wx & Hx & Ho). exists wx. split; [exact Hx|].
    eapply occurs_trans; [exact Ho|]. exists w, []. rewrite app_nil_r. reflexivity.
Qed.

(** The writer emits the captured instruction span of every node. *)
Lemma write_proto_spans (T : Proto) :
  forall is_main w,
    _write_proto T is_main = Ok w ->
    Forall (fun raw => occurs raw w) (code_spans T).
Proof.
  induction T as [src ld lld np va ms cd ks us ps li ali lv un o IH]
    using Proto_tree_ind.
  intros is_main w H. cbn [_write_proto] in H. proto_fields_in H.
  do 8 inv_rbind H.
  unfold _write_protos in W6. proto_fields_in W6. inv_rbind W6.
  injection W6 as <-. inv_rbind H. injection H as <-.
  cbn [code_spans ori protos]. apply Forall_app. split.
  - destruct (dict_get "code" o) as [code_raw|] eqn:Eg; [|constructor].
    assert (Ht : truthy o = true) by (destruct o; [discriminate | reflexivity]).
    rewrite Ht in W3. injection W3 as <-.
    constructor; [|constructor].
    exists (w0 ++ _write_size ld ++ _write_size lld ++ w1 ++ w2 ++ w3),
           (w5 ++ w6 ++ (_write_size (Z.of_nat (List.length ps)) ++ w8) ++ w7).
    rewrite <- !app_assoc. reflexivity.
  - apply write_each_occurs in W7.
    apply Forall_flat_map. rewrite Forall_forall in *.
    intros sub Hin. destruct (W7 sub Hin) as (wsub & Hw & Ho).
    pose proof (IH sub Hin false wsub Hw) as Hs.
    rewrite Forall_forall in *. intros raw Hraw.
    eapply occurs_trans; [apply (Hs raw Hraw)|].
    eapply occurs_trans; [exact Ho|].
    exists (w0 ++ _write_size ld ++ _write_size lld ++ w1 ++ w2 ++ w3 ++ w4
            ++ w5 ++ w6 ++ _write_size (Z.of_nat (List.length ps))), w7.
    rewrite <- !app_assoc. reflexivity.
Qed.

End SpansWritten.

Section Reserialise.

Lemma write_header_reference : _write_header = Ok (bytes_of reference_header).
Proof. vm_compute. reflexivity. Qed.

Lemma parse_spans (B : bytes) (T : Proto) :
  parse B = Ok T ->
  List.length (code_spans T) = node_count T
  /\ Forall (fun raw => occurs raw B) (code_spans T).
Proof.
  unfold parse. intros H.
  destruct ((_ <- check_header ;; upval_count <- read_byte ;;
             read_proto (S (List.length B)) (Some []))%reader B)
    as [[main rest]|e] eqn:E; [|discriminate].
  injection H as ->.
  inv_bind E. inv_bind E.
  match goal with
  | E1 : check_header _ = _, E2 : read_byte _ = _ |- _ =>
      destruct (prefixes_check_header _ _ _ E1) as [h ->];
      destruct (prefixes_read_byte _ _ _ E2) as [u ->]
  end.
  destruct (read_proto_spans _ _ _ _ _ E) as (c & -> & Hs & Hn).
  split; [exact Hn|].
  eapply Forall_impl; [|exact Hs]. intros raw Hr.
  eapply occurs_trans; [exact Hr|].
  exists (h ++ u), rest. rewrite <- !app_assoc. reflexivity.
Qed.

End Reserialise.




(* ================================================================= *)
(** * Further properties of the two modules *)

(** ** The size varint beyond its round trip *)

Section SizeShape.

Lemma size_groups_range (rounds : nat) :
  forall v, Forall (fun g => 0 <= g < 128) (size_groups rounds v).
Proof.
  induction rounds as [|r IH]; intros v; [constructor|].
  cbn [size_groups]. destruct (v >? 0); [|constructor].
  constructor; [|apply IH].
  rewrite land_127. apply Z.mod_pos_bound. lia.
Qed.

Lemma bytes_of_groups_low (l : list Z) :
  Forall (fun g => 0 <= g < 128) l ->
  Forall (fun b => byte_val b < 128) (bytes_of l).
Proof.
  induction 1 as [|g l Hg _ IH]; [constructor|].
  constructor; [|exact IH]. rewrite byte_val_of_Z; lia.
Qed.

(** Groups of a value at or above [limit], followed by one more byte:
    the reader gives up on that byte at the latest. *)
Lemma read_size_loop_groups_overflow (rounds : nat) :
  forall v b tail,
    limit <= v -> v < 128 ^ Z.of_nat rounds ->
    read_size_loop 0 (bytes_of (rev (size_groups rounds v)) ++ b :: tail)
    = Err ValueError_overflow.
Proof.
  induction rounds as [|r IH]; intros v b tail Hv Hr.
  - rewrite limit_value in Hv. simpl in Hr. lia.
  - assert (Hpos : 0 < v) by (rewrite limit_value in Hv; lia).
    rewrite size_groups_step by lia. simpl rev.
    unfold bytes_of. rewrite map_app, <- app_assoc. simpl.
    fold (bytes_of (rev (size_groups r (v / 128)))).
    assert (Hq : v / 128 < 128 ^ Z.of_nat r).
    { apply Z.div_lt_upper_bound; [lia|].
      rewrite Nat2Z.inj_succ, Z.pow_succ_r in Hr by lia. exact Hr. }
    destruct (Z.le_gt_cases limit (v / 128)) as [Hbig|Hsmall].
    + apply IH; assumption.
    + rewrite read_size_loop_groups
        by (try split; try apply Z.div_pos; try assumption; lia).
      rewrite read_size_loop_cont by (try apply Z.mod_pos_bound; lia).
      apply read_size_loop_overflow.
      rewrite (Z.div_mod v 128) in Hv by lia. exact Hv.
Qed.

(** The scan of the transform for the end of the size prefix stops
    where the reader of the size stops. *)
Lemma split_size_read_size (s : bytes) :
  forall x raw v raw' s',
    read_size_with_raw_loop x raw s = Ok ((v, raw'), s') ->
    exists pre, raw' = raw ++ pre /\ split_size s = (pre, s').
Proof.
  induction s as [|b s IH]; intros x raw v raw' s' H; [discriminate|].
  cbn [read_size_with_raw_loop] in H. cbn [split_size].
  destruct (x >=? limit); [discriminate|].
  destruct (negb (Z.land (byte_val b) 128 =? 0)).
  - exists [b]. injection H as _ <- <-. split; reflexivity.
  - destruct (IH _ _ _ _ _ H) as (pre & E1 & E2).
    exists (b :: pre). rewrite E2. split; [|reflexivity].
    rewrite E1, <- app_assoc. reflexivity.
Qed.

(** A size is read from its own bytes alone. *)
Lemma read_size_with_raw_loop_frame (s : bytes) :
  forall x raw v raw' s',
    read_size_with_raw_loop x raw s = Ok ((v, raw'), s') ->
    exists pre, s = pre ++ s' /\ raw' = raw ++ pre
                /\ forall t, read_size_with_raw_loop x raw (pre ++ t)
                             = Ok ((v, raw'), t).
Proof.
  induction s as [|b s IH]; intros x raw v raw' s' H; [discriminate|].
  cbn [read_size_with_raw_loop] in H.
  destruct (x >=? limit) eqn:Hx; [discriminate|].
  destruct (negb (Z.land (byte_val b) 128 =? 0)) eqn:Hb.
  - exists [b]. injection H as <- <- <-. repeat split.
    intros t. cbn [app read_size_with_raw_loop]. rewrite Hx, Hb. reflexivity.
  - destruct (IH _ _ _ _ _ H) as (pre & E1 & E2 & E3).
    exists (b :: pre). repeat split.
    + rewrite E1. reflexivity.
    + rewrite E2, <- app_assoc. reflexivity.
    + intros t. cbn [app read_size_with_raw_loop]. rewrite Hx, Hb. apply E3.
Qed.

End SizeShape.

(** X1. [_write_size] writes nothing at all for a negative value (the
    [while value > 0] loop never runs and no error is raised); for
    every other value it writes at least one byte, the top bit is set on
    the last byte and on no other. *)
Theorem X1_write_size_shape (value : Z) :
  (value < 0 -> _write_size value = [])
  /\ (0 <= value ->
      exists body last,
        _write_size value = body ++ [last]
        /\ Forall (fun b => byte_val b < 128) body
        /\ 128 <= byte_val last).
Proof.
  split; intros Hv.
  - unfold _write_size. destruct (Z.eqb_spec value 0); [lia|].
    cbn [size_groups]. destruct (Z.gtb_spec value 0); [lia|]. reflexivity.
  - destruct (Z.eq_dec value 0) as [->|Hnz].
    + exists [], (byte_of_Z 0x80). repeat split; [constructor|].
      vm_compute. discriminate.
    + rewrite write_size_pos by lia.
      eexists _, _. split; [reflexivity|]. split.
      * apply bytes_of_groups_low. apply Forall_rev, size_groups_range.
      * pose proof (Z.mod_pos_bound value 128 ltac:(lia)).
        rewrite group_set_top, byte_val_of_Z by lia. lia.
Qed.

Lemma X1_write_size_shape_witness :
  _write_size (-5) = []
  /\ exists body last,
       _write_size 300 = body ++ [last]
       /\ Forall (fun b => byte_val b < 128) body
       /\ 128 <= byte_val last.
Proof.
  split.
  - apply (proj1 (X1_write_size_shape (-5))). lia.
  - apply (proj2 (X1_write_size_shape 300)). lia.
Defined.

(** X2. The round trip of the size varint stops exactly at 2^64: what
    [_write_size] writes for a value of 2^64 or more is refused by
    [read_size] with the overflow error, whatever follows. *)
Theorem X2_read_size_refuses_large (v : Z) (tail : bytes) :
  2 ^ 64 <= v ->
  read_size (_write_size v ++ tail) = Err ValueError_overflow.
Proof.
  intros Hv. unfold read_size.
  rewrite write_size_pos by lia. rewrite <- app_assoc. simpl app.
  apply read_size_loop_groups_overflow.
  - rewrite limit_value.
    apply Z.div_le_lower_bound; lia.
  - pose proof (Z.log2_nonneg v).
    rewrite Z2Nat.id by lia.
    apply Z.div_lt_upper_bound; [lia|].
    pose proof (pow128_log2 v ltac:(lia)). lia.
Qed.

Lemma X2_read_size_refuses_large_witness :
  read_size (_write_size (2 ^ 64) ++ []) = Err ValueError_overflow.
Proof.
  apply (X2_read_size_refuses_large (2 ^ 64) []). lia.
Defined.

(** X3. The transform finds the end of the size prefix of a span by
    scanning for the first byte with the top bit set; on every span
    whose size [read_size_with_raw] can read, the scan splits the span
    exactly where the reader does: the prefix is the captured size, the
    rest is what the reader has not consumed. *)
Theorem X3_split_size_agrees (s : bytes) (n : Z) (n_raw rest : bytes) :
  read_size_with_raw s = Ok ((n, n_raw), rest) ->
  split_size s = (n_raw, rest) /\ s = n_raw ++ rest.
Proof.
  intros H. unfold read_size_with_raw in H.
  destruct (split_size_read_size _ _ _ _ _ _ H) as (pre & E1 & E2).
  simpl in E1. subst pre. split; [exact E2|].
  apply split_size_app. exact E2.
Qed.

Lemma X3_split_size_agrees_witness :
  split_size (bytes_of [0x02; 0x83; 9; 8; 7]) = (bytes_of [0x02; 0x83], bytes_of [9; 8; 7])
  /\ bytes_of [0x02; 0x83; 9; 8; 7] = bytes_of [0x02; 0x83] ++ bytes_of [9; 8; 7].
Proof.
  apply (X3_split_size_agrees (bytes_of [0x02; 0x83; 9; 8; 7]) 259). reflexivity.
Defined.

(* ----------------------------------------------------------------- *)
(** ** What [check_header] accepts and how it refuses *)

Section HeaderCases.

Lemma bytes_eqb_eq (a : bytes) : forall b, bytes_eqb a b = true <-> a = b.
Proof.
  induction a as [|x a IH]; intros [|y b]; cbn [bytes_eqb];
    try (split; [discriminate|discriminate]); [split; reflexivity|].
  rewrite andb_true_iff, IH. split.
  - intros [E ->]. apply Byte.byte_dec_bl in E. congruence.
  - intros E. injection E as -> ->. split; [apply Byte.byte_dec_lb|]; reflexivity.
Qed.

(** After the signature and the version byte 26 more bytes are read,
    whatever they are. *)
Lemma check_header_after_version (t : bytes) :
  check_header (LUA_SIGNATURE ++ byte_of_Z LUAC_VERSION :: t)
  = if (26 <=? List.length t)%nat then Ok (tt, skipn 26 t) else Err StructError.
Proof.
  do 26 (destruct t as [|? t]; [reflexivity|]). reflexivity.
Qed.

Lemma check_header_other_version (v : byte) (t : bytes) :
  byte_val v <> LUAC_VERSION ->
  check_header (LUA_SIGNATURE ++ v :: t) = Err (ValueError_version (byte_val v)).
Proof.
  intros Hv. unfold check_header. unfold bind at 1.
  change (file_read 4 (LUA_SIGNATURE ++ v :: t)) with (Ok (LUA_SIGNATURE, v :: t)).
  cbv beta iota.
  change (bytes_eqb LUA_SIGNATURE LUA_SIGNATURE) with true. cbn [negb].
  unfold bind at 1. rewrite read_byte_cons.
  destruct (Z.eqb_spec (byte_val v) LUAC_VERSION); [contradiction|]. reflexivity.
Qed.

Lemma check_header_other_signature (s : bytes) :
  firstn 4 s <> LUA_SIGNATURE -> check_header s = Err ValueError_signature.
Proof.
  intros Hs. unfold check_header. unfold bind at 1.
  assert (E : file_read 4 s = Ok (firstn 4 s, skipn 4 s)) by reflexivity.
  rewrite E.
  destruct (bytes_eqb (firstn 4 s) LUA_SIGNATURE) eqn:B; [|reflexivity].
  apply bytes_eqb_eq in B. contradiction.
Qed.

Lemma version_byte_eq (v : byte) :
  byte_val v = LUAC_VERSION -> v = byte_of_Z LUAC_VERSION.
Proof. intros E. rewrite <- E. symmetry. apply byte_of_Z_val. Qed.

(** The shape of every accepted input. *)
Lemma check_header_accepted (s s' : bytes) :
  check_header s = Ok (tt, s') ->
  exists body,
    s = LUA_SIGNATURE ++ byte_of_Z LUAC_VERSION :: body ++ s'
    /\ List.length body = 26%nat.
Proof.
  intros H.
  destruct (bytes_eqb (firstn 4 s) LUA_SIGNATURE) eqn:B.
  - apply bytes_eqb_eq in B.
    rewrite <- (firstn_skipn 4 s), B in H |- *.
    destruct (skipn 4 s) as [|v t]; [discriminate H|].
    destruct (Z.eq_dec (byte_val v) LUAC_VERSION) as [E|E].
    + apply version_byte_eq in E. subst v.
      rewrite check_header_after_version in H.
      destruct (Nat.leb_spec 26 (List.length t)) as [L|L]; [|discriminate H].
      injection H as <-. exists (firstn 26 t).
      rewrite firstn_skipn. split; [reflexivity|].
      apply firstn_length_le. exact L.
    + rewrite check_header_other_version in H by exact E. discriminate H.
  - rewrite check_header_other_signature in H; [discriminate H|].
    intros E. apply bytes_eqb_eq in E. congruence.
Qed.

End HeaderCases.

(** X4. [check_header] accepts an input exactly when it starts with the
    four signature bytes and the version byte 0x54 and holds 26 more
    bytes; these 26 bytes (format, data, sizes, test values) can be
    anything, and reading stops right behind them. *)
Theorem X4_check_header_accepts_iff (s s' : bytes) :
  check_header s = Ok (tt, s')
  <-> exists body,
        s = LUA_SIGNATURE ++ byte_of_Z LUAC_VERSION :: body ++ s'
        /\ List.length body = 26%nat.
Proof.
  split; [apply check_header_accepted|].
  intros (body & -> & L). rewrite check_header_after_version.
  rewrite length_app, L. cbn [Nat.leb Nat.add].
  rewrite <- L, skipn_app, skipn_all, Nat.sub_diag. reflexivity.
Qed.

(** X5. The refusals of [check_header] come in a fixed order.  An input
    that does not start with the signature, the empty file and every
    file shorter than four bytes included, gets the signature error; a
    wrong version byte behind the signature gets the version error that
    carries the byte, even when nothing follows it; only then does a
    file that ends before the header is complete get [struct.error]. *)
Theorem X5_check_header_refusals :
  (forall s, firstn 4 s <> LUA_SIGNATURE ->
             check_header s = Err ValueError_signature)
  /\ (forall v t, byte_val v <> LUAC_VERSION ->
        check_header (LUA_SIGNATURE ++ v :: t) = Err (ValueError_version (byte_val v)))
  /\ check_header LUA_SIGNATURE = Err StructError
  /\ (forall t, (List.length t < 26)%nat ->
        check_header (LUA_SIGNATURE ++ byte_of_Z LUAC_VERSION :: t) = Err StructError).
Proof.
  split; [exact check_header_other_signature|].
  split; [exact check_header_other_version|].
  split; [reflexivity|].
  intros t L. rewrite check_header_after_version.
  destruct (Nat.leb_spec 26 (List.length t)); [lia | reflexivity].
Qed.

Lemma X5_check_header_refusals_witness :
  check_header [] = Err ValueError_signature
  /\ check_header (LUA_SIGNATURE ++ [byte_of_Z 0x53]) = Err (ValueError_version 0x53)
  /\ check_header LUA_SIGNATURE = Err StructError
  /\ check_header (LUA_SIGNATURE ++ byte_of_Z LUAC_VERSION :: bytes_of [0; 0x19])
     = Err StructError.
Proof.
  destruct X5_check_header_refusals as (H1 & H2 & H3 & H4).
  split; [apply H1; vm_compute; discriminate|].
  split; [apply (H2 (byte_of_Z 0x53) []); vm_compute; discriminate|].
  split; [exact H3|].
  apply H4. vm_compute. lia.
Defined.

(* ----------------------------------------------------------------- *)
(** ** The version check in front of the parsers *)

Section Dispatch.

Lemma parse_checks_header (data : bytes) (proto : Proto) :
  parse data = Ok proto -> exists s', check_header data = Ok (tt, s').
Proof.
  unfold parse, bind. intros H.
  destruct (check_header data) as [[[] s']|e]; [|discriminate H].
  exists s'. reflexivity.
Qed.

(** What [read_header] has seen of an input it accepts: the signature,
    the version byte and the first byte of the flags. *)
Lemma luajit_header_start (data : bytes) (header : LuaJIT.Header) (s : bytes) :
  LuaJIT.read_header data = Ok (header, s) ->
  exists v f t,
    data = LuaJIT.LUAJIT_SIGNATURE ++ v :: f :: t
    /\ LuaJIT.version header = byte_val v.
Proof.
  unfold LuaJIT.read_header. intros H.
  destruct (List.length data <? 3)%nat; [discriminate H|].
  destruct (bytes_eqb (firstn 3 data) LuaJIT.LUAJIT_SIGNATURE) eqn:B;
    [|discriminate H].
  apply bytes_eqb_eq in B. cbn [negb] in H.
  rewrite <- (firstn_skipn 3 data), B.
  destruct (skipn 3 data) as [|v [|f t]]; [discriminate H| discriminate H|].
  exists v, f, t. split; [reflexivity|].
  unfold bind at 1 in H. cbn [LuaJIT.read_byte] in H.
  unfold bind at 1 in H.
  destruct (LuaJIT.read_uleb128 (f :: t)) as [[flags s1]|]; [|discriminate H].
  unfold bind at 1 in H.
  match type of H with
  | match ?r with _ => _ end = _ => destruct r as [[name s2]|]; [|discriminate H]
  end.
  injection H as <- _. reflexivity.
Qed.

End Dispatch.

(** X6. Every file the Lua 5.4 parser accepts is sent to it: when
    [parse] returns a prototype, [detect_lua_version] answers Lua 5.4. *)
Theorem X6_accepted_file_detected (data : bytes) (proto : Proto) :
  parse data = Ok proto ->
  Unified.detect_lua_version data = Unified.Lua_5_4.
Proof.
  intros H. destruct (parse_checks_header _ _ H) as [s' C].
  apply check_header_accepted in C. destruct C as (body & -> & L).
  destruct body as [|f body]; [discriminate L|]. reflexivity.
Qed.

Lemma X6_accepted_file_detected_witness :
  Unified.detect_lua_version (sample_file 5) = Unified.Lua_5_4.
Proof.
  apply (X6_accepted_file_detected (sample_file 5) (parsed (sample_file 5))).
  vm_compute. reflexivity.
Defined.

(** X7. For a dump whose header the LuaJIT reader accepts, the version
    check looks at the fifth byte, the first byte of the LuaJIT flags,
    before it looks at the signature.  A dump of fewer than six bytes
    is answered with detection-failed although the LuaJIT parser takes
    it; when the fifth byte is 0x54 the answer is Lua 5.4, and the
    Lua 5.4 parser then refuses the file for its signature; when the
    fifth byte is none of 0x51..0x54 the answer is LuaJIT 2.0, 2.1 or
    unknown LuaJIT, by the version byte of the header. *)
Theorem X7_luajit_dump_detected (data : bytes) (header : LuaJIT.Header) (s : bytes) :
  LuaJIT.read_header data = Ok (header, s) ->
  let fifth := byte_val (nth 4 data x00) in
  ((List.length data < 6)%nat ->
   Unified.detect_lua_version data = Unified.Detection_failed)
  /\ ((6 <= List.length data)%nat -> fifth = 0x54 ->
      Unified.detect_lua_version data = Unified.Lua_5_4
      /\ parse data = Err ValueError_signature)
  /\ ((6 <= List.length data)%nat -> (fifth < 0x51 \/ 0x54 < fifth) ->
      Unified.detect_lua_version data
      = if LuaJIT.version header =? 1 then Unified.LuaJIT_2_0
        else if LuaJIT.version header =? 2 then Unified.LuaJIT_2_1
        else Unified.LuaJIT_unknown (LuaJIT.version header)).
Proof.
  intros H fifth. destruct (luajit_header_start _ _ _ H) as (v & f & t & -> & V).
  rewrite V. subst fifth. change (nth 4 (LuaJIT.LUAJIT_SIGNATURE ++ v :: f :: t) x00) with f.
  split; [|split].
  - intros L. destruct t as [|b5 t]; [reflexivity|].
    cbn in L. lia.
  - intros L F. destruct t as [|b5 t]; [cbn in L; lia|]. split.
    + unfold Unified.detect_lua_version.
      change (skipn 4 (LuaJIT.LUAJIT_SIGNATURE ++ v :: f :: b5 :: t))
        with (f :: b5 :: t).
      change (firstn 4 (LuaJIT.LUAJIT_SIGNATURE ++ v :: f :: b5 :: t))
        with (LuaJIT.LUAJIT_SIGNATURE ++ [v]).
      change (bytes_eqb (firstn 3 (LuaJIT.LUAJIT_SIGNATURE ++ [v]))
                        LuaJIT.LUAJIT_SIGNATURE) with true.
      rewrite andb_false_r. cbv beta iota zeta. rewrite F. reflexivity.
    + unfold parse, bind. rewrite check_header_other_signature; [reflexivity|].
      vm_compute. discriminate.
  - intros L F. destruct t as [|b5 t]; [cbn in L; lia|].
    unfold Unified.detect_lua_version.
    change (skipn 4 (LuaJIT.LUAJIT_SIGNATURE ++ v :: f :: b5 :: t))
      with (f :: b5 :: t).
    change (firstn 4 (LuaJIT.LUAJIT_SIGNATURE ++ v :: f :: b5 :: t))
      with (LuaJIT.LUAJIT_SIGNATURE ++ [v]).
    change (bytes_eqb (firstn 3 (LuaJIT.LUAJIT_SIGNATURE ++ [v]))
                      LuaJIT.LUAJIT_SIGNATURE) with true.
    rewrite andb_false_r. cbv beta iota zeta.
    destruct (Z.eqb_spec (byte_val f) 81); [lia|].
    destruct (Z.eqb_spec (byte_val f) 82); [lia|].
    destruct (Z.eqb_spec (byte_val f) 83); [lia|].
    destruct (Z.eqb_spec (byte_val f) 84); [lia|].
    reflexivity.
Qed.

Lemma X7_luajit_dump_detected_witness :
  let stripped := bytes_of [0x1b; 0x4c; 0x4a; 2; 2] in
  let flagged := bytes_of [0x1b; 0x4c; 0x4a; 2; 0x54; 0; 0] in
  Unified.detect_lua_version stripped = Unified.Detection_failed
  /\ (Unified.detect_lua_version flagged = Unified.Lua_5_4
      /\ parse flagged = Err ValueError_signature)
  /\ Unified.detect_lua_version truncated_luajit = Unified.LuaJIT_2_1.
Proof.
  intros stripped flagged. split; [|split].
  - apply (proj1 (X7_luajit_dump_detected stripped
                    (LuaJIT.mkHeader (bytes_of [0x1b; 0x4c; 0x4a]) 2 2 false true false [])
                    [] eq_refl)).
    vm_compute. lia.
  - apply (proj1 (proj2 (X7_luajit_dump_detected flagged
                    (LuaJIT.mkHeader (bytes_of [0x1b; 0x4c; 0x4a]) 2 0x54 false false true [])
                    (bytes_of [0]) eq_refl))).
    + vm_compute. lia.
    + reflexivity.
  - apply (proj2 (proj2 (X7_luajit_dump_detected truncated_luajit
                    (LuaJIT.mkHeader (bytes_of [0x1b; 0x4c; 0x4a]) 2 2 false true false [])
                    (bytes_of [7; 0; 0; 0; 0; 0; 0; 0; 7; 0; 0]) eq_refl))).
    + vm_compute. lia.
    + left. vm_compute. reflexivity.
Defined.

(* ----------------------------------------------------------------- *)
(** ** Strings: what [_write_string] writes, [read_string] reads back *)

(** Goals about quotients and remainders by constants. *)
Ltac euclid := Z.to_euclidean_division_equations; lia.

Section Utf8RoundTrip.

(** One step of the decoder never gives bytes back. *)
Lemma next_shrinks (b0 : Z) (rest : bytes) :
  match Utf8.next b0 rest with
  | Utf8.Char _ r | Utf8.Bad r => (List.length r <= List.length rest)%nat
  end.
Proof.
  unfold Utf8.next.
  repeat match goal with
         | |- context [if ?c then _ else _] => destruct c
         | |- context [match ?l with [] => _ | _ :: _ => _ end] => destruct l
         end; cbn [List.length]; lia.
Qed.

Lemma decode_replace_fuel_enough (f1 : nat) :
  forall f2 data,
    (List.length data <= f1)%nat -> (List.length data <= f2)%nat ->
    Utf8.decode_replace_fuel f1 data = Utf8.decode_replace_fuel f2 data.
Proof.
  induction f1 as [|f1 IH]; intros [|f2] [|b0 rest] H1 H2;
    cbn [List.length] in *; try lia; try reflexivity.
  cbn [Utf8.decode_replace_fuel].
  pose proof (next_shrinks (byte_val b0) rest) as Hn.
  destruct (Utf8.next (byte_val b0) rest); f_equal; apply IH; lia.
Qed.

(** Decide the comparisons of a goal whose numbers are pinned down by
    the hypotheses. *)
Ltac compare_all :=
  repeat first
    [ match goal with
      | |- context [?a <? ?b] =>
          destruct (Z.ltb_spec a b); try (exfalso; euclid)
      | |- context [?a <=? ?b] =>
          destruct (Z.leb_spec a b); try (exfalso; euclid)
      | |- context [?a =? ?b] =>
          destruct (Z.eqb_spec a b); try (exfalso; euclid)
      end
    | progress cbn [andb app] ].

Lemma Ok_inj (A : Type) (a b : A) : Ok a = Ok b -> a = b.
Proof. congruence. Qed.

(** The decoder's next step on the encoding of one code point gives the
    code point back and stops right behind its bytes. *)
Lemma next_encode_char (cp : Z) (h rest : bytes) :
  Utf8.encode_char cp = Ok h ->
  exists b0 h',
    h = b0 :: h' /\ Utf8.next (byte_val b0) (h' ++ rest) = Utf8.Char cp rest.
Proof.
  unfold Utf8.encode_char.
  destruct (Z.ltb_spec cp 0); [discriminate|].
  destruct (Z.ltb_spec cp 128).
  { intros E. apply Ok_inj in E. subst h. eexists _, _. split; [reflexivity|].
    rewrite byte_val_of_Z by lia. unfold Utf8.next.
    destruct (Z.ltb_spec cp 128); [reflexivity | lia]. }
  destruct (Z.ltb_spec cp 2048).
  { intros E. apply Ok_inj in E. subst h. eexists _, _. split; [reflexivity|].
    unfold Utf8.next, Utf8.is_cont. cbn [app].
    rewrite !byte_val_of_Z by euclid.
    compare_all. f_equal. euclid. }
  destruct (Z.ltb_spec cp 65536).
  { destruct ((55296 <=? cp) && (cp <=? 57343)) eqn:S; [discriminate|].
    assert (Hs : cp < 55296 \/ 57343 < cp).
    { apply andb_false_iff in S. destruct S as [S|S];
        [left; apply Z.leb_gt in S | right; apply Z.leb_gt in S]; exact S. }
    intros E. apply Ok_inj in E. subst h. eexists _, _. split; [reflexivity|].
    unfold Utf8.next, Utf8.second3_ok, Utf8.is_cont. cbn [app].
    rewrite !byte_val_of_Z by euclid.
    compare_all; f_equal; euclid. }
  destruct (Z.ltb_spec cp 1114112); [|discriminate].
  intros E. apply Ok_inj in E. subst h. eexists _, _. split; [reflexivity|].
  unfold Utf8.next, Utf8.second4_ok, Utf8.is_cont. cbn [app].
  rewrite !byte_val_of_Z by euclid.
  compare_all; f_equal; euclid.
Qed.

(** Decoding the UTF-8 form of a string gives the string back: no
    replacement character is produced for a string that can be encoded. *)
Lemma decode_replace_encode (s : str) :
  forall data, Utf8.encode s = Ok data -> Utf8.decode_replace data = s.
Proof.
  induction s as [|cp s IH]; intros data E.
  - injection E as <-. reflexivity.
  - cbn [Utf8.encode] in E.
    destruct (Utf8.encode_char cp) as [h|] eqn:Eh; [|discriminate E].
    destruct (Utf8.encode s) as [t|] eqn:Et; [|discriminate E].
    cbn [rbind] in E. injection E as <-.
    destruct (next_encode_char cp h t Eh) as (b0 & h' & -> & N).
    unfold Utf8.decode_replace. cbn [app List.length Utf8.decode_replace_fuel].
    rewrite N. f_equal.
    rewrite (decode_replace_fuel_enough _ (List.length t)).
    + apply IH. reflexivity.
    + rewrite length_app. lia.
    + lia.
Qed.

End Utf8RoundTrip.

Section StringsAndNumbers.

Lemma write_size_nonempty (v : Z) : 0 <= v -> (1 <= List.length (_write_size v))%nat.
Proof.
  intros Hv. destruct (Z.eq_dec v 0) as [->|Hnz]; [cbn; lia|].
  rewrite write_size_pos by lia. rewrite length_app. cbn [List.length]. lia.
Qed.

Lemma string_written (s : option str) (w rest : bytes) :
  _write_string s = Ok w ->
  Z.of_nat (List.length w) <= 2 ^ 63 ->
  read_string_with_raw (w ++ rest) = Ok ((s, w), rest)
  /\ read_string (w ++ rest) = Ok (s, rest).
Proof.
  intros W L. destruct s as [s|].
  - cbn [_write_string] in W.
    destruct (Utf8.encode s) as [data|] eqn:E; [|discriminate W].
    cbn [rbind] in W. apply Ok_inj in W. subst w.
    assert (Hd : Z.of_nat (List.length data) < 2 ^ 63).
    { rewrite length_app in L.
      pose proof (write_size_nonempty (Z.of_nat (List.length data) + 1) ltac:(lia)).
      lia. }
    rewrite <- app_assoc.
    rewrite read_string_with_raw_data, read_string_data by exact Hd.
    rewrite (decode_replace_encode s data E). split; reflexivity.
  - cbn [_write_string] in W. apply Ok_inj in W. subst w. split; reflexivity.
Qed.

Lemma file_read_le_bytes (n : nat) (v : Z) (rest : bytes) :
  Z.of_nat n <= maxsize ->
  file_read (Z.of_nat n) (le_bytes n v ++ rest) = Ok (le_bytes n v, rest).
Proof.
  intros Hn. pose proof (file_read_exact (le_bytes n v) rest) as E.
  rewrite le_bytes_length in E. exact (E Hn).
Qed.

Lemma read_integer_with_raw_packed (v : Z) (w rest : bytes) :
  pack_q v = Ok w ->
  read_integer_with_raw (w ++ rest) = Ok ((v, w), rest).
Proof.
  unfold pack_q. intros W.
  destruct (Z.leb_spec (- 2 ^ 63) v); [|discriminate W].
  destruct (Z.ltb_spec v (2 ^ 63)); [|discriminate W].
  cbn [andb] in W. apply Ok_inj in W. subst w.
  unfold read_integer_with_raw, bind.
  change 8 with (Z.of_nat 8). rewrite file_read_le_bytes by (unfold maxsize; lia).
  unfold lift, unpack_q. rewrite le_bytes_length. cbn [Nat.eqb].
  rewrite le_value_le_bytes. change (256 ^ Z.of_nat 8) with (2 ^ 64).
  rewrite Z.mod_mod by lia.
  assert (E : (if v mod 2 ^ 64 <? 2 ^ 63 then v mod 2 ^ 64 else v mod 2 ^ 64 - 2 ^ 64)
              = v).
  { destruct (Z.ltb_spec (v mod 2 ^ 64) (2 ^ 63)); euclid. }
  rewrite E. reflexivity.
Qed.

Lemma read_number_with_raw_packed (bits : Z) (rest : bytes) :
  0 <= bits < 2 ^ 64 ->
  read_number_with_raw (le_bytes 8 bits ++ rest) = Ok ((bits, le_bytes 8 bits), rest).
Proof.
  intros H. unfold read_number_with_raw, bind.
  change 8 with (Z.of_nat 8). rewrite file_read_le_bytes by (unfold maxsize; lia).
  unfold lift, unpack_d. rewrite le_bytes_length. cbn [Nat.eqb].
  rewrite le_value_le_bytes. change (256 ^ Z.of_nat 8) with (2 ^ 64).
  rewrite Z.mod_small by lia. reflexivity.
Qed.

End StringsAndNumbers.

(** X8. A string written by [_write_string] is read back as it was by
    [read_string] and by [read_string_with_raw], which also captures
    exactly the bytes written; an absent string and the empty string
    are kept apart.  This holds for every string that can be encoded
    (no lone surrogate) and is written in at most 2^63 bytes, so that
    the length of its text is a size [file.read] accepts. *)
Theorem X8_string_round_trip (s : option str) (w rest : bytes) :
  _write_string s = Ok w ->
  Z.of_nat (List.length w) <= 2 ^ 63 ->
  read_string_with_raw (w ++ rest) = Ok ((s, w), rest)
  /\ read_string (w ++ rest) = Ok (s, rest).
Proof. exact (string_written s w rest). Qed.

Lemma X8_string_round_trip_witness :
  (read_string_with_raw (bytes_of [0x84; 0x68; 0xC3; 0xA9] ++ bytes_of [7])
   = Ok ((Some [0x68; 0xE9], bytes_of [0x84; 0x68; 0xC3; 0xA9]), bytes_of [7])
   /\ read_string (bytes_of [0x84; 0x68; 0xC3; 0xA9] ++ bytes_of [7])
      = Ok (Some [0x68; 0xE9], bytes_of [7]))
  /\ (read_string_with_raw (bytes_of [0x80] ++ []) = Ok ((None, bytes_of [0x80]), [])
      /\ read_string (bytes_of [0x80] ++ []) = Ok (None, []))
  /\ (read_string_with_raw (bytes_of [0x81] ++ []) = Ok ((Some [], bytes_of [0x81]), [])
      /\ read_string (bytes_of [0x81] ++ []) = Ok (Some [], [])).
Proof.
  split; [|split].
  - apply (X8_string_round_trip (Some [0x68; 0xE9])); [reflexivity | vm_compute; discriminate].
  - apply (X8_string_round_trip None); [reflexivity | vm_compute; discriminate].
  - apply (X8_string_round_trip (Some [])); [reflexivity | vm_compute; discriminate].
Defined.



(* ----------------------------------------------------------------- *)
(** ** Field groups: what the writer writes, the reader reads back *)

Section GroupsRoundTrip.

Lemma write_each_length (A : Type) (wr : A -> result bytes) :
  (forall a w, wr a = Ok w -> (1 <= List.length w)%nat) ->
  forall l w, write_each wr l = Ok w -> (List.length l <= List.length w)%nat.
Proof.
  intros Hwr. induction l as [|a l IH]; intros w W; [cbn; lia|].
  cbn [write_each] in W.
  destruct (wr a) as [h|] eqn:Eh; [|discriminate W]. cbn [rbind] in W.
  destruct (write_each wr l) as [t|] eqn:Et; [|discriminate W]. cbn [rbind] in W.
  apply Ok_inj in W. subst w. rewrite length_app. cbn [List.length].
  pose proof (Hwr a h Eh). pose proof (IH t eq_refl). lia.
Qed.

(** A loop of the reader over what a loop of the writer wrote: element
    by element, [norm] being what the reader makes of an element. *)
Lemma read_loop_written_upto (N : Z) (A : Type) (body : Reader (A * bytes))
  (wr : A -> result bytes) (ok : A -> Prop) (norm : A -> A) :
  (forall a w rest,
      ok a -> wr a = Ok w -> Z.of_nat (List.length w) <= N ->
      body (w ++ rest) = Ok ((norm a, w), rest)) ->
  forall l acc raw w rest,
    Forall ok l -> write_each wr l = Ok w -> Z.of_nat (List.length w) <= N ->
    read_loop (List.length l) body acc raw (w ++ rest)
    = Ok ((acc ++ map norm l, raw ++ w), rest).
Proof.
  intros Hbody. induction l as [|a l IH]; intros acc raw w rest F W L.
  - apply Ok_inj in W. subst w. cbn. rewrite !app_nil_r. reflexivity.
  - inversion F as [|? ? Fa Fl]; subst.
    cbn [write_each] in W.
    destruct (wr a) as [h|] eqn:Eh; [|discriminate W]. cbn [rbind] in W.
    destruct (write_each wr l) as [t|] eqn:Et; [|discriminate W]. cbn [rbind] in W.
    apply Ok_inj in W. subst w. rewrite length_app in L.
    cbn [List.length read_loop map]. rewrite <- app_assoc.
    unfold bind at 1. rewrite (Hbody a h (t ++ rest) Fa Eh) by lia.
    rewrite (IH _ _ t rest Fl eq_refl) by lia.
    rewrite <- !app_assoc. reflexivity.
Qed.

Lemma read_loop_written (A : Type) (body : Reader (A * bytes))
  (wr : A -> result bytes) (ok : A -> Prop) (norm : A -> A) :
  (forall a w rest,
      ok a -> wr a = Ok w -> Z.of_nat (List.length w) < 2 ^ 64 ->
      body (w ++ rest) = Ok ((norm a, w), rest)) ->
  forall l acc raw w rest,
    Forall ok l -> write_each wr l = Ok w -> Z.of_nat (List.length w) < 2 ^ 64 ->
    read_loop (List.length l) body acc raw (w ++ rest)
    = Ok ((acc ++ map norm l, raw ++ w), rest).
Proof.
  intros Hbody l acc raw w rest F W L.
  apply (read_loop_written_upto (2 ^ 64 - 1) A body wr ok norm); try assumption; [|lia].
  intros a w0 rest0 Ha Hw Hl. apply Hbody; [assumption | assumption | lia].
Qed.

Lemma pack_B_ok (v : Z) (w : bytes) :
  pack_B v = Ok w -> 0 <= v < 256 /\ w = [byte_of_Z v].
Proof.
  unfold pack_B. destruct (Z.leb_spec 0 v); [|discriminate].
  destruct (Z.leb_spec v 255); [|discriminate].
  cbn [andb]. intros E. apply Ok_inj in E. split; [lia | congruence].
Qed.

Lemma read_constant_written (c : Const) (w rest : bytes) :
  float_bits_ok c -> _write_constant c = Ok w ->
  Z.of_nat (List.length w) <= 2 ^ 63 ->
  read_constant (w ++ rest) = Ok ((c, w), rest).
Proof.
  intros F W L. destruct c as [|[|]|bits|i|s].
  - apply Ok_inj in W. subst w. reflexivity.
  - apply Ok_inj in W. subst w. reflexivity.
  - apply Ok_inj in W. subst w. reflexivity.
  - cbn [_write_constant] in W.
    change (pack_B VNUMFLT) with (Ok [byte_of_Z VNUMFLT]) in W.
    apply Ok_inj in W. subst w. cbn [rbind app float_bits_ok] in *.
    unfold read_constant. unfold bind at 1.
    rewrite read_byte_with_raw_cons. cbv beta iota.
    change (byte_val (byte_of_Z VNUMFLT)) with 19. decide_ifs.
    unfold bind. rewrite read_number_with_raw_packed by exact F. reflexivity.
  - cbn [_write_constant] in W.
    change (pack_B VNUMINT) with (Ok [byte_of_Z VNUMINT]) in W. cbn [rbind] in W.
    destruct (pack_q i) as [v|] eqn:Ev; [|discriminate W]. cbn [rbind] in W.
    apply Ok_inj in W. subst w. cbn [app].
    unfold read_constant. unfold bind at 1.
    rewrite read_byte_with_raw_cons. cbv beta iota.
    change (byte_val (byte_of_Z VNUMINT)) with 35. decide_ifs.
    unfold bind. rewrite (read_integer_with_raw_packed i v rest Ev). reflexivity.
  - cbn [_write_constant] in W.
    destruct (_write_string (Some s)) as [v|] eqn:Ev.
    2:{ destruct (Z.of_nat (List.length s) <=? 40); discriminate W. }
    assert (Hv : Z.of_nat (List.length v) <= 2 ^ 63).
    { destruct (Z.of_nat (List.length s) <=? 40); cbn [rbind] in W;
        apply Ok_inj in W; subst w; cbn [List.length app] in L; lia. }
    destruct (string_written (Some s) v rest Ev Hv) as [R _].
    destruct (Z.of_nat (List.length s) <=? 40); cbn [rbind] in W;
      apply Ok_inj in W; subst w; cbn [app];
      unfold read_constant; unfold bind at 1;
      rewrite read_byte_with_raw_cons; cbv beta iota;
      [change (byte_val (byte_of_Z VSHRSTR)) with 20
      |change (byte_val (byte_of_Z VLNGSTR)) with 36];
      decide_ifs; unfold bind; rewrite R; reflexivity.
Qed.

Lemma write_constant_nonempty (c : Const) (w : bytes) :
  _write_constant c = Ok w -> (1 <= List.length w)%nat.
Proof.
  destruct c as [|[|]|bits|i|s]; cbn [_write_constant]; intros W.
  1-3: apply Ok_inj in W; subst w; cbn; lia.
  - apply Ok_inj in W. subst w. cbn. lia.
  - change (pack_B VNUMINT) with (Ok [byte_of_Z VNUMINT]) in W. cbn [rbind] in W.
    destruct (pack_q i); [|discriminate W]. apply Ok_inj in W. subst w. cbn. lia.
  - destruct (_write_string (Some s)) as [v|];
      destruct (Z.of_nat (List.length s) <=? 40); try discriminate W;
      apply Ok_inj in W; subst w; cbn; lia.
Qed.

Lemma read_upvalue_written (upval : Upvalue) (w rest : bytes) :
  _write_upvalue upval = Ok w ->
  ('(instack, instack_raw) <- read_byte_with_raw ;;
   '(idx, idx_raw) <- read_byte_with_raw ;;
   '(kind, kind_raw) <- read_byte_with_raw ;;
   let upvalue_raw := instack_raw ++ idx_raw ++ kind_raw in
   ret (mkUpvalue instack idx kind (Some upvalue_raw), upvalue_raw))%reader
    (w ++ rest)
  = Ok ((captured upval, w), rest).
Proof.
  unfold _write_upvalue. intros W.
  destruct (pack_B (instack upval)) as [a|] eqn:Ea; [|discriminate W].
  destruct (pack_B (idx upval)) as [b|] eqn:Eb; [|discriminate W].
  destruct (pack_B (kind upval)) as [c|] eqn:Ec; [|discriminate W].
  cbn [rbind] in W. apply Ok_inj in W. subst w.
  apply pack_B_ok in Ea, Eb, Ec.
  destruct Ea as [Ha ->], Eb as [Hb ->], Ec as [Hc ->].
  cbn [app]. unfold bind, ret. rewrite !read_byte_with_raw_cons.
  rewrite !byte_val_of_Z by lia. reflexivity.
Qed.

Lemma write_upvalue_length (upval : Upvalue) (w : bytes) :
  _write_upvalue upval = Ok w -> (1 <= List.length w)%nat.
Proof.
  unfold _write_upvalue. intros W.
  destruct (pack_B (instack upval)) as [a|] eqn:Ea; [|discriminate W].
  destruct (pack_B (idx upval)) as [b|] eqn:Eb; [|discriminate W].
  destruct (pack_B (kind upval)) as [c|] eqn:Ec; [|discriminate W].
  cbn [rbind] in W. apply Ok_inj in W. subst w.
  apply pack_B_ok in Ea. destruct Ea as [_ ->]. cbn. lia.
Qed.

End GroupsRoundTrip.



(** X11. The upvalue descriptors written by [_write_upvalues] are read
    back by [read_upvalues] with the same three values each, together
    with the three bytes they were read from, and the captured span of
    the group is exactly the bytes written.  ([_write_upvalues] itself
    fails with [struct.error] when a value is outside 0..255.) *)
Theorem X11_upvalues_round_trip (p q : Proto) (w rest : bytes) :
  _write_upvalues p = Ok w ->
  Z.of_nat (List.length w) < 2 ^ 64 ->
  read_upvalues q (w ++ rest)
  = Ok (set_ori "upvalues" w (set_upvalues (map captured (upvalues p)) q), rest)
    /\ Forall (fun upval => 0 <= instack upval < 256 /\ 0 <= idx upval < 256
                            /\ 0 <= kind upval < 256) (upvalues p).
Proof.
  intros W L. unfold _write_upvalues in W.
  destruct (write_each _write_upvalue (upvalues p)) as [body|] eqn:Eb;
    [|discriminate W].
  cbn [rbind] in W. apply Ok_inj in W. subst w.
  rewrite length_app in L.
  pose proof (write_each_length _ _ write_upvalue_length _ _ Eb) as Hn.
  split.
  - unfold read_upvalues. rewrite <- app_assoc. unfold bind at 1.
    rewrite read_size_with_raw_write_size by lia.
    unfold range. rewrite Nat2Z.id. cbv zeta. unfold bind at 1.
    rewrite (read_loop_written _ _ _write_upvalue (fun _ => True) captured
               (fun a w0 rest0 _ Ew _ => read_upvalue_written a w0 rest0 Ew)
               (upvalues p) [] _ body rest)
      by (try apply Forall_forall; try exact Eb; try lia; intros; exact I).
    reflexivity.
  - clear L Hn. revert body Eb.
    induction (upvalues p) as [|u l IH]; intros body Eb; [constructor|].
    cbn [write_each] in Eb.
    destruct (_write_upvalue u) as [h|] eqn:Eh; [|discriminate Eb].
    destruct (write_each _write_upvalue l) as [t|] eqn:Et; [|discriminate Eb].
    constructor; [|apply (IH t eq_refl)].
    unfold _write_upvalue in Eh.
    destruct (pack_B (instack u)) as [a|] eqn:Ea; [|discriminate Eh].
    destruct (pack_B (idx u)) as [b|] eqn:Eb'; [|discriminate Eh].
    destruct (pack_B (kind u)) as [c|] eqn:Ec; [|discriminate Eh].
    apply pack_B_ok in Ea, Eb', Ec. tauto.
Qed.

Lemma X11_upvalues_round_trip_witness :
  let p := set_upvalues [mkUpvalue 1 0 0 None; mkUpvalue 0 2 1 None] empty_proto in
  let w := bytes_of [0x82; 1; 0; 0; 0; 2; 1] in
  read_upvalues empty_proto (w ++ [])
  = Ok (set_ori "upvalues" w
          (set_upvalues (map captured (upvalues p)) empty_proto), [])
    /\ Forall (fun upval => 0 <= instack upval < 256 /\ 0 <= idx upval < 256
                            /\ 0 <= kind upval < 256) (upvalues p).
Proof.
  intros p w. apply (X11_upvalues_round_trip p empty_proto w []).
  - vm_compute. reflexivity.
  - vm_compute. reflexivity.
Defined.

(* ----------------------------------------------------------------- *)
(** ** The operands of a decoded instruction *)

Section Operands.

Lemma land_ones_const (x : Z) :
  Z.land x 0x1 = x mod 2 ^ 1
  /\ Z.land x 0xFF = x mod 2 ^ 8
  /\ Z.land x 0x1FFFF = x mod 2 ^ 17
  /\ Z.land x 0x1FFFFFF = x mod 2 ^ 25.
Proof.
  repeat split.
  - apply (Z.land_ones x 1). lia.
  - apply (Z.land_ones x 8). lia.
  - apply (Z.land_ones x 17). lia.
  - apply (Z.land_ones x 25). lia.
Qed.

Lemma operands (w : Z) :
  Z.land w 0x7F = w mod 128
  /\ Z.land (Z.shiftr w 7) 0xFF = (w / 2 ^ 7) mod 2 ^ 8
  /\ Z.land (Z.shiftr w 15) 0x1 = (w / 2 ^ 15) mod 2 ^ 1
  /\ Z.land (Z.shiftr w 16) 0xFF = (w / 2 ^ 16) mod 2 ^ 8
  /\ Z.land (Z.shiftr w 24) 0xFF = (w / 2 ^ 24) mod 2 ^ 8
  /\ Z.land (Z.shiftr w 15) 0x1FFFF = (w / 2 ^ 15) mod 2 ^ 17
  /\ Z.land (Z.shiftr w 7) 0x1FFFFFF = (w / 2 ^ 7) mod 2 ^ 25.
Proof.
  rewrite !Z.shiftr_div_pow2 by lia.
  pose proof (land_ones_const (w / 2 ^ 7)) as (_ & A & _ & Ax).
  pose proof (land_ones_const (w / 2 ^ 15)) as (K & _ & Bx & _).
  pose proof (land_ones_const (w / 2 ^ 16)) as (_ & B & _ & _).
  pose proof (land_ones_const (w / 2 ^ 24)) as (_ & C & _ & _).
  rewrite land_127. repeat split; assumption.
Qed.

End Operands.

(** X12. Decoding loses no bit of a known instruction.  For every 32-bit
    word whose opcode is in the table, the operands [decode_instruction]
    returns fill the word exactly: put back by the layout of the mode
    (iABC, iABx, iAsBx, iAx or isJ), they give the word.  The signed
    operands are the unsigned field minus its bias, so [sBx] is in
    -65535..65536 and [sJ] in -16777215..16777216. *)
Theorem X12_decode_instruction_reassembles (w : Z) :
  0 <= w < 2 ^ 32 ->
  Z.land w 0x7F <= 82 ->
  reassemble (decode_instruction w) = Some w
  /\ - 65535 <= field "sBx" (decode_instruction w) <= 65536
  /\ - 16777215 <= field "sJ" (decode_instruction w) <= 16777216.
Proof.
  intros Hw Hop.
  pose proof (opcode_range w) as Hr.
  destruct (opcode_info_known (Z.land w 0x7F) ltac:(lia)) as (name & mode & E).
  destruct (operands w) as (O & A & K & B & C & Bx & Ax).
  unfold decode_instruction. rewrite E.
  destruct mode;
    cbv [reassemble field dict_get dict_set String.eqb Ascii.eqb Bool.eqb];
    rewrite ?O, ?A, ?K, ?B, ?C, ?Bx, ?Ax;
    (split; [f_equal; euclid | split; euclid]).
Qed.

Lemma X12_decode_instruction_reassembles_witness :
  reassemble (decode_instruction 0x7FFF8001) = Some 0x7FFF8001
  /\ - 65535 <= field "sBx" (decode_instruction 0x7FFF8001) <= 65536
  /\ - 16777215 <= field "sJ" (decode_instruction 0x7FFF8001) <= 16777216.
Proof.
  apply (X12_decode_instruction_reassembles 0x7FFF8001).
  - lia.
  - vm_compute. discriminate.
Defined.

(* ----------------------------------------------------------------- *)
(** ** What the XOR transform does and what it leaves alone *)

Section TransformFacts.

(** The two outcomes of the tree-wide transform. *)
Lemma transform_cases (c : Cipher) (proto : Proto) :
  exists proto',
    encrypt_proto_code c proto = Ok proto'
    /\ decrypt_proto_code c proto = Ok proto'
    /\ (proto' = proto
        \/ exists key, key <> [] /\ encryption_key c = Some key
                       /\ proto' = xor_tree key proto).
Proof.
  destruct (encrypt_mode c) eqn:Hm.
  - destruct (key_missing c) eqn:Hk.
    + destruct (guard_returns c proto (or_intror Hk)) as [E D].
      exists proto. auto.
    + unfold key_missing in Hk.
      destruct (encryption_key c) as [key|] eqn:Ek; [|discriminate Hk].
      assert (Hne : key <> []) by (destruct key; [discriminate Hk | discriminate]).
      exists (xor_tree key proto).
      rewrite (encrypt_proto_code_spec key c Hm Ek Hne),
              (decrypt_proto_code_spec key c Hm Ek Hne).
      split; [reflexivity|]. split; [reflexivity|].
      right. exists key. auto.
  - destruct (guard_returns c proto (or_introl Hm)) as [E D].
    exists proto. auto.
Qed.

Lemma flat_map_ext_Forall (A B : Type) (f g : A -> list B) (l : list A) :
  Forall (fun a => f a = g a) l -> flat_map f l = flat_map g l.
Proof.
  induction 1 as [|a l E _ IH]; [reflexivity|]. cbn. rewrite E, IH. reflexivity.
Qed.

(** The decoded fields of a prototype are out of the transform's reach. *)
Lemma xor_tree_decoded (key : bytes) (proto : Proto) :
  code (xor_tree key proto) = code proto
  /\ constants (xor_tree key proto) = constants proto
  /\ upvalues (xor_tree key proto) = upvalues proto
  /\ source (xor_tree key proto) = source proto
  /\ List.length (protos (xor_tree key proto)) = List.length (protos proto).
Proof.
  destruct proto as [src ld lld np va ms cd ks us ps li ali lv un o].
  cbn [xor_tree ori protos].
  destruct (truthy o); [destruct (dict_get "code" o) as [raw|];
                        [destruct (split_size raw)|]|];
    proto_fields; rewrite length_map; repeat split.
Qed.

Lemma extract_xor_tree (key : bytes) (proto : Proto) :
  _extract_all_instructions (xor_tree key proto) = _extract_all_instructions proto.
Proof.
  induction proto as [src ld lld np va ms cd ks us ps li ali lv un o IH]
    using Proto_tree_ind.
  rewrite !extract_preorder.
  destruct (xor_tree_decoded key (mkProto src ld lld np va ms cd ks us ps li ali lv un o))
    as (-> & _).
  f_equal.
  assert (P : protos (xor_tree key (mkProto src ld lld np va ms cd ks us ps li ali lv un o))
              = map (xor_tree key) ps).
  { cbn [xor_tree ori protos].
    destruct (truthy o); [destruct (dict_get "code" o) as [raw|];
                          [destruct (split_size raw)|]|]; reflexivity. }
  rewrite P. cbn [protos]. rewrite flat_map_concat_map, map_map, <- flat_map_concat_map.
  apply flat_map_ext_Forall. exact IH.
Qed.

Lemma nth_xor_from (key : bytes) (data : bytes) :
  forall pos i,
    (i < List.length data)%nat ->
    nth i (xor_from key pos data) x00 = xor_at key (pos + i) (nth i data x00).
Proof.
  induction data as [|b data IH]; intros pos i Hi; [cbn in Hi; lia|].
  destruct i as [|i].
  - cbn. rewrite Nat.add_0_r. reflexivity.
  - cbn [xor_from nth]. rewrite IH by (cbn in Hi; lia).
    f_equal. lia.
Qed.

Lemma code_data_xor (key : bytes) (c : Cipher) (data : bytes) :
  encryption_key c = Some key -> key <> [] ->
  encrypt_code_data c data = Ok (xor_from key 0 data)
  /\ decrypt_code_data c data = Ok (xor_from key 0 data).
Proof.
  intros Hk Hne. unfold encrypt_code_data, decrypt_code_data. rewrite Hk.
  destruct key; [contradiction|]. simpl (_ =? _)%nat.
  rewrite flat_map_xor. split; reflexivity.
Qed.

End TransformFacts.

(** X13. The tree-wide transform never raises, whatever the state of the
    parser and whatever the tree: [encrypt_proto_code] and
    [decrypt_proto_code] both return, and they return the same tree (they
    are one function under two names).  The key error of
    [encrypt_code_data] cannot be reached through them. *)
Theorem X13_transform_never_raises (c : Cipher) (proto : Proto) :
  exists proto',
    encrypt_proto_code c proto = Ok proto'
    /\ decrypt_proto_code c proto = Ok proto'.
Proof.
  destruct (transform_cases c proto) as (proto' & E & D & _).
  exists proto'. split; assumption.
Qed.

(** X14. The transform rewrites captured bytes only; the decoded view is
    left as it was.  After [encrypt_proto_code] (with any key) the
    instruction list of every prototype, and so the flattened sequence
    that [compare_opcodes] works on, is the one from before the
    transform, as are the constants, the upvalues, the source and the
    number of children. *)
Theorem X14_transform_keeps_decoded_view (c : Cipher) (proto proto' : Proto) :
  encrypt_proto_code c proto = Ok proto' ->
  _extract_all_instructions proto' = _extract_all_instructions proto
  /\ code proto' = code proto
  /\ constants proto' = constants proto
  /\ upvalues proto' = upvalues proto
  /\ source proto' = source proto
  /\ List.length (protos proto') = List.length (protos proto).
Proof.
  intros E. destruct (transform_cases c proto) as (p & E' & _ & H).
  rewrite E in E'. apply Ok_inj in E'. subst p.
  destruct H as [-> | (key & _ & _ & ->)]; [repeat split|].
  split; [apply extract_xor_tree | apply xor_tree_decoded].
Qed.

Lemma X14_transform_keeps_decoded_view_witness :
  let T := xor_tree (bytes_of [0x61; 0x62]) sample_tree in
  _extract_all_instructions T = _extract_all_instructions sample_tree
  /\ code T = code sample_tree
  /\ constants T = constants sample_tree
  /\ upvalues T = upvalues sample_tree
  /\ source T = source sample_tree
  /\ List.length (protos T) = List.length (protos sample_tree).
Proof.
  intros T.
  apply (X14_transform_keeps_decoded_view
           (set_encryption_key (bytes_of [0x61; 0x62]) cipher_init) sample_tree T).
  vm_compute. reflexivity.
Defined.

(** X15. With a key that is not empty, [encrypt_code_data] and
    [decrypt_code_data] are the same function: the output has the length
    of the input, also when that is no multiple of four, byte [i] is the
    input byte XOR the key byte at [i] modulo the key length, counted
    from the start of the data, and applying it again gives the input
    back. *)
Theorem X15_code_data_keystream (key data : bytes) :
  key <> [] ->
  let c := set_encryption_key key cipher_init in
  exists out,
    encrypt_code_data c data = Ok out
    /\ decrypt_code_data c data = Ok out
    /\ List.length out = List.length data
    /\ (forall i, (i < List.length data)%nat ->
          byte_val (nth i out x00)
          = Z.lxor (byte_val (nth i data x00))
                   (byte_val (nth (i mod List.length key) key x00)))
    /\ encrypt_code_data c out = Ok data.
Proof.
  intros Hne c.
  destruct (code_data_xor key c data eq_refl Hne) as [E D].
  exists (xor_from key 0 data).
  split; [exact E|]. split; [exact D|].
  split; [apply xor_from_length|]. split.
  - intros i Hi. rewrite nth_xor_from by exact Hi. unfold xor_at. cbn [Nat.add].
    apply byte_val_of_Z. apply lxor_byte_range; apply byte_val_range.
  - destruct (code_data_xor key c (xor_from key 0 data) eq_refl Hne) as [E2 _].
    rewrite E2, xor_from_twice. reflexivity.
Qed.

Lemma X15_code_data_keystream_witness :
  let key := bytes_of [0x61; 0x62; 0x63] in
  let data := bytes_of [1; 2; 3; 4; 5] in
  let c := set_encryption_key key cipher_init in
  exists out,
    encrypt_code_data c data = Ok out
    /\ decrypt_code_data c data = Ok out
    /\ List.length out = List.length data
    /\ (forall i, (i < List.length data)%nat ->
          byte_val (nth i out x00)
          = Z.lxor (byte_val (nth i data x00))
                   (byte_val (nth (i mod List.length key) key x00)))
    /\ encrypt_code_data c out = Ok data.
Proof.
  intros key data.
  apply (X15_code_data_keystream key data).
  vm_compute. discriminate.
Defined.

(** X16. On a prototype whose captured instruction span starts with a
    size that [read_size_with_raw] can read, the transform with a key
    that is not empty leaves the size bytes as they are and XORs exactly
    the bytes behind them: the new span has the same length, the same
    size is read from it, and what follows the size is the keystream XOR
    of the old instruction bytes. *)
Theorem X16_transform_keeps_count
  (key : bytes) (proto : Proto) (code_raw : bytes) (n : Z) (n_raw insts : bytes) :
  key <> [] ->
  dict_get "code" (ori proto) = Some code_raw ->
  read_size_with_raw code_raw = Ok ((n, n_raw), insts) ->
  exists proto' out,
    encrypt_proto_code (set_encryption_key key cipher_init) proto = Ok proto'
    /\ dict_get "code" (ori proto') = Some (n_raw ++ out)
    /\ read_size_with_raw (n_raw ++ out) = Ok ((n, n_raw), out)
    /\ encrypt_code_data (set_encryption_key key cipher_init) insts = Ok out
    /\ List.length out = List.length insts.
Proof.
  intros Hne Hg Hr.
  set (c := set_encryption_key key cipher_init).
  exists (xor_tree key proto), (xor_from key 0 insts).
  split; [apply (encrypt_proto_code_spec key c eq_refl eq_refl Hne)|].
  unfold read_size_with_raw in Hr.
  destruct (split_size_read_size _ _ _ _ _ _ Hr) as (pre & E1 & E2).
  cbn [app] in E1. subst pre.
  destruct (read_size_with_raw_loop_frame _ _ _ _ _ _ Hr) as (pre & _ & E3 & F).
  cbn [app] in E3. subst pre.
  split; [|split; [apply F | split; [apply (code_data_xor key c insts eq_refl Hne)
                                      | apply xor_from_length]]].
  destruct proto as [src ld lld np va ms cd ks us ps li ali lv un o].
  cbn [ori] in Hg. cbn [xor_tree ori protos].
  assert (T : truthy o = true) by (destruct o; [discriminate Hg | reflexivity]).
  rewrite T, Hg, E2. proto_fields. apply dict_get_set.
Qed.

Lemma X16_transform_keeps_count_witness :
  exists proto' out,
    encrypt_proto_code (set_encryption_key (bytes_of [0x61; 0x62]) cipher_init)
                       sample_child = Ok proto'
    /\ dict_get "code" (ori proto') = Some (bytes_of [0x82] ++ out)
    /\ read_size_with_raw (bytes_of [0x82] ++ out) = Ok ((2, bytes_of [0x82]), out)
    /\ encrypt_code_data (set_encryption_key (bytes_of [0x61; 0x62]) cipher_init)
                         (bytes_of [1; 2; 3; 4; 5; 6; 7; 8]) = Ok out
    /\ List.length out = List.length (bytes_of [1; 2; 3; 4; 5; 6; 7; 8]).
Proof.
  apply (X16_transform_keeps_count (bytes_of [0x61; 0x62]) sample_child
           (bytes_of [0x82; 1; 2; 3; 4; 5; 6; 7; 8]) 2 (bytes_of [0x82])
           (bytes_of [1; 2; 3; 4; 5; 6; 7; 8])).
  - vm_compute. discriminate.
  - reflexivity.
  - reflexivity.
Defined.

(* ----------------------------------------------------------------- *)
(** ** The opcode mapping as a table *)

Section MappingFacts.

Lemma map_get_None (k : Z) (m : mapping) :
  map_get k m = None -> ~ In k (map fst m).
Proof.
  induction m as [|[k' v] m IH]; intros H; [intros []|].
  cbn [map_get] in H. destruct (Z.eqb_spec k k'); [discriminate H|].
  cbn [map fst In]. intros [E|E]; [congruence | exact (IH H E)].
Qed.

Lemma analyze_keys (insts : list (Z * Z)) :
  forall (m : mapping) (w : list warning),
    NoDup (map fst m) ->
    Forall (fun kv => 0 <= fst kv < 128 /\ 0 <= snd kv < 128) m ->
    let final := fold_left analyze_step insts (m, w) in
    NoDup (map fst (fst final))
    /\ Forall (fun kv => 0 <= fst kv < 128 /\ 0 <= snd kv < 128) (fst final).
Proof.
  induction insts as [|[a b] insts IH]; intros m w Hn Hb; [split; assumption|].
  cbn [fold_left]. rewrite analyze_step_opcodes. cbn [fst snd].
  destruct (map_get (Z.land a 127) m) as [recorded|] eqn:G.
  - destruct (negb (recorded =? Z.land b 127)); apply IH; assumption.
  - apply IH.
    + rewrite map_app. cbn [map fst].
      apply NoDup_app; [exact Hn | repeat constructor; intros [] | ].
      intros k Hk [<-|[]]. exact (map_get_None _ _ G Hk).
    + apply Forall_app. split; [exact Hb|].
      constructor; [|constructor]. cbn [fst snd].
      split; apply opcode_range.
Qed.

Lemma bounded_keys_length (keys : list Z) :
  NoDup keys -> Forall (fun k => 0 <= k < 128) keys -> (List.length keys <= 128)%nat.
Proof.
  intros Hn Hb.
  change 128%nat with (List.length (map Z.of_nat (seq 0 128))).
  apply NoDup_incl_length; [exact Hn|].
  intros k Hk. rewrite Forall_forall in Hb. specialize (Hb k Hk).
  apply in_map_iff. exists (Z.to_nat k). split; [lia|].
  apply in_seq. lia.
Qed.

Lemma first_seen_respects (f : Z -> Z) (pairs : list (Z * Z)) :
  Forall (fun pair => snd pair = f (fst pair)) pairs ->
  forall k v, first_seen k pairs = Some v -> v = f k.
Proof.
  unfold first_seen. induction 1 as [|[a b] pairs E _ IH]; intros k v H;
    [discriminate H|].
  cbn [find fst] in H. destruct (Z.eqb_spec k a) as [->|].
  - cbn in H. cbn in E. congruence.
  - apply IH. exact H.
Qed.

Lemma first_seen_In (k v : Z) (pairs : list (Z * Z)) :
  In (k, v) pairs -> exists v', first_seen k pairs = Some v'.
Proof.
  unfold first_seen. induction pairs as [|[a b] pairs IH]; intros H; [destruct H|].
  cbn [find fst]. destruct (Z.eqb_spec k a).
  - exists b. reflexivity.
  - destruct H as [H|H]; [congruence | exact (IH H)].
Qed.

Lemma flat_map_nil (A B : Type) (g : A -> list B) (l : list A) :
  (forall x, In x l -> g x = []) -> flat_map g l = [].
Proof.
  induction l as [|a l IH]; intros H; [reflexivity|].
  cbn. rewrite (H a (or_introl eq_refl)), IH; [reflexivity|].
  intros x Hx. apply H. right. exact Hx.
Qed.

Lemma renumbered_pairs (f : Z -> Z) (standard shuffled : list Z) :
  Forall2 (fun a b => Z.land b 0x7F = f (Z.land a 0x7F)) standard shuffled ->
  Forall (fun pair => snd pair = f (fst pair)) (opcode_pairs standard shuffled)
  /\ forall a, In a standard ->
               In (Z.land a 0x7F, f (Z.land a 0x7F)) (opcode_pairs standard shuffled).
Proof.
  unfold opcode_pairs. induction 1 as [|a b l l' E _ [IH1 IH2]].
  - split; [constructor | intros a []].
  - cbn [combine map fst snd]. split; [constructor; assumption|].
    intros x [<-|Hx]; [left; rewrite E; reflexivity | right; apply IH2; exact Hx].
Qed.

End MappingFacts.

(** X17. The mapping [_analyze_opcode_mapping] returns is a table in the
    proper sense, whatever the two instruction sequences are: no
    standard opcode is listed twice, every opcode on either side is in
    0..127, and so the table has at most 128 entries. *)
Theorem X17_mapping_is_a_table (standard shuffled : list Z) :
  let opcode_mapping := fst (_analyze_opcode_mapping standard shuffled) in
  NoDup (map fst opcode_mapping)
  /\ Forall (fun kv => 0 <= fst kv < 128 /\ 0 <= snd kv < 128) opcode_mapping
  /\ (List.length opcode_mapping <= 128)%nat.
Proof.
  intros opcode_mapping.
  destruct (analyze_keys (combine standard shuffled) [] [] (NoDup_nil _)
              (Forall_nil _)) as [Hn Hb].
  fold (_analyze_opcode_mapping standard shuffled) in Hn, Hb.
  fold opcode_mapping in Hn, Hb.
  split; [exact Hn|]. split; [exact Hb|].
  rewrite <- (length_map fst). apply bounded_keys_length; [exact Hn|].
  rewrite Forall_map. eapply Forall_impl; [|exact Hb].
  intros kv [H _]. exact H.
Qed.

(** X18. When the second file is the first one under a renumbering [f]
    of the opcodes, that is, every aligned pair of instructions has
    opcodes [k] and [f k], the comparison recovers [f]: no inconsistency
    is printed, every entry of the mapping is of the form [k -> f k],
    and every opcode that occurs in the first file has its entry.  With
    the identity for [f]: a file compared with itself maps every opcode
    to itself. *)
Theorem X18_renumbering_recovered (f : Z -> Z) (standard shuffled : list Z) :
  Forall2 (fun a b => Z.land b 0x7F = f (Z.land a 0x7F)) standard shuffled ->
  snd (_analyze_opcode_mapping standard shuffled) = []
  /\ (forall k v, map_get k (fst (_analyze_opcode_mapping standard shuffled)) = Some v ->
                  v = f k)
  /\ (forall a, In a standard ->
                map_get (Z.land a 0x7F) (fst (_analyze_opcode_mapping standard shuffled))
                = Some (f (Z.land a 0x7F))).
Proof.
  intros H.
  destruct (analyze_first_seen standard shuffled) as [Hm Hw].
  destruct (renumbered_pairs f standard shuffled H) as [Hp Hin].
  split; [|split].
  - rewrite Hw. unfold conflicts. apply flat_map_nil.
    intros [k v] Hk. cbn [fst snd].
    destruct (first_seen_In k v _ Hk) as [v' E]. rewrite E.
    rewrite (first_seen_respects f _ Hp k v' E).
    rewrite Forall_forall in Hp. specialize (Hp (k, v) Hk). cbn in Hp.
    rewrite Hp, Z.eqb_refl. reflexivity.
  - intros k v G. rewrite Hm in G. exact (first_seen_respects f _ Hp k v G).
  - intros a Ha. rewrite Hm.
    destruct (first_seen_In _ _ _ (Hin a Ha)) as [v' E].
    rewrite E, (first_seen_respects f _ Hp _ v' E). reflexivity.
Qed.

Lemma X18_renumbering_recovered_witness :
  let standard := [0x00000146; 0x00000008; 0x00010146] in
  let shuffled := [0x00000147; 0x00000009; 0x00010147] in
  snd (_analyze_opcode_mapping standard shuffled) = []
  /\ (forall k v, map_get k (fst (_analyze_opcode_mapping standard shuffled)) = Some v ->
                  v = k + 1)
  /\ (forall a, In a standard ->
                map_get (Z.land a 0x7F) (fst (_analyze_opcode_mapping standard shuffled))
                = Some (Z.land a 0x7F + 1)).
Proof.
  intros standard shuffled.
  apply (X18_renumbering_recovered (fun k => k + 1) standard shuffled).
  repeat constructor.
Defined.

(* ----------------------------------------------------------------- *)
(** ** Writing the transformed file *)

(** X19. [write_encrypted_luac] and [write_decrypted_luac] write the
    same bytes for the same tree and key.  With the empty key both
    write the tree as it is, untransformed, and raise nothing.  Before
    [parse] they fail differently: the first with the attribute error
    of [None], the second with its own ValueError. *)
Theorem X19_write_transformed_file (main_proto : Proto) (key : bytes) :
  write_encrypted_luac (Some main_proto) key = write_decrypted_luac (Some main_proto) key
  /\ write_encrypted_luac (Some main_proto) [] = _write_luac_file main_proto
  /\ write_encrypted_luac None key = Err AttributeError
  /\ write_decrypted_luac None key = Err ValueError_not_parsed.
Proof.
  unfold write_encrypted_luac, write_decrypted_luac.
  split; [|split; [|split; reflexivity]].
  - destruct (transform_cases (set_encryption_key key cipher_init) main_proto)
      as (p & -> & -> & _). reflexivity.
  - destruct (guard_returns (set_encryption_key [] cipher_init) main_proto
                (or_intror eq_refl)) as [-> _]. reflexivity.
Qed.

(* ----------------------------------------------------------------- *)
(** ** The LuaJIT reader: varints, header, flags *)

Section LuaJITFacts.

Lemma read_uleb128_loop_cont (res shift : Z) (b : byte) (s : bytes) :
  128 <= byte_val b ->
  LuaJIT.read_uleb128_loop res shift (b :: s)
  = if shift + 7 >=? 35 then Err Exception_uleb_too_long
    else LuaJIT.read_uleb128_loop
           (Z.lor res (Z.shiftl (Z.land (byte_val b) 0x7F) shift)) (shift + 7) s.
Proof.
  intros H. cbn [LuaJIT.read_uleb128_loop].
  rewrite land_128_high by (pose proof (byte_val_range b); lia).
  reflexivity.
Qed.

(** Below the groups already read there is room for the next one. *)
Lemma lor_group_bound (res g shift : Z) :
  0 <= shift -> 0 <= res < 2 ^ shift -> 0 <= g < 128 ->
  0 <= Z.lor res (Z.shiftl g shift) < 2 ^ (shift + 7).
Proof.
  intros Hs Hr Hg. rewrite Z.lor_comm, shl_or by lia.
  rewrite pow2_split by lia. change (2 ^ 7) with 128. nia.
Qed.

Lemma read_uleb128_loop_bound (s : bytes) :
  forall (k : nat) (res v : Z) (s' : bytes),
    (k <= 4)%nat ->
    0 <= res < 2 ^ (7 * Z.of_nat k) ->
    LuaJIT.read_uleb128_loop res (7 * Z.of_nat k) s = Ok (v, s') ->
    0 <= v < 2 ^ 35
    /\ exists pre, s = pre ++ s' /\ (1 <= List.length pre <= 5 - k)%nat.
Proof.
  induction s as [|b s IH]; intros k res v s' Hk Hres H; [discriminate H|].
  cbn [LuaJIT.read_uleb128_loop] in H.
  pose proof (Z.mod_pos_bound (byte_val b) 128 ltac:(lia)) as Hg.
  rewrite <- land_127 in Hg.
  pose proof (lor_group_bound res (Z.land (byte_val b) 127) (7 * Z.of_nat k)
                ltac:(lia) Hres Hg) as Hnew.
  replace (7 * Z.of_nat k + 7) with (7 * Z.of_nat (S k)) in * by lia.
  destruct (Z.land (byte_val b) 128 =? 0).
  - apply Ok_inj in H.
    assert (Ev : v = Z.lor res (Z.shiftl (Z.land (byte_val b) 127) (7 * Z.of_nat k)))
      by congruence.
    assert (Es : s' = s) by congruence. subst s'. split.
    + rewrite Ev. split; [lia|].
      apply Z.lt_le_trans with (2 ^ (7 * Z.of_nat (S k))); [lia|].
      apply Z.pow_le_mono_r; lia.
    + exists [b]. split; [reflexivity | cbn [List.length]; lia].
  - destruct (Z.geb_spec (7 * Z.of_nat (S k)) 35); [discriminate H|].
    destruct (IH (S k) _ v s' ltac:(lia) Hnew H) as (Hv & pre & -> & Hl).
    split; [exact Hv|]. exists (b :: pre). split; [reflexivity | cbn [List.length]; lia].
Qed.

Lemma parse_loop_flags (f1 f2 : Z) :
  LuaJIT.has_flag f1 LuaJIT.BCDUMP_F_STRIP = LuaJIT.has_flag f2 LuaJIT.BCDUMP_F_STRIP ->
  (forall s, LuaJIT.read_proto f1 s = LuaJIT.read_proto f2 s)
  /\ (forall rounds protos s,
        LuaJIT.parse_loop rounds f1 protos s = LuaJIT.parse_loop rounds f2 protos s).
Proof.
  intros H.
  assert (R : forall s, LuaJIT.read_proto f1 s = LuaJIT.read_proto f2 s).
  { intros s. unfold LuaJIT.read_proto. rewrite H. reflexivity. }
  split; [exact R|].
  induction rounds as [|rounds IH]; intros protos s; [reflexivity|].
  destruct s as [|b s]; [reflexivity|].
  cbn [LuaJIT.parse_loop]. rewrite R.
  destruct (LuaJIT.read_proto f2 (b :: s)) as [[proto s']|]; [|reflexivity].
  destruct (LuaJIT.size proto =? 0); [reflexivity | apply IH].
Qed.

End LuaJITFacts.

(** X20. [read_uleb128] takes between one and five bytes and returns a
    value below 2^35; on five bytes that all carry the continuation bit
    it raises the too-long error, whatever follows. *)
Theorem X20_read_uleb128_bounds :
  (forall s v s',
      LuaJIT.read_uleb128 s = Ok (v, s') ->
      0 <= v < 2 ^ 35
      /\ exists pre, s = pre ++ s' /\ (1 <= List.length pre <= 5)%nat)
  /\ (forall b1 b2 b3 b4 b5 rest,
        Forall (fun b => 128 <= byte_val b) [b1; b2; b3; b4; b5] ->
        LuaJIT.read_uleb128 (b1 :: b2 :: b3 :: b4 :: b5 :: rest)
        = Err Exception_uleb_too_long).
Proof.
  split.
  - intros s v s' H.
    apply (read_uleb128_loop_bound s 0 0 v s'); [lia | cbn; lia | exact H].
  - intros b1 b2 b3 b4 b5 rest H.
    inversion H as [|? ? H1 H']; subst. inversion H' as [|? ? H2 H'']; subst.
    inversion H'' as [|? ? H3 H''']; subst. inversion H''' as [|? ? H4 H'''']; subst.
    inversion H'''' as [|? ? H5 _]; subst.
    unfold LuaJIT.read_uleb128.
    rewrite read_uleb128_loop_cont by exact H1. decide_ifs.
    rewrite read_uleb128_loop_cont by exact H2. decide_ifs.
    rewrite read_uleb128_loop_cont by exact H3. decide_ifs.
    rewrite read_uleb128_loop_cont by exact H4. decide_ifs.
    rewrite read_uleb128_loop_cont by exact H5. decide_ifs.
    reflexivity.
Qed.

Lemma X20_read_uleb128_bounds_witness :
  (0 <= 300 < 2 ^ 35
   /\ exists pre, bytes_of [0xAC; 0x02; 9] = pre ++ bytes_of [9]
                  /\ (1 <= List.length pre <= 5)%nat)
  /\ LuaJIT.read_uleb128 (bytes_of [0x80; 0x80; 0x80; 0x80; 0x80; 0])
     = Err Exception_uleb_too_long.
Proof.
  destruct X20_read_uleb128_bounds as [H1 H2]. split.
  - apply (H1 (bytes_of [0xAC; 0x02; 9]) 300 (bytes_of [9])). reflexivity.
  - apply (H2 x80 x80 x80 x80 x80 (bytes_of [0])).
    repeat constructor; vm_compute; discriminate.
Defined.

(** X21. Of the header flags only the strip bit is looked at when the
    prototypes are read: two flag values with the same strip bit give
    the same result for every prototype and for the whole sequence.  In
    particular the big-endian bit changes nothing, 16-bit and 32-bit
    values are always taken as little-endian. *)
Theorem X21_only_strip_flag_read (f1 f2 : Z) :
  LuaJIT.has_flag f1 LuaJIT.BCDUMP_F_STRIP = LuaJIT.has_flag f2 LuaJIT.BCDUMP_F_STRIP ->
  (forall s, LuaJIT.read_proto f1 s = LuaJIT.read_proto f2 s)
  /\ (forall rounds protos s,
        LuaJIT.parse_loop rounds f1 protos s = LuaJIT.parse_loop rounds f2 protos s).
Proof. exact (parse_loop_flags f1 f2). Qed.

Lemma X21_only_strip_flag_read_witness :
  (forall s, LuaJIT.read_proto 2 s = LuaJIT.read_proto 3 s)
  /\ (forall rounds protos s,
        LuaJIT.parse_loop rounds 2 protos s = LuaJIT.parse_loop rounds 3 protos s).
Proof.
  apply (X21_only_strip_flag_read 2 3). reflexivity.
Defined.

(** X22. [read_header] never refuses a dump for its version byte: the
    byte is recorded in the header and has no other effect, so two
    dumps that differ in it alone are both accepted or both refused,
    with the same flags, source name and rest.  What it does refuse: an
    input shorter than three bytes (too small) and one that does not
    start with the signature. *)
Theorem X22_read_header_version_unchecked :
  (forall v v' rest,
      LuaJIT.read_header (LuaJIT.LUAJIT_SIGNATURE ++ v' :: rest)
      = match LuaJIT.read_header (LuaJIT.LUAJIT_SIGNATURE ++ v :: rest) with
        | Ok (h, s) =>
            Ok (LuaJIT.mkHeader (LuaJIT.signature h) (byte_val v') (LuaJIT.h_flags h)
                  (LuaJIT.is_big_endian h) (LuaJIT.is_stripped h) (LuaJIT.has_ffi h)
                  (LuaJIT.source_name h), s)
        | Err e => Err e
        end)
  /\ (forall data, (List.length data < 3)%nat ->
                   LuaJIT.read_header data = Err Exception_too_small)
  /\ (forall data, (3 <= List.length data)%nat ->
                   firstn 3 data <> LuaJIT.LUAJIT_SIGNATURE ->
                   LuaJIT.read_header data = Err Exception_signature).
Proof.
  split; [|split].
  - intros v v' rest. unfold LuaJIT.read_header.
    change (List.length (LuaJIT.LUAJIT_SIGNATURE ++ v' :: rest) <? 3)%nat with false.
    change (List.length (LuaJIT.LUAJIT_SIGNATURE ++ v :: rest) <? 3)%nat with false.
    change (firstn 3 (LuaJIT.LUAJIT_SIGNATURE ++ v' :: rest))
      with LuaJIT.LUAJIT_SIGNATURE.
    change (firstn 3 (LuaJIT.LUAJIT_SIGNATURE ++ v :: rest))
      with LuaJIT.LUAJIT_SIGNATURE.
    change (bytes_eqb LuaJIT.LUAJIT_SIGNATURE LuaJIT.LUAJIT_SIGNATURE) with true.
    change (skipn 3 (LuaJIT.LUAJIT_SIGNATURE ++ v' :: rest)) with (v' :: rest).
    change (skipn 3 (LuaJIT.LUAJIT_SIGNATURE ++ v :: rest)) with (v :: rest).
    cbv iota. cbn [negb]. cbv iota.
    unfold bind, ret. cbn [LuaJIT.read_byte]. cbv beta iota.
    destruct (LuaJIT.read_uleb128 rest) as [[flags s1]|]; [|reflexivity].
    cbv beta iota zeta.
    destruct (negb (LuaJIT.has_flag flags LuaJIT.BCDUMP_F_STRIP)); [|reflexivity].
    destruct (LuaJIT.read_uleb128 s1) as [[name_len s2]|]; [|reflexivity].
    cbv beta iota.
    destruct (name_len >? 0); [|reflexivity].
    destruct (LuaJIT.read_string name_len s2) as [[name s3]|]; reflexivity.
  - intros data L. unfold LuaJIT.read_header.
    destruct (Nat.ltb_spec (List.length data) 3); [reflexivity | lia].
  - intros data L S. unfold LuaJIT.read_header.
    destruct (Nat.ltb_spec (List.length data) 3); [lia|].
    destruct (bytes_eqb (firstn 3 data) LuaJIT.LUAJIT_SIGNATURE) eqn:B; [|reflexivity].
    apply bytes_eqb_eq in B. contradiction.
Qed.

Lemma X22_read_header_version_unchecked_witness :
  LuaJIT.read_header (bytes_of [0x1b; 0x4c; 0x4a; 9; 2; 7])
  = Ok (LuaJIT.mkHeader (bytes_of [0x1b; 0x4c; 0x4a]) 9 2 false true false [],
        bytes_of [7])
  /\ LuaJIT.read_header (bytes_of [0x1b; 0x4c]) = Err Exception_too_small
  /\ LuaJIT.read_header (bytes_of [0x1b; 0x4c; 0x75; 0x61]) = Err Exception_signature.
Proof.
  destruct X22_read_header_version_unchecked as (H1 & H2 & H3).
  split; [|split].
  - exact (H1 x01 x09 (bytes_of [2; 7])).
  - apply H2. vm_compute. lia.
  - apply H3; [vm_compute; lia | vm_compute; discriminate].
Defined.

(* ----------------------------------------------------------------- *)
(** ** The spans kept for the debug data *)

Section DebugSpans.

Lemma captures_read_byte_with_raw : captures read_byte_with_raw.
Proof.
  intros [|b s] a r s' H; [discriminate H|].
  rewrite read_byte_with_raw_cons in H. injection H as _ <- <-. reflexivity.
Qed.

Lemma captures_read_size_with_raw : captures read_size_with_raw.
Proof. intros s a r s' H. exact (read_size_with_raw_split _ _ _ _ H). Qed.

Lemma captures_read_string_with_raw : captures read_string_with_raw.
Proof.
  intros s a r s' H. unfold read_string_with_raw in H. inv_bind H.
  match goal with
  | E : read_size_with_raw _ = _ |- _ => apply read_size_with_raw_split in E; subst s
  end.
  destruct (_ =? 0).
  - injection H as _ <- <-. reflexivity.
  - inv_bind H. injection H as _ <- <-.
    match goal with
    | F : file_read _ _ = _ |- _ => apply file_read_split in F; subst
    end.
    rewrite <- app_assoc. reflexivity.
Qed.

Lemma captures_abs_body :
  captures ('(pc, pc_raw) <- read_size_with_raw ;;
            '(line, line_raw) <- read_size_with_raw ;;
            let abs_raw := pc_raw ++ line_raw in
            ret (mkAbsLineInfo pc line (Some abs_raw), abs_raw))%reader.
Proof.
  intros s a r s' H. do 2 inv_bind H. injection H as _ <- <-.
  repeat match goal with
         | E : read_size_with_raw _ = _ |- _ =>
             apply read_size_with_raw_split in E; subst
         end.
  rewrite <- app_assoc. reflexivity.
Qed.

Lemma captures_loc_body :
  captures ('(varname, varname_raw) <- read_string_with_raw ;;
            '(startpc, startpc_raw) <- read_size_with_raw ;;
            '(endpc, endpc_raw) <- read_size_with_raw ;;
            let locvar_raw := varname_raw ++ startpc_raw ++ endpc_raw in
            ret (mkLocVar varname startpc endpc (Some locvar_raw), locvar_raw))%reader.
Proof.
  intros s a r s' H. do 3 inv_bind H. injection H as _ <- <-.
  repeat match goal with
         | E : read_size_with_raw _ = _ |- _ =>
             apply read_size_with_raw_split in E; subst
         | E : read_string_with_raw _ = _ |- _ =>
             apply captures_read_string_with_raw in E; subst
         end.
  rewrite <- !app_assoc. reflexivity.
Qed.

Lemma slice_join (d : bytes) (i j : nat) :
  (i <= j)%nat -> slice d i j ++ skipn j d = skipn i d.
Proof.
  intros H. unfold slice.
  replace (skipn j d) with (skipn (j - i) (skipn i d))
    by (rewrite skipn_skipn; f_equal; lia).
  apply firstn_skipn.
Qed.

Lemma quarters_join (d : bytes) :
  let len := List.length d in
  slice d 0 (len / 4) ++ slice d (len / 4) (len / 2)
  ++ slice d (len / 2) (3 * len / 4) ++ skipn (3 * len / 4) d = d.
Proof.
  intros len.
  assert (H1 : (len / 4 <= len / 2)%nat)
    by (pose proof (Nat.div_mod_eq len 4); pose proof (Nat.div_mod_eq len 2);
        pose proof (Nat.mod_upper_bound len 4); pose proof (Nat.mod_upper_bound len 2);
        lia).
  assert (H2 : (len / 2 <= 3 * len / 4)%nat)
    by (pose proof (Nat.div_mod_eq (3 * len) 4); pose proof (Nat.div_mod_eq len 2);
        pose proof (Nat.mod_upper_bound (3 * len) 4);
        pose proof (Nat.mod_upper_bound len 2); lia).
  rewrite (slice_join d (len / 2) (3 * len / 4) H2).
  rewrite (slice_join d (len / 4) (len / 2) H1).
  rewrite (slice_join d 0 (len / 4) ltac:(lia)). reflexivity.
Qed.

End DebugSpans.

(** The captured spans under the field assignments. *)
Lemma ori_set_ori (k : string) (v : bytes) (p : Proto) :
  ori (set_ori k v p) = dict_set k v (ori p).
Proof. reflexivity. Qed.

Lemma ori_set_fields (p : Proto) :
  (forall v, ori (set_code v p) = ori p)
  /\ (forall v, ori (set_constants v p) = ori p)
  /\ (forall v, ori (set_upvalues v p) = ori p)
  /\ (forall v, ori (set_protos v p) = ori p)
  /\ (forall li ali lv un, ori (set_debug li ali lv un p) = ori p).
Proof. repeat split. Qed.

Ltac ori_fields :=
  repeat first
    [ rewrite ori_set_ori
    | rewrite (proj1 (ori_set_fields _))
    | rewrite (proj1 (proj2 (ori_set_fields _)))
    | rewrite (proj1 (proj2 (proj2 (ori_set_fields _))))
    | rewrite (proj1 (proj2 (proj2 (proj2 (ori_set_fields _)))))
    | rewrite (proj2 (proj2 (proj2 (proj2 (ori_set_fields _))))) ].

Lemma Ok_pair_inj (A B : Type) (a a' : A) (b b' : B) :
  Ok (a, b) = Ok (a', b') -> a = a' /\ b = b'.
Proof. intros H. split; congruence. Qed.

(** X23. The debug data of a prototype is captured as one run of bytes,
    and the four spans kept under [lineinfo], [abslineinfo], [locvars]
    and [upvalue_names] are the four quarters of that run by length, not
    the bytes of the four groups.  Put one after the other they give
    back exactly the bytes [read_debug] has consumed. *)
Theorem X23_debug_spans_are_quarters (proto proto' : Proto) (s s' : bytes) :
  read_debug proto s = Ok (proto', s') ->
  exists debug_raw li ali lv un,
    s = debug_raw ++ s'
    /\ dict_get "lineinfo" (ori proto') = Some li
    /\ dict_get "abslineinfo" (ori proto') = Some ali
    /\ dict_get "locvars" (ori proto') = Some lv
    /\ dict_get "upvalue_names" (ori proto') = Some un
    /\ li = slice debug_raw 0 (List.length debug_raw / 4)
    /\ ali = slice debug_raw (List.length debug_raw / 4) (List.length debug_raw / 2)
    /\ lv = slice debug_raw (List.length debug_raw / 2) (3 * List.length debug_raw / 4)
    /\ un = skipn (3 * List.length debug_raw / 4) debug_raw
    /\ li ++ ali ++ lv ++ un = debug_raw.
Proof.
  intros H. unfold read_debug in H. cbv zeta in H.
  do 8 inv_bind H. apply Ok_pair_inj in H. destruct H as [<- <-].
  repeat match goal with
         | E : read_size_with_raw _ = Ok _ |- _ =>
             apply read_size_with_raw_split in E
         | E : read_loop _ read_byte_with_raw _ _ _ = Ok _ |- _ =>
             apply (read_loop_raw _ _ captures_read_byte_with_raw) in E;
             destruct E as (? & ? & ?)
         | E : read_loop _ read_string_with_raw _ _ _ = Ok _ |- _ =>
             apply (read_loop_raw _ _ captures_read_string_with_raw) in E;
             destruct E as (? & ? & ?)
         | E : read_loop _ _ _ _ _ = Ok _ |- _ =>
             first [ apply (read_loop_raw _ _ captures_abs_body) in E
                   | apply (read_loop_raw _ _ captures_loc_body) in E ];
             destruct E as (? & ? & ?)
         end.
  subst.
  match goal with
  | |- context [skipn _ ?d] =>
      exists d, (slice d 0 (List.length d / 4)),
        (slice d (List.length d / 4) (List.length d / 2)),
        (slice d (List.length d / 2) (3 * List.length d / 4)),
        (skipn (3 * List.length d / 4) d)
  end.
  split; [rewrite <- !app_assoc; reflexivity|].
  rewrite !ori_set_ori.
  repeat split;
    try (rewrite ?dict_get_set_other by reflexivity; apply dict_get_set).
  apply quarters_join.
Qed.

Lemma X23_debug_spans_are_quarters_witness :
  let proto' :=
    set_ori "upvalue_names" (bytes_of [0x80; 0x80])
      (set_ori "locvars" (bytes_of [3; 0x80])
         (set_ori "abslineinfo" (bytes_of [1; 2])
            (set_ori "lineinfo" (bytes_of [0x83])
               (set_debug [1; 2; 3] [] [] [] empty_proto)))) in
  exists debug_raw li ali lv un,
    bytes_of [0x83; 1; 2; 3; 0x80; 0x80; 0x80; 9] = debug_raw ++ bytes_of [9]
    /\ dict_get "lineinfo" (ori proto') = Some li
    /\ dict_get "abslineinfo" (ori proto') = Some ali
    /\ dict_get "locvars" (ori proto') = Some lv
    /\ dict_get "upvalue_names" (ori proto') = Some un
    /\ li = slice debug_raw 0 (List.length debug_raw / 4)
    /\ ali = slice debug_raw (List.length debug_raw / 4) (List.length debug_raw / 2)
    /\ lv = slice debug_raw (List.length debug_raw / 2) (3 * List.length debug_raw / 4)
    /\ un = skipn (3 * List.length debug_raw / 4) debug_raw
    /\ li ++ ali ++ lv ++ un = debug_raw.
Proof.
  intros proto'.
  apply (X23_debug_spans_are_quarters empty_proto proto'
           (bytes_of [0x83; 1; 2; 3; 0x80; 0x80; 0x80; 9]) (bytes_of [9])).
  vm_compute. reflexivity.
Defined.

(* ----------------------------------------------------------------- *)
(** ** What the parser returns, the writer accepts *)

Section DecodedTextIsEncodable.

Lemma is_cont_spec (z : Z) : Utf8.is_cont z = true -> 0x80 <= z <= 0xBF.
Proof.
  unfold Utf8.is_cont. intros H. apply andb_true_iff in H. destruct H as [H1 H2].
  apply Z.leb_le in H1, H2. lia.
Qed.

Lemma second3_ok_spec (b0 v1 : Z) :
  Utf8.second3_ok b0 v1 = true ->
  0x80 <= v1 <= 0xBF /\ (b0 = 0xE0 -> 0xA0 <= v1) /\ (b0 = 0xED -> v1 <= 0x9F).
Proof.
  unfold Utf8.second3_ok. intros H.
  apply andb_true_iff in H. destruct H as [H H3].
  apply andb_true_iff in H. destruct H as [H1 H2].
  apply is_cont_spec in H1. split; [exact H1|]. split; intros E.
  - subst b0. cbn in H2. apply Z.leb_le in H2. exact H2.
  - subst b0. cbn in H3. apply Z.leb_le in H3. exact H3.
Qed.

Lemma second4_ok_spec (b0 v1 : Z) :
  Utf8.second4_ok b0 v1 = true ->
  0x80 <= v1 <= 0xBF /\ (b0 = 0xF0 -> 0x90 <= v1) /\ (b0 = 0xF4 -> v1 <= 0x8F).
Proof.
  unfold Utf8.second4_ok. intros H.
  apply andb_true_iff in H. destruct H as [H H3].
  apply andb_true_iff in H. destruct H as [H1 H2].
  apply is_cont_spec in H1. split; [exact H1|]. split; intros E.
  - subst b0. cbn in H2. apply Z.leb_le in H2. exact H2.
  - subst b0. cbn in H3. apply Z.leb_le in H3. exact H3.
Qed.

Lemma Char_inj (cp cp' : Z) (r r' : bytes) :
  Utf8.Char cp r = Utf8.Char cp' r' -> cp = cp'.
Proof. congruence. Qed.

(** A code point the decoder produces is a Unicode scalar value. *)
Lemma next_char_scalar (b0 : Z) (rest : bytes) (cp : Z) (r : bytes) :
  0 <= b0 ->
  Utf8.next b0 rest = Utf8.Char cp r ->
  0 <= cp < 0xD800 \/ 0xDFFF < cp < 0x110000.
Proof.
  intros H0 H. unfold Utf8.next in H.
  destruct (Z.ltb_spec b0 128); [apply Char_inj in H; lia|].
  destruct (Z.ltb_spec b0 194); [discriminate H|].
  destruct (Z.ltb_spec b0 224).
  { destruct rest as [|b1 r1]; [discriminate H|].
    destruct (Utf8.is_cont (byte_val b1)) eqn:C1; [|discriminate H].
    apply is_cont_spec in C1. apply Char_inj in H. lia. }
  destruct (Z.ltb_spec b0 240).
  { destruct rest as [|b1 r1]; [discriminate H|].
    destruct (Utf8.second3_ok b0 (byte_val b1)) eqn:C1; [|discriminate H].
    apply second3_ok_spec in C1.
    destruct r1 as [|b2 r2]; [discriminate H|].
    destruct (Utf8.is_cont (byte_val b2)) eqn:C2; [|discriminate H].
    apply is_cont_spec in C2. apply Char_inj in H. lia. }
  destruct (Z.ltb_spec b0 245); [|discriminate H].
  destruct rest as [|b1 r1]; [discriminate H|].
  destruct (Utf8.second4_ok b0 (byte_val b1)) eqn:C1; [|discriminate H].
  apply second4_ok_spec in C1.
  destruct r1 as [|b2 r2]; [discriminate H|].
  destruct (Utf8.is_cont (byte_val b2)) eqn:C2; [|discriminate H].
  apply is_cont_spec in C2.
  destruct r2 as [|b3 r3]; [discriminate H|].
  destruct (Utf8.is_cont (byte_val b3)) eqn:C3; [|discriminate H].
  apply is_cont_spec in C3. apply Char_inj in H. lia.
Qed.

Lemma encode_char_scalar (cp : Z) :
  0 <= cp < 0xD800 \/ 0xDFFF < cp < 0x110000 ->
  is_ok (Utf8.encode_char cp) = true.
Proof.
  intros H. unfold Utf8.encode_char.
  destruct (Z.ltb_spec cp 0); [lia|].
  destruct (Z.ltb_spec cp 128); [reflexivity|].
  destruct (Z.ltb_spec cp 2048); [reflexivity|].
  destruct (Z.ltb_spec cp 65536).
  - destruct (Z.leb_spec 55296 cp); [|reflexivity].
    destruct (Z.leb_spec cp 57343); [lia | reflexivity].
  - destruct (Z.ltb_spec cp 1114112); [reflexivity | lia].
Qed.

Lemma encode_ok_cons (cp : Z) (s : str) :
  is_ok (Utf8.encode_char cp) = true -> is_ok (Utf8.encode s) = true ->
  is_ok (Utf8.encode (cp :: s)) = true.
Proof.
  cbn [Utf8.encode]. destruct (Utf8.encode_char cp); [|discriminate].
  destruct (Utf8.encode s); [reflexivity | discriminate].
Qed.

(** What [decode('utf-8', errors='replace')] returns can always be
    encoded again. *)
Lemma encode_decode_replace_ok (data : bytes) :
  is_ok (Utf8.encode (Utf8.decode_replace data)) = true.
Proof.
  unfold Utf8.decode_replace. generalize (List.length data) as fuel.
  intros fuel. revert data.
  induction fuel as [|fuel IH]; intros data; [reflexivity|].
  destruct data as [|b0 rest]; [reflexivity|].
  cbn [Utf8.decode_replace_fuel].
  destruct (Utf8.next (byte_val b0) rest) as [cp r|r] eqn:N.
  - apply encode_ok_cons; [|apply IH].
    apply encode_char_scalar.
    apply (next_char_scalar (byte_val b0) rest cp r); [|exact N].
    pose proof (byte_val_range b0). lia.
  - apply encode_ok_cons; [reflexivity | apply IH].
Qed.

Lemma write_string_decoded (data : bytes) :
  is_ok (_write_string (Some (Utf8.decode_replace data))) = true.
Proof.
  cbn [_write_string]. pose proof (encode_decode_replace_ok data) as H.
  destruct (Utf8.encode (Utf8.decode_replace data)); [reflexivity | discriminate H].
Qed.

End DecodedTextIsEncodable.

Section WritableTrees.

Lemma rbind_ok (A B : Type) (r : result A) (k : A -> result B) :
  is_ok r = true -> (forall a, is_ok (k a) = true) -> is_ok (rbind r k) = true.
Proof. destruct r; [intros _ H; apply H | discriminate]. Qed.

Lemma write_each_ok (A : Type) (f : A -> result bytes) (l : list A) :
  Forall (fun a => is_ok (f a) = true) l -> is_ok (write_each f l) = true.
Proof.
  induction 1 as [|a l Ha _ IH]; [reflexivity|].
  cbn [write_each]. apply rbind_ok; [exact Ha|]. intros h.
  apply rbind_ok; [exact IH|]. intros t. reflexivity.
Qed.

Lemma write_each_ok_inv (A : Type) (f : A -> result bytes) (l : list A) :
  is_ok (write_each f l) = true -> Forall (fun a => is_ok (f a) = true) l.
Proof.
  induction l as [|a l IH]; intros H; [constructor|].
  cbn [write_each] in H.
  destruct (f a) eqn:Ea; [|discriminate H]. cbn [rbind] in H.
  destruct (write_each f l) eqn:El; [|discriminate H].
  constructor; [rewrite Ea; reflexivity | apply IH; reflexivity].
Qed.

(** A tree that is [writable] is written without an error, as the main
    prototype and as a child. *)
Lemma writable_writes (proto : Proto) :
  writable proto = true ->
  forall is_main_proto, is_ok (_write_proto proto is_main_proto) = true.
Proof.
  induction proto as [src ld lld np va ms cd ks us ps li ali lv un o IH]
    using Proto_tree_ind.
  intros W is_main. cbn [writable source numparams is_vararg maxstacksize ori protos] in W.
  repeat (apply andb_true_iff in W; destruct W as [W ?]).
  cbn [_write_proto source numparams is_vararg maxstacksize ori protos
       linedefined lastlinedefined code].
  apply rbind_ok.
  { destruct is_main; [assumption|].
    destruct (truthy o); [|reflexivity].
    destruct (dict_get "source" o); [|reflexivity].
    destruct (_ <=? _)%nat; [reflexivity | assumption]. }
  intros w1. apply rbind_ok; [assumption|]. intros w2.
  apply rbind_ok; [assumption|]. intros w3.
  apply rbind_ok; [assumption|]. intros w4.
  apply rbind_ok.
  { destruct (dict_get "code" o) eqn:G; [|discriminate].
    destruct o; [discriminate G | reflexivity]. }
  intros w5. apply rbind_ok; [assumption|]. intros w6.
  apply rbind_ok; [assumption|]. intros w7.
  apply rbind_ok.
  { unfold _write_protos. cbn [protos]. apply rbind_ok; [|reflexivity].
    apply write_each_ok.
    match goal with
    | F : forallb writable ps = true |- _ => rewrite forallb_forall in F
    end.
    rewrite Forall_forall in IH |- *. intros sub Hin. apply IH; auto. }
  intros w8. apply rbind_ok; [assumption|]. intros w9. reflexivity.
Qed.

End WritableTrees.

Section ParsedTreesAreWritable.

Lemma read_loop_Forall (A : Type) (P : A -> Prop) (body : Reader (A * bytes)) :
  (forall s a r s', body s = Ok ((a, r), s') -> P a) ->
  forall n acc raw s l raw' s',
    read_loop n body acc raw s = Ok ((l, raw'), s') ->
    Forall P acc -> Forall P l.
Proof.
  intros Hb. induction n as [|n IH]; intros acc raw s l raw' s' H F;
    cbn [read_loop] in H.
  - apply Ok_pair_inj in H. destruct H as [H _].
    assert (El : l = acc) by congruence. subst l. exact F.
  - inv_bind H. apply (IH _ _ _ _ _ _ H).
    apply Forall_app. split; [exact F|]. constructor; [|constructor].
    eapply Hb. eassumption.
Qed.

Lemma byte_read_fits (s : bytes) (v : Z) (r s' : bytes) :
  read_byte_with_raw s = Ok ((v, r), s') -> is_ok (pack_B v) = true.
Proof.
  destruct s as [|b s]; [discriminate|].
  rewrite read_byte_with_raw_cons. intros H.
  apply Ok_pair_inj in H. destruct H as [H _].
  assert (Ev : v = byte_val b) by congruence. subst v.
  unfold pack_B. pose proof (byte_val_range b).
  destruct (Z.leb_spec 0 (byte_val b)); [|lia].
  destruct (Z.leb_spec (byte_val b) 255); [reflexivity | lia].
Qed.

Lemma string_read_encodes (s : bytes) (v : option str) (r s' : bytes) :
  read_string_with_raw s = Ok ((v, r), s') -> is_ok (_write_string v) = true.
Proof.
  intros H. unfold read_string_with_raw in H. inv_bind H.
  destruct (_ =? 0).
  - apply Ok_pair_inj in H. destruct H as [H _].
    assert (Ev : v = None) by congruence. subst v. reflexivity.
  - inv_bind H. apply Ok_pair_inj in H. destruct H as [H _].
    match type of H with
    | (Some (Utf8.decode_replace ?d), _) = _ =>
        assert (Ev : v = Some (Utf8.decode_replace d)) by congruence
    end.
    subst v. apply write_string_decoded.
Qed.

Lemma le_value_range (raw : bytes) :
  0 <= le_value raw < 256 ^ Z.of_nat (List.length raw).
Proof.
  induction raw as [|b raw IH]; [cbn; lia|].
  cbn [le_value List.length]. rewrite Nat2Z.inj_succ, Z.pow_succ_r by lia.
  pose proof (byte_val_range b). lia.
Qed.

Lemma integer_read_fits (s : bytes) (v : Z) (r s' : bytes) :
  read_integer_with_raw s = Ok ((v, r), s') -> is_ok (pack_q v) = true.
Proof.
  intros H. unfold read_integer_with_raw in H. do 2 inv_bind H.
  apply Ok_pair_inj in H. destruct H as [H _].
  match goal with
  | L : lift (unpack_q ?raw) _ = Ok (?z, _) |- _ =>
      assert (Ev : v = z) by congruence; subst v;
      unfold lift, unpack_q in L;
      destruct (Nat.eqb_spec (List.length raw) 8) as [Len|]; [|discriminate L];
      pose proof (le_value_range raw) as R; rewrite Len in R;
      change (256 ^ Z.of_nat 8) with (2 ^ 64) in R;
      apply Ok_pair_inj in L; destruct L as [L _]; subst z
  end.
  unfold pack_q.
  match goal with
  | |- context [le_value ?raw <? 2 ^ 63] =>
      destruct (Z.ltb_spec (le_value raw) (2 ^ 63))
  end.
  - match goal with
    | |- context [(?a <=? ?b) && (?c <? ?d)] =>
        destruct (Z.leb_spec a b); [|lia]; destruct (Z.ltb_spec c d); [reflexivity | lia]
    end.
  - match goal with
    | |- context [(?a <=? ?b) && (?c <? ?d)] =>
        destruct (Z.leb_spec a b); [|lia]; destruct (Z.ltb_spec c d); [reflexivity | lia]
    end.
Qed.

Lemma constant_read_writes (s : bytes) (c : Const) (r s' : bytes) :
  read_constant s = Ok ((c, r), s') -> is_ok (_write_constant c) = true.
Proof.
  intros H. unfold read_constant in H. inv_bind H.
  repeat match type of H with
         | context [if ?c then _ else _] => destruct c
         end;
    try discriminate H; try inv_bind H; unfold ret in H;
    apply Ok_pair_inj in H; destruct H as [H _];
    apply (f_equal fst) in H; cbn [fst] in H; subst c;
    try reflexivity;
    try match goal with
        | |- context [match ?o with Some _ => _ | None => _ end] =>
            destruct o; [|reflexivity]
        end;
    cbn [_write_constant];
    (apply rbind_ok; [try reflexivity; destruct (_ <=? 40); reflexivity|]); intros t;
    (apply rbind_ok; [|reflexivity]).
  - eapply integer_read_fits. eassumption.
  - eapply string_read_encodes. eassumption.
  - eapply integer_read_fits. eassumption.
  - eapply string_read_encodes. eassumption.
Qed.

Lemma upvalue_read_writes (s : bytes) (upval : Upvalue) (r s' : bytes) :
  ('(instack, instack_raw) <- read_byte_with_raw ;;
   '(idx, idx_raw) <- read_byte_with_raw ;;
   '(kind, kind_raw) <- read_byte_with_raw ;;
   let upvalue_raw := instack_raw ++ idx_raw ++ kind_raw in
   ret (mkUpvalue instack idx kind (Some upvalue_raw), upvalue_raw))%reader s
  = Ok ((upval, r), s') ->
  is_ok (_write_upvalue upval) = true.
Proof.
  intros H. do 3 inv_bind H. unfold ret in H.
  apply Ok_pair_inj in H. destruct H as [H _].
  apply (f_equal fst) in H. cbn [fst] in H. subst upval.
  unfold _write_upvalue. cbn [instack idx kind].
  repeat (apply rbind_ok; [eapply byte_read_fits; eassumption | intros ?]).
  reflexivity.
Qed.

Lemma write_debug_ok (proto : Proto) :
  Forall (fun l => is_ok (pack_B l) = true) (lineinfo proto) ->
  Forall (fun locvar => is_ok (_write_string (varname locvar)) = true) (locvars proto) ->
  Forall (fun name => is_ok (_write_string name) = true) (upvalue_names proto) ->
  is_ok (_write_debug proto) = true.
Proof.
  intros Hl Hv Hn. unfold _write_debug.
  apply rbind_ok; [apply write_each_ok; exact Hl | intros w1].
  apply rbind_ok; [apply write_each_ok, Forall_forall; reflexivity | intros w2].
  apply rbind_ok; [|intros w3].
  { apply write_each_ok. eapply Forall_impl; [|exact Hv].
    intros locvar H. apply rbind_ok; [exact H | reflexivity]. }
  apply rbind_ok; [apply write_each_ok; exact Hn | reflexivity].
Qed.

(** What each group reader changes in the prototype it is given. *)
Lemma read_code_effect (proto proto' : Proto) (s s' : bytes) :
  read_code proto s = Ok (proto', s') ->
  exists cd raw, proto' = set_ori "code" raw (set_code cd proto).
Proof.
  intros H. unfold read_code in H. do 2 inv_bind H. unfold ret in H.
  apply Ok_pair_inj in H. destruct H as [<- _]. eexists _, _. reflexivity.
Qed.

Lemma read_constants_effect (proto proto' : Proto) (s s' : bytes) :
  read_constants proto s = Ok (proto', s') ->
  exists ks raw,
    proto' = set_ori "constants" raw (set_constants ks proto)
    /\ Forall (fun c => is_ok (_write_constant c) = true) ks.
Proof.
  intros H. unfold read_constants in H. do 2 inv_bind H. unfold ret in H.
  apply Ok_pair_inj in H. destruct H as [<- _]. eexists _, _.
  split; [reflexivity|].
  eapply (read_loop_Forall _ _ _ constant_read_writes); [eassumption | constructor].
Qed.

Lemma read_upvalues_effect (proto proto' : Proto) (s s' : bytes) :
  read_upvalues proto s = Ok (proto', s') ->
  exists us raw,
    proto' = set_ori "upvalues" raw (set_upvalues us proto)
    /\ Forall (fun upval => is_ok (_write_upvalue upval) = true) us.
Proof.
  intros H. unfold read_upvalues in H. cbv zeta in H. do 2 inv_bind H.
  unfold ret in H. apply Ok_pair_inj in H. destruct H as [<- _]. eexists _, _.
  split; [reflexivity|].
  eapply (read_loop_Forall _ _ _ upvalue_read_writes); [eassumption | constructor].
Qed.

Lemma read_protos_effect (rp : option str -> Reader Proto) (Q : Proto -> Prop)
  (proto proto' : Proto) (s s' : bytes) :
  (forall s1 sub s2, rp (source proto) s1 = Ok (sub, s2) -> Q sub) ->
  read_protos rp proto s = Ok (proto', s') ->
  exists ps raw,
    proto' = set_ori "protos" raw (set_protos ps proto) /\ Forall Q ps.
Proof.
  intros Hrp H. unfold read_protos in H. cbv zeta in H. do 2 inv_bind H.
  unfold ret in H. apply Ok_pair_inj in H. destruct H as [<- _]. eexists _, _.
  split; [reflexivity|].
  match goal with
  | L : read_loop _ _ _ _ _ = Ok _ |- _ =>
      eapply (read_loop_Forall _ Q) in L; [exact L | | constructor]
  end.
  intros t sub r t' Hb. inv_bind Hb. unfold ret in Hb.
  apply Ok_pair_inj in Hb. destruct Hb as [Hb _].
  apply (f_equal fst) in Hb. cbn [fst] in Hb. subst sub.
  eapply Hrp. eassumption.
Qed.

Lemma read_debug_effect (proto proto' : Proto) (s s' : bytes) :
  read_debug proto s = Ok (proto', s') ->
  exists li ali lv un r1 r2 r3 r4,
    proto' = set_ori "upvalue_names" r4
               (set_ori "locvars" r3
                  (set_ori "abslineinfo" r2
                     (set_ori "lineinfo" r1 (set_debug li ali lv un proto))))
    /\ Forall (fun l => is_ok (pack_B l) = true) li
    /\ Forall (fun locvar => is_ok (_write_string (varname locvar)) = true) lv
    /\ Forall (fun name => is_ok (_write_string name) = true) un.
Proof.
  intros H. unfold read_debug in H. cbv zeta in H. do 8 inv_bind H.
  unfold ret in H. apply Ok_pair_inj in H. destruct H as [<- _].
  eexists _, _, _, _, _, _, _, _. split; [reflexivity|].
  repeat split.
  - eapply (read_loop_Forall _ _ _ byte_read_fits); [eassumption | constructor].
  - match goal with
    | L : read_loop _ _ _ _ _ = Ok (?l, _, _) |- Forall _ ?l =>
        eapply (read_loop_Forall _ (fun locvar =>
                  is_ok (_write_string (varname locvar)) = true)) in L;
        [exact L | | constructor]
    end.
    intros t locvar r t' Hb. do 3 inv_bind Hb. unfold ret in Hb.
    apply Ok_pair_inj in Hb. destruct Hb as [Hb _].
    apply (f_equal fst) in Hb. cbn [fst] in Hb. subst locvar. cbn [varname].
    eapply string_read_encodes. eassumption.
  - eapply (read_loop_Forall _ _ _ string_read_encodes); [eassumption | constructor].
Qed.

(** The fields of the prototype [read_proto] builds, read off the
    assignments in the order the readers make them. *)
Lemma read_proto_fields (P0 : Proto) (cd : list Z) (raw_cd : bytes)
  (ks : list Const) (raw_ks : bytes) (us : list Upvalue) (raw_us : bytes)
  (subs : list Proto) (raw_ps : bytes) (li : list Z) (ali : list AbsLineInfo)
  (lv : list LocVar) (un : list (option str)) (r1 r2 r3 r4 : bytes) :
  let T :=
    set_ori "upvalue_names" r4
      (set_ori "locvars" r3
         (set_ori "abslineinfo" r2
            (set_ori "lineinfo" r1
               (set_debug li ali lv un
                  (set_ori "protos" raw_ps
                     (set_protos subs
                        (set_ori "upvalues" raw_us
                           (set_upvalues us
                              (set_ori "constants" raw_ks
                                 (set_constants ks
                                    (set_ori "code" raw_cd
                                       (set_code cd P0)))))))))))) in
  source T = source P0 /\ numparams T = numparams P0
  /\ is_vararg T = is_vararg P0 /\ maxstacksize T = maxstacksize P0
  /\ constants T = ks /\ upvalues T = us /\ protos T = subs
  /\ lineinfo T = li /\ locvars T = lv /\ upvalue_names T = un
  /\ dict_get "code" (ori T) = Some raw_cd.
Proof.
  intros T. repeat (split; [reflexivity|]).
  subst T. ori_fields.
  rewrite !dict_get_set_other by reflexivity.
  apply dict_get_set.
Qed.

Lemma read_proto_writable (depth : nat) :
  forall parent_source s T s',
    is_ok (_write_string parent_source) = true ->
    read_proto depth parent_source s = Ok (T, s') ->
    writable T = true.
Proof.
  induction depth as [|depth IH]; intros ps s T s' Hps H; [discriminate H|].
  cbn [read_proto] in H. cbv zeta in H.
  do 11 inv_bind H. unfold ret in H.
  apply Ok_pair_inj in H. destruct H as [<- _].
  match type of E5 with
  | read_code ?p _ = _ => set (P0 := p) in E5
  end.
  assert (F1 : is_ok (_write_string (source P0)) = true).
  { subst P0. destruct o; cbn [source set_ori set_source set_header empty_proto];
      [eapply string_read_encodes; eassumption | exact Hps]. }
  assert (F2 : numparams P0 = z1 /\ is_vararg P0 = z2 /\ maxstacksize P0 = z3).
  { subst P0. destruct o; repeat split. }
  destruct F2 as (F2 & F3 & F4).
  apply byte_read_fits in E2, E3, E4. rewrite <- F2 in E2. rewrite <- F3 in E3.
  rewrite <- F4 in E4.
  clearbody P0.
  destruct (read_code_effect _ _ _ _ E5) as (cd & raw_cd & ->).
  destruct (read_constants_effect _ _ _ _ E6) as (ks & raw_ks & -> & Hks).
  destruct (read_upvalues_effect _ _ _ _ E7) as (us & raw_us & -> & Hus).
  match type of E8 with
  | read_protos _ ?p _ = _ =>
      assert (HQ : forall s1 sub s2,
                 read_proto depth (source p) s1 = Ok (sub, s2) ->
                 writable sub = true)
        by (intros t sub t' Hsub; apply (IH _ t sub t' F1 Hsub))
  end.
  destruct (read_protos_effect _ (fun sub => writable sub = true) _ _ _ _ HQ E8)
    as (subs & raw_ps & -> & Hsubs).
  destruct (read_debug_effect _ _ _ _ E9)
    as (li & ali & lv & un & r1 & r2 & r3 & r4 & -> & Hli & Hlv & Hun).
  clear E5 E6 E7 E8 E9 HQ.
  pose proof (read_proto_fields P0 cd raw_cd ks raw_ks us raw_us subs raw_ps
                li ali lv un r1 r2 r3 r4) as F.
  cbv zeta in F. revert F.
  match goal with
  | |- _ -> writable ?t = true => generalize t
  end.
  intros T (Hsrc & Hnp & Hva & Hms & Hc & Hu & Hp & Hl & Hv & Hn & Ho).
  rewrite <- Hsrc in F1. rewrite <- Hnp in E2. rewrite <- Hva in E3.
  rewrite <- Hms in E4. subst ks us subs li lv un.
  destruct T as [src ld lld np va ms cd0 ks0 us0 ps0 li0 ali0 lv0 un0 o0].
  cbn [writable source numparams is_vararg maxstacksize ori protos linedefined
       lastlinedefined code constants upvalues lineinfo abslineinfo locvars
       upvalue_names] in *.
  rewrite Ho.
  repeat (apply andb_true_iff; split); try assumption; try reflexivity.
  - unfold _write_constants. cbn [constants].
    apply rbind_ok; [apply write_each_ok; exact Hks | reflexivity].
  - unfold _write_upvalues. cbn [upvalues].
    apply rbind_ok; [apply write_each_ok; exact Hus | reflexivity].
  - apply write_debug_ok; assumption.
  - apply forallb_forall. rewrite Forall_forall in Hsubs. exact Hsubs.
Qed.

(** Every prototype tree [parse] returns is [writable]. *)
Lemma parse_writable (B : bytes) (T : Proto) :
  parse B = Ok T -> writable T = true.
Proof.
  unfold parse. intros H.
  match type of H with
  | match ?r with _ => _ end = _ => destruct r as [[main rest]|] eqn:E; [|discriminate H]
  end.
  apply Ok_inj in H. subst main.
  do 2 inv_bind E.
  eapply read_proto_writable; [|eassumption]. reflexivity.
Qed.

Lemma forallb_map_ext (f : Proto -> Proto) (ps : list Proto) :
  Forall (fun p => writable (f p) = writable p) ps ->
  forallb writable (map f ps) = forallb writable ps.
Proof.
  induction 1 as [|p ps E _ IH]; [reflexivity|].
  cbn [map forallb]. rewrite E, IH. reflexivity.
Qed.

(** The transform does not touch what the writer needs. *)
Lemma writable_xor_tree (key : bytes) (proto : Proto) :
  writable (xor_tree key proto) = writable proto.
Proof.
  induction proto as [src ld lld np va ms cd ks us ps li ali lv un o IH]
    using Proto_tree_ind.
  cbn [xor_tree ori protos].
  destruct (truthy o) eqn:Ht;
    [destruct (dict_get "code" o) as [raw|] eqn:G;
     [destruct (split_size raw) as [sb d]|]|];
    unfold set_ori, set_protos;
    cbn [writable source numparams is_vararg maxstacksize ori protos linedefined
         lastlinedefined code constants upvalues lineinfo abslineinfo locvars
         upvalue_names];
    rewrite (forallb_map_ext _ _ IH); rewrite ?dict_get_set, ?G; reflexivity.
Qed.

End ParsedTreesAreWritable.

Section WritingParsedTrees.

Lemma is_ok_Ok (A : Type) (r : result A) : is_ok r = true -> exists a, r = Ok a.
Proof. destruct r as [a|]; [exists a; reflexivity | discriminate]. Qed.

Lemma write_luac_file_ok (T : Proto) :
  writable T = true ->
  (List.length (upvalues T) <= 255)%nat ->
  exists out, _write_luac_file T = Ok out.
Proof.
  intros W L. apply is_ok_Ok. unfold _write_luac_file.
  rewrite write_header_reference. cbn [rbind].
  apply rbind_ok; [|intros n].
  - unfold pack_B.
    destruct (Z.leb_spec 0 (Z.of_nat (List.length (upvalues T)))); [|lia].
    destruct (Z.leb_spec (Z.of_nat (List.length (upvalues T))) 255); [reflexivity | lia].
  - apply rbind_ok; [apply writable_writes; exact W | reflexivity].
Qed.

End WritingParsedTrees.

(** X24. What the parser returns, the writer accepts.  For every file
    [parse] accepts, [_write_luac_file] on the returned tree raises
    nothing, and neither does [write_encrypted_luac] with any key,
    provided the main prototype has at most 255 upvalue descriptors:
    every decoded string can be encoded again, every integer constant
    fits eight bytes, every header and upvalue value fits one byte and
    every prototype has its instruction span.  With more than 255
    upvalue descriptors in the main prototype the count no longer fits
    the byte the writer packs it into, and [_write_luac_file] fails with
    [struct.error] although the file was parsed. *)
Theorem X24_parsed_tree_is_written (B : bytes) (T : Proto) (key : bytes) :
  parse B = Ok T ->
  ((List.length (upvalues T) <= 255)%nat ->
   (exists out, _write_luac_file T = Ok out)
   /\ (exists out, write_encrypted_luac (Some T) key = Ok out))
  /\ ((255 < List.length (upvalues T))%nat ->
      _write_luac_file T = Err StructError).
Proof.
  intros H. pose proof (parse_writable B T H) as W. split.
  - intros L. split; [apply write_luac_file_ok; assumption|].
    unfold write_encrypted_luac.
    destruct (transform_cases (set_encryption_key key cipher_init) T)
      as (T' & -> & _ & C).
    cbn [rbind]. apply write_luac_file_ok.
    + destruct C as [-> | (k & _ & _ & ->)]; [exact W|].
      rewrite writable_xor_tree. exact W.
    + destruct C as [-> | (k & _ & _ & ->)]; [exact L|].
      destruct (xor_tree_decoded k T) as (_ & _ & -> & _). exact L.
  - intros L. unfold _write_luac_file.
    rewrite write_header_reference. cbn [rbind]. unfold pack_B.
    destruct (Z.leb_spec (Z.of_nat (List.length (upvalues T))) 255); [lia|].
    rewrite andb_false_r. reflexivity.
Qed.

Lemma X24_parsed_tree_is_written_witness :
  ((exists out, _write_luac_file (parsed long_tag_file) = Ok out)
   /\ (exists out,
         write_encrypted_luac (Some (parsed long_tag_file)) (bytes_of [0x6b]) = Ok out))
  /\ parse many_upvalues_file = Ok (parsed many_upvalues_file)
  /\ _write_luac_file (parsed many_upvalues_file) = Err StructError.
Proof.
  split; [|split].
  - apply (X24_parsed_tree_is_written long_tag_file (parsed long_tag_file)
             (bytes_of [0x6b])).
    + vm_compute. reflexivity.
    + vm_compute. lia.
  - vm_compute. reflexivity.
  - apply (X24_parsed_tree_is_written many_upvalues_file (parsed many_upvalues_file) []).
    + vm_compute. reflexivity.
    + vm_compute. lia.
Defined.

(* ----------------------------------------------------------------- *)
(** ** The debug data: what [_write_debug] writes, [read_debug] reads back *)

Section DebugRoundTrip.

Lemma write_each_length_ok (A : Type) (wr : A -> result bytes) (ok : A -> Prop) :
  (forall a w, ok a -> wr a = Ok w -> (1 <= List.length w)%nat) ->
  forall l w, Forall ok l -> write_each wr l = Ok w ->
              (List.length l <= List.length w)%nat.
Proof.
  intros Hwr. induction l as [|a l IH]; intros w F W; [cbn; lia|].
  inversion F as [|? ? Fa Fl]; subst.
  cbn [write_each] in W.
  destruct (wr a) as [h|] eqn:Eh; [|discriminate W]. cbn [rbind] in W.
  destruct (write_each wr l) as [t|] eqn:Et; [|discriminate W]. cbn [rbind] in W.
  apply Ok_inj in W. subst w. rewrite length_app. cbn [List.length].
  pose proof (Hwr a h Fa Eh). pose proof (IH t Fl eq_refl). lia.
Qed.

Lemma write_string_nonempty (s : option str) (w : bytes) :
  _write_string s = Ok w -> (1 <= List.length w)%nat.
Proof.
  destruct s as [s|]; cbn [_write_string]; intros W.
  - destruct (Utf8.encode s) as [data|]; [|discriminate W].
    cbn [rbind] in W. apply Ok_inj in W. subst w. rewrite length_app.
    pose proof (write_size_nonempty (Z.of_nat (List.length data) + 1) ltac:(lia)).
    lia.
  - apply Ok_inj in W. subst w. cbn. lia.
Qed.

Lemma line_written (v : Z) (w rest : bytes) :
  pack_B v = Ok w -> read_byte_with_raw (w ++ rest) = Ok ((v, w), rest).
Proof.
  intros W. apply pack_B_ok in W. destruct W as [Hv ->].
  cbn [app]. rewrite read_byte_with_raw_cons, byte_val_of_Z by lia. reflexivity.
Qed.

Lemma absline_written (absline : AbsLineInfo) (rest : bytes) :
  0 <= pc absline < 2 ^ 64 -> 0 <= line absline < 2 ^ 64 ->
  ('(pc, pc_raw) <- read_size_with_raw ;;
   '(line, line_raw) <- read_size_with_raw ;;
   let abs_raw := pc_raw ++ line_raw in
   ret (mkAbsLineInfo pc line (Some abs_raw), abs_raw))%reader
    ((_write_size (pc absline) ++ _write_size (line absline)) ++ rest)
  = Ok ((mkAbsLineInfo (pc absline) (line absline)
           (Some (_write_size (pc absline) ++ _write_size (line absline))),
         _write_size (pc absline) ++ _write_size (line absline)), rest).
Proof.
  intros Hp Hl. rewrite <- app_assoc. unfold bind at 1.
  rewrite read_size_with_raw_write_size by exact Hp.
  unfold bind at 1. rewrite read_size_with_raw_write_size by exact Hl.
  reflexivity.
Qed.

Lemma locvar_written (locvar : LocVar) (name rest : bytes) :
  _write_string (varname locvar) = Ok name ->
  Z.of_nat (List.length name) <= 2 ^ 63 ->
  0 <= startpc locvar < 2 ^ 64 -> 0 <= endpc locvar < 2 ^ 64 ->
  ('(varname, varname_raw) <- read_string_with_raw ;;
   '(startpc, startpc_raw) <- read_size_with_raw ;;
   '(endpc, endpc_raw) <- read_size_with_raw ;;
   let locvar_raw := varname_raw ++ startpc_raw ++ endpc_raw in
   ret (mkLocVar varname startpc endpc (Some locvar_raw), locvar_raw))%reader
    ((name ++ _write_size (startpc locvar) ++ _write_size (endpc locvar)) ++ rest)
  = Ok ((mkLocVar (varname locvar) (startpc locvar) (endpc locvar)
           (Some (name ++ _write_size (startpc locvar) ++ _write_size (endpc locvar))),
         name ++ _write_size (startpc locvar) ++ _write_size (endpc locvar)), rest).
Proof.
  intros W L Hs He. rewrite <- !app_assoc. unfold bind at 1.
  destruct (string_written _ _ (_write_size (startpc locvar)
                                ++ _write_size (endpc locvar) ++ rest) W L) as [R _].
  rewrite R. unfold bind at 1.
  rewrite read_size_with_raw_write_size by exact Hs.
  unfold bind at 1. rewrite read_size_with_raw_write_size by exact He.
  reflexivity.
Qed.

End DebugRoundTrip.

(** X25. The debug data written by [_write_debug] is read back by
    [read_debug]: the same line offsets, the same (pc, line) pairs, the
    same local variables with their names and ranges, the same upvalue
    names, and reading stops right behind the data.  The numbers have
    to be sizes the varint can carry (0 up to 2^64 - 1) and the data has
    to be written in at most 2^63 bytes, so that the length of every
    name is a size [file.read] accepts. *)
Theorem X25_debug_round_trip (p q : Proto) (w rest : bytes) :
  _write_debug p = Ok w ->
  Z.of_nat (List.length w) <= 2 ^ 63 ->
  Forall (fun a => 0 <= pc a < 2 ^ 64 /\ 0 <= line a < 2 ^ 64) (abslineinfo p) ->
  Forall (fun l => 0 <= startpc l < 2 ^ 64 /\ 0 <= endpc l < 2 ^ 64) (locvars p) ->
  exists q',
    read_debug q (w ++ rest) = Ok (q', rest)
    /\ lineinfo q' = lineinfo p
    /\ map (fun a => (pc a, line a)) (abslineinfo q')
       = map (fun a => (pc a, line a)) (abslineinfo p)
    /\ map (fun l => (varname l, startpc l, endpc l)) (locvars q')
       = map (fun l => (varname l, startpc l, endpc l)) (locvars p)
    /\ upvalue_names q' = upvalue_names p.
Proof.
  intros W L Ha Hl. unfold _write_debug in W.
  destruct (write_each pack_B (lineinfo p)) as [w1|] eqn:E1; [|discriminate W].
  cbn [rbind] in W.
  match type of W with
  | rbind ?r _ = _ => destruct r as [w2|] eqn:E2; [|discriminate W]
  end.
  cbn [rbind] in W.
  match type of W with
  | rbind ?r _ = _ => destruct r as [w3|] eqn:E3; [|discriminate W]
  end.
  cbn [rbind] in W.
  destruct (write_each _write_string (upvalue_names p)) as [w4|] eqn:E4;
    [|discriminate W].
  cbn [rbind] in W. apply Ok_inj in W. subst w.
  rewrite !length_app in L.
  assert (N1 : (List.length (lineinfo p) <= List.length w1)%nat).
  { apply (write_each_length_ok _ pack_B (fun _ => True)) ;
      [|apply Forall_forall; intros; exact I | exact E1].
    intros a w _ Hw. apply pack_B_ok in Hw. destruct Hw as [_ ->]. cbn. lia. }
  assert (N2 : (List.length (abslineinfo p) <= List.length w2)%nat).
  { apply (write_each_length_ok _ _ _ (fun a w (Hok : 0 <= pc a < 2 ^ 64
                                                      /\ 0 <= line a < 2 ^ 64)
                                           (Hw : Ok (_write_size (pc a)
                                                     ++ _write_size (line a)) = Ok w) =>
             ltac:(apply Ok_inj in Hw; subst w; rewrite length_app;
                   pose proof (write_size_nonempty (pc a) ltac:(lia)); lia))
             _ _ Ha E2). }
  assert (N3 : (List.length (locvars p) <= List.length w3)%nat).
  { apply (write_each_length_ok _ _ (fun _ => True)) with (3 := E3);
      [|apply Forall_forall; intros; exact I].
    intros l w _ Hw.
    destruct (_write_string (varname l)) as [n|] eqn:En; [|discriminate Hw].
    cbn [rbind] in Hw. apply Ok_inj in Hw. subst w. rewrite length_app.
    pose proof (write_string_nonempty _ _ En). lia. }
  assert (N4 : (List.length (upvalue_names p) <= List.length w4)%nat).
  { apply (write_each_length_ok _ _write_string (fun _ => True));
      [|apply Forall_forall; intros; exact I | exact E4].
    intros a w _ Hw. exact (write_string_nonempty _ _ Hw). }
  pose proof (write_size_nonempty (Z.of_nat (List.length (lineinfo p))) ltac:(lia)).
  pose proof (write_size_nonempty (Z.of_nat (List.length (abslineinfo p))) ltac:(lia)).
  pose proof (write_size_nonempty (Z.of_nat (List.length (locvars p))) ltac:(lia)).
  pose proof (write_size_nonempty (Z.of_nat (List.length (upvalue_names p))) ltac:(lia)).
  unfold read_debug. cbv zeta. rewrite <- !app_assoc.
  unfold bind at 1. rewrite read_size_with_raw_write_size by lia.
  unfold range. rewrite Nat2Z.id. unfold bind at 1.
  rewrite (read_loop_written _ read_byte_with_raw pack_B (fun _ => True) (fun v => v)
             (fun a w0 rest0 _ Hw _ => line_written a w0 rest0 Hw)
             (lineinfo p) [] _ w1)
    by (try exact E1; try lia; apply Forall_forall; intros; exact I).
  unfold bind at 1. rewrite read_size_with_raw_write_size by lia.
  rewrite Nat2Z.id. unfold bind at 1.
  rewrite (read_loop_written _ _ _
             (fun a => 0 <= pc a < 2 ^ 64 /\ 0 <= line a < 2 ^ 64)
             (fun a => mkAbsLineInfo (pc a) (line a)
                         (Some (_write_size (pc a) ++ _write_size (line a))))
             (fun a w0 rest0 (Hok : 0 <= pc a < 2 ^ 64 /\ 0 <= line a < 2 ^ 64)
                  (Hw : Ok (_write_size (pc a) ++ _write_size (line a)) = Ok w0) _ =>
                eq_ind _ (fun w0 => _ (w0 ++ rest0) = Ok ((_, w0), rest0))
                  (absline_written a rest0 (proj1 Hok) (proj2 Hok)) _ (Ok_inj _ _ _ Hw))
             (abslineinfo p) [] _ w2)
    by (try exact E2; try exact Ha; lia).
  unfold bind at 1. rewrite read_size_with_raw_write_size by lia.
  rewrite Nat2Z.id. unfold bind at 1.
  rewrite (read_loop_written_upto (2 ^ 63) _ _
             (fun locvar =>
                (n <- _write_string (varname locvar) ;;
                 Ok (n ++ _write_size (startpc locvar)
                       ++ _write_size (endpc locvar)))%result)
             (fun l => 0 <= startpc l < 2 ^ 64 /\ 0 <= endpc l < 2 ^ 64)
             (fun l => mkLocVar (varname l) (startpc l) (endpc l)
                         (Some (match _write_string (varname l) with
                                | Ok n => n
                                | Err _ => []
                                end ++ _write_size (startpc l)
                                    ++ _write_size (endpc l))))
             ltac:(intros l w0 rest0 [Hs He] Hw Hlen;
                   destruct (_write_string (varname l)) as [n|] eqn:En;
                   [|discriminate Hw];
                   cbn [rbind] in Hw; apply Ok_inj in Hw; subst w0;
                   rewrite length_app in Hlen;
                   apply (locvar_written l n rest0 En); [lia | exact Hs | exact He])
             (locvars p) [] _ w3)
    by (try exact E3; try exact Hl; lia).
  unfold bind at 1. rewrite read_size_with_raw_write_size by lia.
  rewrite Nat2Z.id. unfold bind at 1.
  rewrite (read_loop_written_upto (2 ^ 63) _ read_string_with_raw _write_string
             (fun _ => True) (fun name => name)
             (fun a w0 rest0 _ Hw Hlen => proj1 (string_written a w0 rest0 Hw Hlen))
             (upvalue_names p) [] _ w4)
    by (try exact E4; try lia; apply Forall_forall; intros; exact I).
  unfold ret. eexists. split; [reflexivity|].
  cbn [app]. rewrite !map_id. repeat split.
  - change (map (fun a => (pc a, line a))
              (map (fun a => mkAbsLineInfo (pc a) (line a)
                                (Some (_write_size (pc a) ++ _write_size (line a))))
                   (abslineinfo p))
            = map (fun a => (pc a, line a)) (abslineinfo p)).
    rewrite map_map. reflexivity.
  - match goal with
    | |- map ?f (locvars ?t) = _ =>
        change (locvars t) with
          (map (fun l => mkLocVar (varname l) (startpc l) (endpc l)
                           (Some (match _write_string (varname l) with
                                  | Ok n => n
                                  | Err _ => []
                                  end ++ _write_size (startpc l)
                                      ++ _write_size (endpc l)))) (locvars p))
    end.
    rewrite map_map. reflexivity.
Qed.

Lemma X25_debug_round_trip_witness :
  let p := set_debug [1; 2] [mkAbsLineInfo 0 5 None]
             [mkLocVar (Some [0x78]) 0 2 None] [Some [0x5f]; None] empty_proto in
  let w := bytes_of [0x82; 1; 2; 0x81; 0x80; 0x85; 0x81; 0x82; 0x78; 0x80; 0x82;
                     0x82; 0x82; 0x5f; 0x80] in
  exists q',
    read_debug empty_proto (w ++ bytes_of [7]) = Ok (q', bytes_of [7])
    /\ lineinfo q' = lineinfo p
    /\ map (fun a => (pc a, line a)) (abslineinfo q')
       = map (fun a => (pc a, line a)) (abslineinfo p)
    /\ map (fun l => (varname l, startpc l, endpc l)) (locvars q')
       = map (fun l => (varname l, startpc l, endpc l)) (locvars p)
    /\ upvalue_names q' = upvalue_names p.
Proof.
  intros p w. apply (X25_debug_round_trip p empty_proto w (bytes_of [7])).
  - vm_compute. reflexivity.
  - vm_compute. discriminate.
  - repeat constructor; vm_compute; discriminate.
  - repeat constructor; vm_compute; discriminate.
Defined.

(* ----------------------------------------------------------------- *)
(** ** The size field of a LuaJIT prototype *)

Section SizeField.

(** Two runs of a reader that differ in the last step only. *)
Lemma bind_same (A B : Type) (f : B -> B) (m : Reader A) (k1 k2 : A -> Reader B)
  (s : bytes) :
  (forall a s', k1 a s' = match k2 a s' with
                          | Ok (b, t) => Ok (f b, t)
                          | Err e => Err e
                          end) ->
  bind m k1 s = match bind m k2 s with
                | Ok (b, t) => Ok (f b, t)
                | Err e => Err e
                end.
Proof.
  intros H. unfold bind. destruct (m s) as [[a s']|e]; [apply H | reflexivity].
Qed.

End SizeField.

(** X26. The size a LuaJIT prototype announces is stored and, unless it
    is 0, never used: it does not bound what [read_proto] reads.  Two
    inputs that differ only in a size that is not 0 are read to the same
    prototype, up to the stored size, with the same bytes left, or fail
    with the same exception. *)
Theorem X26_proto_size_unused
  (pflags size1 size2 : Z) (s1 s2 body : bytes) :
  LuaJIT.read_uleb128 s1 = Ok (size1, body) ->
  LuaJIT.read_uleb128 s2 = Ok (size2, body) ->
  size1 <> 0 -> size2 <> 0 ->
  LuaJIT.read_proto pflags s1
  = match LuaJIT.read_proto pflags s2 with
    | Ok (proto, rest) => Ok (with_size size1 proto, rest)
    | Err e => Err e
    end.
Proof.
  intros H1 H2 N1 N2.
  unfold LuaJIT.read_proto at 2. unfold bind at 1. rewrite H2.
  destruct (Z.eqb_spec size2 0); [contradiction|].
  unfold LuaJIT.read_proto. unfold bind at 1. rewrite H1.
  destruct (Z.eqb_spec size1 0); [contradiction|].
  repeat (apply bind_same; intros).
  repeat match goal with
         | |- context [let '(_, _) := ?x in _] => destruct x
         end.
  repeat (apply bind_same; intros).
  repeat match goal with
         | |- context [let '(_, _) := ?x in _] => destruct x
         end.
  reflexivity.
Qed.

Lemma X26_proto_size_unused_witness :
  LuaJIT.read_proto 2 (bytes_of [7; 0; 0; 0; 0; 0; 0; 0; 9])
  = match LuaJIT.read_proto 2 (bytes_of [0x81; 0x01; 0; 0; 0; 0; 0; 0; 0; 9]) with
    | Ok (proto, rest) => Ok (with_size 7 proto, rest)
    | Err e => Err e
    end.
Proof.
  apply (X26_proto_size_unused 2 7 129 _ _ (bytes_of [0; 0; 0; 0; 0; 0; 0; 9])).
  - reflexivity.
  - reflexivity.
  - discriminate.
  - discriminate.
Defined.

(* ----------------------------------------------------------------- *)
(** ** The upvalue-count byte behind the header *)

Section CountByte.

(** On an input of 31 bytes or more, [check_header] decides on the
    first 31 bytes and leaves the rest. *)
Lemma check_header_frame (header t : bytes) :
  List.length header = 31%nat ->
  check_header (header ++ t)
  = match check_header header with
    | Ok (_, _) => Ok (tt, t)
    | Err e => Err e
    end.
Proof.
  intros L.
  assert (F : firstn 4 (header ++ t) = firstn 4 header).
  { rewrite firstn_app. replace (4 - List.length header)%nat with 0%nat by lia.
    cbn [firstn]. apply app_nil_r. }
  destruct (bytes_eqb (firstn 4 header) LUA_SIGNATURE) eqn:B.
  - apply bytes_eqb_eq in B.
    rewrite <- (firstn_skipn 4 header) in L |- *. rewrite B in L |- *.
    rewrite length_app in L. change (List.length LUA_SIGNATURE) with 4%nat in L.
    destruct (skipn 4 header) as [|v tl]; [cbn in L; lia|].
    cbn [List.length] in L.
    assert (Lt : List.length tl = 26%nat) by lia.
    rewrite <- app_assoc. cbn [app].
    destruct (Z.eq_dec (byte_val v) LUAC_VERSION) as [E|E].
    + apply version_byte_eq in E. subst v.
      change (LUA_SIGNATURE ++ byte_of_Z LUAC_VERSION :: tl ++ t)
        with (LUA_SIGNATURE ++ byte_of_Z LUAC_VERSION :: (tl ++ t)).
      rewrite !check_header_after_version.
      rewrite length_app, Lt. cbn [Nat.leb Nat.add].
      rewrite <- Lt, skipn_app, skipn_all, Nat.sub_diag. reflexivity.
    + change (LUA_SIGNATURE ++ v :: tl ++ t) with (LUA_SIGNATURE ++ v :: (tl ++ t)).
      rewrite !check_header_other_version by exact E. reflexivity.
  - assert (N : firstn 4 header <> LUA_SIGNATURE).
    { intros E. apply bytes_eqb_eq in E. congruence. }
    rewrite (check_header_other_signature header N).
    apply check_header_other_signature. rewrite F. exact N.
Qed.

End CountByte.

(** X27. The byte behind the header, the number of upvalues of the main
    function, is read by [parse] and never used: two files that differ
    in this byte alone are parsed to the same tree, or refused with the
    same exception.  (The writer does not copy it either; it writes the
    number of decoded upvalue descriptors.) *)
Theorem X27_upvalue_count_byte_unused (header : bytes) (c1 c2 : byte) (rest : bytes) :
  List.length header = 31%nat ->
  parse (header ++ c1 :: rest) = parse (header ++ c2 :: rest).
Proof.
  intros L. unfold parse, bind.
  rewrite !check_header_frame by exact L.
  destruct (check_header header) as [[u s]|e]; [|reflexivity].
  rewrite !read_byte_cons. rewrite !length_app. cbn [List.length]. reflexivity.
Qed.

Lemma X27_upvalue_count_byte_unused_witness :
  parse (bytes_of reference_header ++ byte_of_Z 1 :: skipn 1 (bytes_of (sample_body 5)))
  = parse (bytes_of reference_header ++ byte_of_Z 200 :: skipn 1 (bytes_of (sample_body 5))).
Proof.
  apply (X27_upvalue_count_byte_unused (bytes_of reference_header)).
  reflexivity.
Defined.

(* ----------------------------------------------------------------- *)
(** ** The integer constants of a LuaJIT prototype *)

Section IntegerConstants.

Lemma read_uleb128_33_loop_bound (s : bytes) :
  forall (k : nat) (lo v : Z) (s' : bytes),
    (k <= 3)%nat ->
    0 <= lo < 2 ^ (6 + 7 * Z.of_nat k) ->
    LuaJIT.read_uleb128_33_loop lo (6 + 7 * Z.of_nat k) s = Ok (v, s') ->
    0 <= v < 2 ^ 34.
Proof.
  induction s as [|b s IH]; intros k lo v s' Hk Hlo H; [discriminate H|].
  cbn [LuaJIT.read_uleb128_33_loop] in H.
  pose proof (Z.mod_pos_bound (byte_val b) 128 ltac:(lia)) as Hg.
  rewrite <- land_127 in Hg.
  pose proof (lor_group_bound lo (Z.land (byte_val b) 127) (6 + 7 * Z.of_nat k)
                ltac:(lia) Hlo Hg) as Hnew.
  replace (6 + 7 * Z.of_nat k + 7) with (6 + 7 * Z.of_nat (S k)) in * by lia.
  assert (Hle : 2 ^ (6 + 7 * Z.of_nat (S k)) <= 2 ^ 34)
    by (apply Z.pow_le_mono_r; lia).
  destruct (Z.land (byte_val b) 128 =? 0).
  - apply Ok_pair_inj in H. destruct H as [<- _]. lia.
  - destruct (Z.geb_spec (6 + 7 * Z.of_nat (S k)) 32).
    + apply Ok_pair_inj in H. destruct H as [<- _]. lia.
    + apply (IH (S k) _ v s' ltac:(lia) Hnew H).
Qed.

End IntegerConstants.

(** X28. An integer constant of a LuaJIT prototype is not confined to 32
    bits.  [read_uleb128_33] collects up to 34 bits for the low word and
    the sign conversion subtracts 2^32 once, so the integer returned is
    at least -2^31 and below 3 * 2^32; five bytes are enough to get
    2^32, which no 32-bit integer is. *)
Theorem X28_integer_constant_range :
  (forall s v s',
      LuaJIT.read_knum s = Ok (LuaJIT.KInt v, s') -> - 2 ^ 31 <= v < 3 * 2 ^ 32)
  /\ LuaJIT.read_knum (bytes_of [0x80; 0x80; 0x80; 0x80; 0x40])
     = Ok (LuaJIT.KInt (2 ^ 32), []).
Proof.
  split; [|reflexivity].
  intros s v s' H. unfold LuaJIT.read_knum in H. inv_bind H.
  destruct p as [lo0 hi]. rename E into R. rename b into is_num.
  assert (Hlo : 0 <= lo0 < 2 ^ 34).
  { unfold LuaJIT.read_uleb128_33 in R.
    destruct s as [|b s]; [discriminate R|].
    pose proof (Z.mod_pos_bound (Z.shiftr (byte_val b) 1) 64 ltac:(lia)) as Hb.
    assert (E6 : Z.land (Z.shiftr (byte_val b) 1) 63 = Z.shiftr (byte_val b) 1 mod 64)
      by (apply (Z.land_ones _ 6); lia).
    rewrite <- E6 in Hb.
    inv_bind R. inv_bind R. unfold ret in R.
    apply Ok_pair_inj in R. destruct R as [R _].
    assert (El : lo0 = a) by congruence. subst a.
    destruct (Z.shiftr (byte_val b) 1 >? 63).
    - apply (read_uleb128_33_loop_bound s 0 (Z.land (Z.shiftr (byte_val b) 1) 63)
               lo0 s1); [lia | change (6 + 7 * Z.of_nat 0) with 6; lia | exact E].
    - unfold ret in E. apply Ok_pair_inj in E. destruct E as [<- _]. lia. }
  destruct is_num.
  { unfold bind, lift, ret in H.
    destruct (LuaJIT.float_of_bits (Z.lor lo0 (Z.shiftl hi 32))); discriminate H. }
  unfold ret in H. apply Ok_pair_inj in H. destruct H as [H _].
  assert (Ev : v = if lo0 >=? Z.shiftl 1 31 then lo0 - Z.shiftl 1 32 else lo0)
    by congruence.
  rewrite Ev. change (Z.shiftl 1 31) with (2 ^ 31). change (Z.shiftl 1 32) with (2 ^ 32).
  destruct (Z.geb_spec lo0 (2 ^ 31)); lia.
Qed.

Lemma X28_integer_constant_range_witness :
  - 2 ^ 31 <= 2 ^ 32 < 3 * 2 ^ 32
  /\ LuaJIT.read_knum (bytes_of [0x80; 0x80; 0x80; 0x80; 0x40])
     = Ok (LuaJIT.KInt (2 ^ 32), []).
Proof.
  destruct X28_integer_constant_range as [H1 H2]. split; [|exact H2].
  apply (H1 (bytes_of [0x80; 0x80; 0x80; 0x80; 0x40]) (2 ^ 32) []). exact H2.
Defined.
